(** * A shallow embedding of the Tetris rules engine

    The development follows the TypeScript sources: the piece catalogue and
    the 7-bag randomizer of [tetromino.ts], then the board, the active piece
    and the scoring of the [TetrisGame] class, the row search of its ghost
    piece, its keyboard handler and game loop, and the leaderboard of
    [storage.ts].

    Conventions.
    - A JavaScript [number] that holds an integer is the [Z] of that
      integer; the remainder operator [%] is [Z.rem] (it truncates towards
      zero, so a negative dividend gives a negative result). Coordinates,
      rotation states and loop counters stay within a few rows and columns
      and are computed exactly. The score, the line count and the level
      grow with play; their arithmetic is that of doubles, in [Number].
    - An array is a [list]; reading an index that is not there gives
      [undefined], written [None].
    - A call that can raise a [TypeError] (a property read on [undefined])
      returns an [option]: [None] is the exception, [Some v] the result.
    - [Math.random] is an entropy stream threaded through the bag.
    - Rendering and sound calls touch none of the fields modelled here and
      are left out. The leaderboard in [localStorage], the clock and the
      storage quota are the environment of the engine, in [Storage]. *)

From stdpp Require Import base numbers list strings pretty gmap sorting.

Local Open Scope Z_scope.

(** ** Piece catalogue *)

Module Tetromino.

(** The string literals ['I'], ['O'], ['T'], ['S'], ['Z'], ['J'], ['L']. *)
Inductive TetrominoType := I_ | O_ | T_ | S_ | Z_ | J_ | L_.

#[global] Instance TetrominoType_eq_dec : EqDecision TetrominoType.
Proof. solve_decision. Defined.

(** A shape matrix: rows of numbers, 1 a filled cell and 0 an empty one. *)
Abbreviation Shape := (list (list Z)).

Record TetrominoData := {
  shapes : list Shape;
  color : string;
  glowColor : string
}.

Definition TETROMINOES (t : TetrominoType) : TetrominoData :=
  match t with
  | I_ => {| shapes :=
        [ [[0; 0; 0; 0]; [1; 1; 1; 1]; [0; 0; 0; 0]; [0; 0; 0; 0]];
          [[0; 0; 1; 0]; [0; 0; 1; 0]; [0; 0; 1; 0]; [0; 0; 1; 0]];
          [[0; 0; 0; 0]; [0; 0; 0; 0]; [1; 1; 1; 1]; [0; 0; 0; 0]];
          [[0; 1; 0; 0]; [0; 1; 0; 0]; [0; 1; 0; 0]; [0; 1; 0; 0]] ];
      color := "#00E5FF"; glowColor := "rgba(0, 229, 255, 0.8)" |}
  | O_ => {| shapes :=
        [ [[1; 1]; [1; 1]];
          [[1; 1]; [1; 1]];
          [[1; 1]; [1; 1]];
          [[1; 1]; [1; 1]] ];
      color := "#FFEB3B"; glowColor := "rgba(255, 235, 59, 0.8)" |}
  | T_ => {| shapes :=
        [ [[0; 1; 0]; [1; 1; 1]; [0; 0; 0]];
          [[0; 1; 0]; [0; 1; 1]; [0; 1; 0]];
          [[0; 0; 0]; [1; 1; 1]; [0; 1; 0]];
          [[0; 1; 0]; [1; 1; 0]; [0; 1; 0]] ];
      color := "#BA68C8"; glowColor := "rgba(186, 104, 200, 0.8)" |}
  | S_ => {| shapes :=
        [ [[0; 1; 1]; [1; 1; 0]; [0; 0; 0]];
          [[0; 1; 0]; [0; 1; 1]; [0; 0; 1]];
          [[0; 0; 0]; [0; 1; 1]; [1; 1; 0]];
          [[1; 0; 0]; [1; 1; 0]; [0; 1; 0]] ];
      color := "#66BB6A"; glowColor := "rgba(102, 187, 106, 0.8)" |}
  | Z_ => {| shapes :=
        [ [[1; 1; 0]; [0; 1; 1]; [0; 0; 0]];
          [[0; 0; 1]; [0; 1; 1]; [0; 1; 0]];
          [[0; 0; 0]; [1; 1; 0]; [0; 1; 1]];
          [[0; 1; 0]; [1; 1; 0]; [1; 0; 0]] ];
      color := "#FF5252"; glowColor := "rgba(255, 82, 82, 0.8)" |}
  | J_ => {| shapes :=
        [ [[1; 0; 0]; [1; 1; 1]; [0; 0; 0]];
          [[0; 1; 1]; [0; 1; 0]; [0; 1; 0]];
          [[0; 0; 0]; [1; 1; 1]; [0; 0; 1]];
          [[0; 1; 0]; [0; 1; 0]; [1; 1; 0]] ];
      color := "#42A5F5"; glowColor := "rgba(66, 165, 245, 0.8)" |}
  | L_ => {| shapes :=
        [ [[0; 0; 1]; [1; 1; 1]; [0; 0; 0]];
          [[0; 1; 0]; [0; 1; 0]; [0; 1; 1]];
          [[0; 0; 0]; [1; 1; 1]; [1; 0; 0]];
          [[1; 1; 0]; [0; 1; 0]; [0; 1; 0]] ];
      color := "#FFA726"; glowColor := "rgba(255, 167, 38, 0.8)" |}
  end.

(** [arr[i]] for an integer index: [undefined] below zero and past the end. *)
Definition index {A} (l : list A) (i : Z) : option A :=
  if decide (0 ≤ i) then l !! Z.to_nat i else None.

(** [TETROMINOES[type].shapes[rotation % 4]]. *)
Definition getRotatedShape (type : TetrominoType) (rotation : Z) : option Shape :=
  index (shapes (TETROMINOES type)) (rotation `rem` 4).

Abbreviation Kicks := (list (Z * Z)).

Definition WALL_KICKS_JLSTZ : gmap string Kicks := list_to_map
  [ ("0>1", [(0, 0); (-1, 0); (-1, 1); (0, -2); (-1, -2)]);
    ("1>0", [(0, 0); (1, 0); (1, -1); (0, 2); (1, 2)]);
    ("1>2", [(0, 0); (1, 0); (1, -1); (0, 2); (1, 2)]);
    ("2>1", [(0, 0); (-1, 0); (-1, 1); (0, -2); (-1, -2)]);
    ("2>3", [(0, 0); (1, 0); (1, 1); (0, -2); (1, -2)]);
    ("3>2", [(0, 0); (-1, 0); (-1, -1); (0, 2); (-1, 2)]);
    ("3>0", [(0, 0); (-1, 0); (-1, -1); (0, 2); (-1, 2)]);
    ("0>3", [(0, 0); (1, 0); (1, 1); (0, -2); (1, -2)]) ].

Definition WALL_KICKS_I : gmap string Kicks := list_to_map
  [ ("0>1", [(0, 0); (-2, 0); (1, 0); (-2, -1); (1, 2)]);
    ("1>0", [(0, 0); (2, 0); (-1, 0); (2, 1); (-1, -2)]);
    ("1>2", [(0, 0); (-1, 0); (2, 0); (-1, 2); (2, -1)]);
    ("2>1", [(0, 0); (1, 0); (-2, 0); (1, -2); (-2, 1)]);
    ("2>3", [(0, 0); (2, 0); (-1, 0); (2, 1); (-1, -2)]);
    ("3>2", [(0, 0); (-2, 0); (1, 0); (-2, -1); (1, 2)]);
    ("3>0", [(0, 0); (1, 0); (-2, 0); (1, -2); (-2, 1)]);
    ("0>3", [(0, 0); (-1, 0); (2, 0); (-1, 2); (2, -1)]) ].

(** The template string [`${fromRotation}>${toRotation}`]. *)
Definition kickKey (fromRotation toRotation : Z) : string :=
  pretty fromRotation +:+ ">" +:+ pretty toRotation.

(** [table[key] || [[0, 0]]]: a stored array is truthy, so only a missing
    key takes the fallback. *)
Definition getWallKicks (type : TetrominoType) (fromRotation toRotation : Z) : Kicks :=
  let key := kickKey fromRotation toRotation in
  if decide (type = I_) then default [(0, 0)] (WALL_KICKS_I !! key)
  else if decide (type = O_) then [(0, 0)]
  else default [(0, 0)] (WALL_KICKS_JLSTZ !! key).

End Tetromino.

Import Tetromino.

(** ** The 7-bag randomizer *)

Module Bag.

Local Open Scope nat_scope.

(** The entropy behind [Math.random]: an infinite stream of raw values and
    the position of the next one to hand out. *)
Record Rng := { stream : nat → nat; cursor : nat }.

(** [Math.floor(Math.random() * n)] for [n > 0]: some index below [n].
    Every index below [n] is produced by a suitable stream. *)
Definition randomBelow (n : nat) (r : Rng) : nat * Rng :=
  (stream r (cursor r) `mod` n,
   {| stream := stream r; cursor := S (cursor r) |}).

(** [[a[i], a[j]] = [a[j], a[i]]]: both reads happen before both writes.
    The shuffle only calls it with [j ≤ i < a.length]; outside that range
    the list is returned as it is. *)
Definition swap {A} (i j : nat) (a : list A) : list A :=
  match a !! j, a !! i with
  | Some aj, Some ai => <[j:=ai]> (<[i:=aj]> a)
  | _, _ => a
  end.

(** The loop [for (let i = shuffled.length - 1; i > 0; i--)]. *)
Fixpoint shuffleLoop {A} (i : nat) (shuffled : list A) (r : Rng) : list A * Rng :=
  match i with
  | 0 => (shuffled, r)
  | S i' =>
      let '(j, r') := randomBelow (i + 1) r in
      shuffleLoop i' (swap i j shuffled) r'
  end.

Definition shuffleArray {A} (array : list A) (r : Rng) : list A * Rng :=
  shuffleLoop (length array - 1) array r.
Arguments shuffleArray : simpl never.

Definition pieces : list TetrominoType := [I_; O_; T_; S_; Z_; J_; L_].

(** The two queues. The end of a list is the end of the array, where
    [pop] takes from. *)
Record TetrominoBag := { bag : list TetrominoType; nextBag : list TetrominoType }.

Definition fillBag (b : TetrominoBag) (r : Rng) : TetrominoBag * Rng :=
  let '(s, r') := shuffleArray pieces r in
  ({| bag := s; nextBag := nextBag b |}, r').

Definition fillNextBag (b : TetrominoBag) (r : Rng) : TetrominoBag * Rng :=
  let '(s, r') := shuffleArray pieces r in
  ({| bag := bag b; nextBag := s |}, r').

(** The constructor: both fields start as [[]] and are then filled. *)
Definition new (r : Rng) : TetrominoBag * Rng :=
  let '(b, r1) := fillBag {| bag := []; nextBag := [] |} r in
  fillNextBag b r1.

(** [next()]: the value popped ([undefined] on an empty array), the bag
    and the entropy left. *)
Definition next (b : TetrominoBag) (r : Rng)
  : option TetrominoType * TetrominoBag * Rng :=
  let '(b1, r1) :=
    if decide (length (bag b) = 0)
    then fillNextBag {| bag := nextBag b; nextBag := nextBag b |} r
    else (b, r) in
  (last (bag b1), {| bag := removelast (bag b1); nextBag := nextBag b1 |}, r1).

(** [peek()] reads and assigns nothing; it is given the shape of [next] so
    that the two can be compared field by field. *)
Definition peek (b : TetrominoBag) (r : Rng)
  : option TetrominoType * TetrominoBag * Rng :=
  if decide (length (bag b) = 0)
  then (nextBag b !! (length (nextBag b) - 1), b, r)
  else (bag b !! (length (bag b) - 1), b, r).

Definition reset (b : TetrominoBag) (r : Rng) : TetrominoBag * Rng :=
  let '(b1, r1) := fillBag b r in
  fillNextBag b1 r1.

(** [n] consecutive calls of [next], with the values in call order. *)
Fixpoint draws (n : nat) (b : TetrominoBag) (r : Rng)
  : list (option TetrominoType) * TetrominoBag * Rng :=
  match n with
  | 0 => ([], b, r)
  | S n' =>
      let '(v, b1, r1) := next b r in
      let '(vs, b2, r2) := draws n' b1 r1 in
      (v :: vs, b2, r2)
  end.

(** The bag states the program can be in: built by the constructor, then
    changed only by [next] and [reset], whatever [Math.random] yields. *)
Inductive reachable : TetrominoBag → Prop :=
  | reach_new r : reachable (new r).1
  | reach_next b r : reachable b → reachable (next b r).1.2
  | reach_reset b r : reachable b → reachable (reset b r).1.

End Bag.

(** ** Numbers *)

Module Number.

(** A double that holds an integer is the [Z] of that integer. Integers up
    to [2 ^ 53] in size are all doubles; larger ones are doubles when they
    fit 53 significant bits. The exponent range of a double is not
    modelled: a number is taken to stay below [2 ^ 1024]. *)

(** The integer nearest to [n / d] for [d > 0], the even one of two that
    are equally near. *)
Definition roundEven (n d : Z) : Z :=
  let q := n `div` d in
  let r := n `mod` d in
  if decide (2 * r < d) then q
  else if decide (d < 2 * r) then q + 1
  else if Z.even q then q else q + 1.

(** The double nearest to the integer [n >= 0]: [n] itself when it has at
    most 53 bits, else [n] rounded in its last place [2 ^ e]. *)
Definition nearest (n : Z) : Z :=
  let e := Z.log2 n - 52 in
  if decide (e ≤ 0) then n else roundEven n (2 ^ e) * 2 ^ e.

(** The double nearest to an integer of either sign. *)
Definition fl (z : Z) : Z := Z.sgn z * nearest (Z.abs z).

(** [a + b], [a - b] and [a * b] on doubles that hold integers: the exact
    result, rounded. *)
Definition add (a b : Z) : Z := fl (a + b).
Definition sub (a b : Z) : Z := fl (a - b).
Definition mul (a b : Z) : Z := fl (a * b).

(** [Math.floor(a / 10)] for a double [a >= 0] that holds an integer: the
    quotient is rounded to 53 significant bits before the floor is taken.
    With [p = 52 - floor (log2 (a / 10))] the rounded quotient is
    [roundEven (a * 2 ^ p) 10 / 2 ^ p]. *)
Definition floorDiv10 (a : Z) : Z :=
  let q := a `div` 10 in
  if decide (q < 1) then 0
  else
    let p := 52 - Z.log2 q in
    if decide (0 ≤ p) then roundEven (a * 2 ^ p) 10 `div` 2 ^ p
    else roundEven a (10 * 2 ^ (- p)) * 2 ^ (- p).

(** The integer [z] is a double. *)
Definition double (z : Z) : Prop := fl z = z.

End Number.

(** ** High scores *)

Module Storage.

Record GameScore := {
  score : Z;
  level : Z;
  lines : Z;
  date : string
}.

Definition MAX_SCORES : nat := 10.

(** What [localStorage] has under [SCORES_KEY], as [getHighScores] sees
    it: no entry (or an empty string), an entry that cannot be read
    ([getItem] or [JSON.parse] throws), or the JSON text of an array of
    scores, which is what [saveHighScore], the only writer of the key,
    puts there. The text is identified with the array it encodes. *)
Inductive Item := missing | unreadable | stored (scores : list GameScore).

Definition getHighScores (item : Item) : list GameScore :=
  match item with
  | stored scores => scores
  | _ => []
  end.

(** [scores.sort((a, b) => b.score - a.score)]: the sort is stable, so the
    result is the insertion of each score, the last one first, in front of
    the first score that is not greater than it. *)
Fixpoint insertScore (s : GameScore) (l : list GameScore) : list GameScore :=
  match l with
  | [] => [s]
  | h :: t => if decide (score h ≤ score s) then s :: h :: t else h :: insertScore s t
  end.

Definition sortScores (l : list GameScore) : list GameScore :=
  foldr insertScore [] l.

(** [saveHighScore]; [writable] tells whether [localStorage.setItem]
    returns or throws. The result and the entry afterwards. *)
Definition saveHighScore (writable : bool) (item : Item) (s : GameScore)
  : bool * Item :=
  let scores := getHighScores item ++ [s] in
  let sorted := sortScores scores in
  let topScores := take MAX_SCORES sorted in
  if writable
  then (existsb (λ e, bool_decide (score e = score s ∧ date e = date s)) topScores,
        stored topScores)
  else (false, item).

Definition getTopScore (item : Item) : Z :=
  match getHighScores item with
  | [] => 0
  | s :: _ => score s
  end.

(** [isHighScore]; reading [.score] off a missing last element would
    raise, which is [None]. *)
Definition isHighScore (item : Item) (sc : Z) : option bool :=
  let scores := getHighScores item in
  if decide (length scores < MAX_SCORES)%nat then Some true
  else (λ l, bool_decide (sc > score l)) <$> last scores.

(** The scores are in descending order. *)
Definition descending (l : list GameScore) : Prop :=
  Sorted (λ a b, score b ≤ score a) l.

(** The entries [saveHighScore] can have left: none, or a leaderboard it
    wrote. *)
Inductive written : Item → Prop :=
  | written_missing : written missing
  | written_save item s : written (saveHighScore true item s).2.

(** What the engine can find under the key. Besides the entries above
    (nothing, text that does not parse, an array of score records) it can
    be [foreign]: JSON that parses to a number, a boolean or an object that
    has no property named length or NaN, such as an object with the one
    property a. [getHighScores] returns such a value as it is: it has no
    [length], no element at the index [undefined - 1] and no [push].
    Other contents (a string, [null], an array of anything else than score
    records) are not modelled. *)
Inductive Content := listed (item : Item) | foreign.

(** [getTopScore] on any content: on a foreign value [scores.length > 0]
    compares [undefined] with 0 and is false. *)
Definition topScoreOf (c : Content) : Z :=
  match c with
  | listed item => getTopScore item
  | foreign => 0
  end.

(** [isHighScore] on any content: on a foreign value
    [scores.length < MAX_SCORES] is false and [scores[scores.length - 1]]
    is [undefined], so that reading its [score] raises. *)
Definition isHighScoreOf (c : Content) (sc : Z) : option bool :=
  match c with
  | listed item => isHighScore item sc
  | foreign => None
  end.

(** [saveHighScore] on any content: on a foreign value [scores.push] is
    not a function and the call raises, outside the [try]. *)
Definition saveHighScoreOf (writable : bool) (c : Content) (s : GameScore)
  : option (bool * Content) :=
  match c with
  | listed item =>
      Some ((saveHighScore writable item s).1, listed (saveHighScore writable item s).2)
  | foreign => None
  end.

(** The environment of a handler call: what is under the key, whether
    [localStorage.setItem] returns or throws, and what
    [new Date().toISOString()] returns. *)
Record Env := {
  entry : Content;
  writable : bool;
  now : string
}.

End Storage.

(** ** The game engine *)

Module Game.

Definition COLS : Z := 10.
Definition ROWS : Z := 20.

Definition SCORE_TABLE : gmap Z Z :=
  list_to_map [(1, 100); (2, 300); (3, 500); (4, 800)].

Definition BASE_SPEED : Z := 1000.
Definition SPEED_DECREASE_PER_LEVEL : Z := 75.
Definition MIN_SPEED : Z := 100.

Record ActivePiece := {
  type : TetrominoType;
  x : Z;
  y : Z;
  rotation : Z
}.

Inductive GameState := start | playing | paused | gameover.

(** What an element of a board row can hold at run time: [null], a colour
    string, or [undefined] (an index past the end of the row, or a hole
    left by an assignment past the end). *)
Inductive Cell := null | undefined | str (s : string).

#[global] Instance Cell_eq_dec : EqDecision Cell.
Proof. solve_decision. Defined.

Abbreviation Board := (list (list Cell)).

(** Truthiness of a board cell: a non-empty string. *)
Definition truthy (c : Cell) : bool :=
  match c with
  | str s => bool_decide (s ≠ "")
  | _ => false
  end.

Record TetrisGame := {
  board : Board;
  currentPiece : option ActivePiece;
  bag : Bag.TetrominoBag;
  nextPiece : option TetrominoType;
  score : Z;
  level : Z;
  lines : Z;
  state : GameState;
  dropInterval : Z;
  rng : Bag.Rng;
  highScore : Z;
  env : Storage.Env
}.

Definition set_board (b : Board) (g : TetrisGame) : TetrisGame :=
  {| board := b; currentPiece := currentPiece g; bag := bag g;
     nextPiece := nextPiece g; score := score g; level := level g;
     lines := lines g; state := state g; dropInterval := dropInterval g;
     rng := rng g; highScore := highScore g; env := env g |}.

Definition set_currentPiece (p : option ActivePiece) (g : TetrisGame) : TetrisGame :=
  {| board := board g; currentPiece := p; bag := bag g;
     nextPiece := nextPiece g; score := score g; level := level g;
     lines := lines g; state := state g; dropInterval := dropInterval g;
     rng := rng g; highScore := highScore g; env := env g |}.

Definition set_score (s : Z) (g : TetrisGame) : TetrisGame :=
  {| board := board g; currentPiece := currentPiece g; bag := bag g;
     nextPiece := nextPiece g; score := s; level := level g;
     lines := lines g; state := state g; dropInterval := dropInterval g;
     rng := rng g; highScore := highScore g; env := env g |}.

Definition set_lines (n : Z) (g : TetrisGame) : TetrisGame :=
  {| board := board g; currentPiece := currentPiece g; bag := bag g;
     nextPiece := nextPiece g; score := score g; level := level g;
     lines := n; state := state g; dropInterval := dropInterval g;
     rng := rng g; highScore := highScore g; env := env g |}.

Definition set_level (l interval : Z) (g : TetrisGame) : TetrisGame :=
  {| board := board g; currentPiece := currentPiece g; bag := bag g;
     nextPiece := nextPiece g; score := score g; level := l;
     lines := lines g; state := state g; dropInterval := interval;
     rng := rng g; highScore := highScore g; env := env g |}.

Definition set_state (s : GameState) (g : TetrisGame) : TetrisGame :=
  {| board := board g; currentPiece := currentPiece g; bag := bag g;
     nextPiece := nextPiece g; score := score g; level := level g;
     lines := lines g; state := s; dropInterval := dropInterval g;
     rng := rng g; highScore := highScore g; env := env g |}.

Definition set_highScore (h : Z) (g : TetrisGame) : TetrisGame :=
  {| board := board g; currentPiece := currentPiece g; bag := bag g;
     nextPiece := nextPiece g; score := score g; level := level g;
     lines := lines g; state := state g; dropInterval := dropInterval g;
     rng := rng g; highScore := h; env := env g |}.

Definition set_env (e : Storage.Env) (g : TetrisGame) : TetrisGame :=
  {| board := board g; currentPiece := currentPiece g; bag := bag g;
     nextPiece := nextPiece g; score := score g; level := level g;
     lines := lines g; state := state g; dropInterval := dropInterval g;
     rng := rng g; highScore := highScore g; env := e |}.

(** [Array.from({ length: ROWS }, () => Array(COLS).fill(null))]. *)
Definition createEmptyBoard : Board :=
  replicate (Z.to_nat ROWS) (replicate (Z.to_nat COLS) null).

(** *** Collision test *)

(** The body of the two nested loops of [isValidPosition] for one shape
    entry: [Some true] lets the scan go on, [Some false] is the early
    [return false], [None] the [TypeError] of reading a column of a row the
    board does not have. *)
Definition checkCell (b : Board) (x y row col v : Z) : option bool :=
  if decide (v = 0) then Some true
  else
    let boardX := x + col in
    let boardY := y + row in
    if decide (boardX < 0 ∨ boardX >= COLS ∨ boardY >= ROWS) then Some false
    else if decide (boardY >= 0) then
      match index b boardY with
      | None => None
      | Some r => Some (negb (truthy (default undefined (index r boardX))))
      end
    else Some true.

Fixpoint checkCols (b : Board) (x y row col : Z) (cells : list Z) : option bool :=
  match cells with
  | [] => Some true
  | v :: rest =>
      match checkCell b x y row col v with
      | Some true => checkCols b x y row (col + 1) rest
      | r => r
      end
  end.

Fixpoint checkRows (b : Board) (x y row : Z) (rows : Shape) : option bool :=
  match rows with
  | [] => Some true
  | cells :: rest =>
      match checkCols b x y row 0 cells with
      | Some true => checkRows b x y (row + 1) rest
      | r => r
      end
  end.

(** [isValidPosition]; an [undefined] shape raises at [shape.length]. *)
Definition isValidPosition (b : Board) (type : TetrominoType) (x y rotation : Z)
  : option bool :=
  match getRotatedShape type rotation with
  | None => None
  | Some shape => checkRows b x y 0 shape
  end.

(** *** Moving and rotating the active piece *)

Definition movePiece (dx dy : Z) (g : TetrisGame) : option (bool * TetrisGame) :=
  match currentPiece g with
  | None => Some (false, g)
  | Some p =>
      let newX := x p + dx in
      let newY := y p + dy in
      match isValidPosition (board g) (type p) newX newY (rotation p) with
      | None => None
      | Some true =>
          Some (true,
                set_currentPiece
                  (Some {| type := type p; x := newX; y := newY;
                           rotation := rotation p |}) g)
      | Some false => Some (false, g)
      end
  end.

(** The loop [for (const [kickX, kickY] of kicks)] of [rotatePiece]. *)
Fixpoint tryKicks (g : TetrisGame) (p : ActivePiece) (toRotation : Z)
    (kicks : Kicks) : option TetrisGame :=
  match kicks with
  | [] => Some g
  | (kickX, kickY) :: rest =>
      let newX := x p + kickX in
      let newY := y p - kickY in
      match isValidPosition (board g) (type p) newX newY toRotation with
      | None => None
      | Some true =>
          Some (set_currentPiece
                  (Some {| type := type p; x := newX; y := newY;
                           rotation := toRotation |}) g)
      | Some false => tryKicks g p toRotation rest
      end
  end.

Definition rotatePiece (g : TetrisGame) : option TetrisGame :=
  match currentPiece g with
  | None => Some g
  | Some p =>
      let fromRotation := rotation p in
      let toRotation := (fromRotation + 1) `rem` 4 in
      let kicks := getWallKicks (type p) fromRotation toRotation in
      tryKicks g p toRotation kicks
  end.

Definition softDrop (g : TetrisGame) : option TetrisGame :=
  match movePiece 0 1 g with
  | None => None
  | Some (true, g1) => Some (set_score (Number.add (score g1) 1) g1)
  | Some (false, g1) => Some g1
  end.

(** *** Locking a piece *)

(** [row[i] = v] on a JavaScript array: an index inside the array is
    overwritten, an index past the end extends the array, the skipped
    indices being holes (which read as [undefined]). *)
Definition assign (r : list Cell) (i : nat) (v : Cell) : list Cell :=
  if decide (i < length r)%nat then <[i:=v]> r
  else r ++ replicate (i - length r) undefined ++ [v].

(** The body of the two nested loops of [lockPiece] for one shape entry;
    [None] is the [TypeError] of writing into a row the board lacks. *)
Definition lockCell (color : string) (x y row col v : Z) (b : Board) : option Board :=
  if decide (v = 0) then Some b
  else
    let boardY := y + row in
    let boardX := x + col in
    if decide (boardY >= 0 ∧ boardY < ROWS ∧ boardX >= 0 ∧ boardX < COLS) then
      match b !! Z.to_nat boardY with
      | None => None
      | Some r =>
          Some (<[Z.to_nat boardY := assign r (Z.to_nat boardX) (str color)]> b)
      end
    else Some b.

Fixpoint lockCols (color : string) (x y row col : Z) (cells : list Z) (b : Board)
  : option Board :=
  match cells with
  | [] => Some b
  | v :: rest =>
      match lockCell color x y row col v b with
      | None => None
      | Some b1 => lockCols color x y row (col + 1) rest b1
      end
  end.

Fixpoint lockRows (color : string) (x y row : Z) (rows : Shape) (b : Board)
  : option Board :=
  match rows with
  | [] => Some b
  | cells :: rest =>
      match lockCols color x y row 0 cells b with
      | None => None
      | Some b1 => lockRows color x y (row + 1) rest b1
      end
  end.

(** *** Clearing lines *)

(** [row.every(cell => cell !== null)]. *)
Definition rowFull (r : list Cell) : bool :=
  forallb (λ cell, bool_decide (cell ≠ null)) r.

(** The scan [for (let row = n - 1; row >= 0; row--)] that fills
    [linesToClear]: the indices of the full rows, the bottom one first.
    [None] is the [TypeError] of [board[row].every] on a missing row. *)
Fixpoint scanFull (n : nat) (b : Board) : option (list nat) :=
  match n with
  | O => Some []
  | S k =>
      match b !! k, scanFull k b with
      | Some r, Some rest => Some (if rowFull r then k :: rest else rest)
      | _, _ => None
      end
  end.

Definition linesToClear (b : Board) : option (list nat) :=
  scanFull (Z.to_nat ROWS) b.

(** One round of the loop that "actually clears the lines":
    [board.splice(row, 1)] then [board.unshift(Array(COLS).fill(null))].
    [splice] past the end removes nothing, as [delete] does. *)
Definition clearRow (b : Board) (row : nat) : Board :=
  replicate (Z.to_nat COLS) null :: delete row b.

Definition clearRows (b : Board) (rows : list nat) : Board :=
  foldl clearRow b rows.

(** [SCORE_TABLE[n] || 0]. *)
Definition lineScore (n : Z) : Z := default 0 (SCORE_TABLE !! n).

(** The drop interval of a level:
    [Math.max(MIN_SPEED, BASE_SPEED - (level - 1) * SPEED_DECREASE_PER_LEVEL)]. *)
Definition speedOf (level : Z) : Z :=
  Z.max MIN_SPEED
    (Number.sub BASE_SPEED
       (Number.mul (Number.sub level 1) SPEED_DECREASE_PER_LEVEL)).

Definition clearLines (g : TetrisGame) : option TetrisGame :=
  match linesToClear (board g) with
  | None => None
  | Some [] => Some g
  | Some rows =>
      let n := Z.of_nat (length rows) in
      let g1 :=
        set_score (Number.add (score g) (Number.mul (lineScore n) (level g))) g in
      let g2 := set_lines (Number.add (lines g1) n) g1 in
      let g3 := set_board (clearRows (board g2) rows) g2 in
      let newLevel := Number.add (Number.floorDiv10 (lines g3)) 1 in
      if decide (newLevel > level g3)
      then Some (set_level newLevel (speedOf newLevel) g3)
      else Some g3
  end.

(** *** Spawning, game over and locking *)

(** [gameOver]: the state is written first; then [isHighScore] and, if it
    accepts, [saveHighScore] are called, neither inside a [try], so that
    what they raise ends the handler ([None]); [highScore] is written
    after the save. *)
Definition gameOver (g : TetrisGame) : option TetrisGame :=
  let g1 := set_state gameover g in
  match Storage.isHighScoreOf (Storage.entry (env g1)) (score g1) with
  | None => None
  | Some false => Some g1
  | Some true =>
      let final :=
        {| Storage.score := score g1; Storage.level := level g1;
           Storage.lines := lines g1; Storage.date := Storage.now (env g1) |} in
      match Storage.saveHighScoreOf (Storage.writable (env g1))
              (Storage.entry (env g1)) final with
      | None => None
      | Some (_, entry1) =>
          Some (set_highScore (score g1)
                  (set_env {| Storage.entry := entry1;
                              Storage.writable := Storage.writable (env g1);
                              Storage.now := Storage.now (env g1) |} g1))
      end
  end.

Definition spawnPiece (g : TetrisGame) : option TetrisGame :=
  let type := nextPiece g in
  let startX := (COLS - 4) `div` 2 in
  let startY := 0 in
  let '(v, bag1, rng1) := Bag.next (bag g) (rng g) in
  let g1 :=
    {| board := board g; currentPiece := currentPiece g; bag := bag1;
       nextPiece := v; score := score g; level := level g; lines := lines g;
       state := state g; dropInterval := dropInterval g; rng := rng1;
       highScore := highScore g; env := env g |} in
  match type with
  | None => None
  | Some t =>
      match isValidPosition (board g1) t startX startY 0 with
      | None => None
      | Some false => gameOver (set_currentPiece None g1)
      | Some true =>
          Some (set_currentPiece
                  (Some {| type := t; x := startX; y := startY; rotation := 0 |})
                  g1)
      end
  end.

Definition lockPiece (g : TetrisGame) : option TetrisGame :=
  match currentPiece g with
  | None => Some g
  | Some p =>
      match getRotatedShape (type p) (rotation p) with
      | None => None
      | Some shape =>
          let color := color (TETROMINOES (type p)) in
          match lockRows color (x p) (y p) 0 shape (board g) with
          | None => None
          | Some b1 =>
              match clearLines (set_board b1 g) with
              | None => None
              | Some g1 => spawnPiece g1
              end
          end
      end
  end.

(** *** Hard drop *)

(** How a loop that is run on fuel ends: it returns, it raises, or the
    fuel is used up before it comes to an end. *)
Inductive Run (A : Type) := Returns (a : A) | Raises | OutOfFuel.
Arguments Returns {A} a.
Arguments Raises {A}.
Arguments OutOfFuel {A}.

Definition ofOption {A} (o : option A) : Run A :=
  match o with
  | Some a => Returns a
  | None => Raises
  end.

(** [while (this.movePiece(0, 1)) { dropDistance++; }]; the counter stays
    below the number of rows and is computed exactly. *)
Fixpoint dropLoop (fuel : nat) (g : TetrisGame) (dropDistance : Z)
  : Run (Z * TetrisGame) :=
  match movePiece 0 1 g with
  | None => Raises
  | Some (false, g1) => Returns (dropDistance, g1)
  | Some (true, g1) =>
      match fuel with
      | O => OutOfFuel
      | S fuel' => dropLoop fuel' g1 (dropDistance + 1)
      end
  end.

Definition hardDrop (fuel : nat) (g : TetrisGame) : Run TetrisGame :=
  match currentPiece g with
  | None => Returns g
  | Some _ =>
      match dropLoop fuel g 0 with
      | Returns (dropDistance, g1) =>
          ofOption
            (lockPiece
               (set_score (Number.add (score g1) (Number.mul dropDistance 2)) g1))
      | Raises => Raises
      | OutOfFuel => OutOfFuel
      end
  end.

(** *** Session *)

(** The field initialisers and the constructor, in the environment [e]:
    [this.highScore = getTopScore()]. *)
Definition newGame (r : Bag.Rng) (e : Storage.Env) : TetrisGame :=
  let '(bag0, r0) := Bag.new r in
  let '(v, bag1, r1) := Bag.next bag0 r0 in
  {| board := createEmptyBoard; currentPiece := None; bag := bag1;
     nextPiece := v; score := 0; level := 1; lines := 0; state := start;
     dropInterval := BASE_SPEED; rng := r1;
     highScore := Storage.topScoreOf (Storage.entry e); env := e |}.

Definition startGame (g : TetrisGame) : option TetrisGame :=
  let '(bag0, r0) := Bag.reset (bag g) (rng g) in
  let '(v, bag1, r1) := Bag.next bag0 r0 in
  let g1 :=
    {| board := createEmptyBoard; currentPiece := None; bag := bag1;
       nextPiece := v; score := 0; level := 1; lines := 0; state := state g;
       dropInterval := BASE_SPEED; rng := r1;
       highScore := highScore g; env := env g |} in
  match spawnPiece g1 with
  | None => None
  | Some g2 => Some (set_state playing g2)
  end.

(** The auto-drop of [gameLoop], once the drop timer has run out. *)
Definition autoDrop (g : TetrisGame) : option TetrisGame :=
  match movePiece 0 1 g with
  | None => None
  | Some (true, g1) => Some g1
  | Some (false, g1) => lockPiece g1
  end.

Definition togglePause (g : TetrisGame) : TetrisGame :=
  match state g with
  | playing => set_state paused g
  | paused => set_state playing g
  | _ => g
  end.

(** The states of a session: the constructor's, and whatever the handlers
    make of them. The handlers are taken with any argument and in any
    session state, which only adds states. *)
Inductive step : TetrisGame → TetrisGame → Prop :=
  | step_startGame g g' : startGame g = Some g' → step g g'
  | step_movePiece g dx dy ok g' : movePiece dx dy g = Some (ok, g') → step g g'
  | step_rotatePiece g g' : rotatePiece g = Some g' → step g g'
  | step_softDrop g g' : softDrop g = Some g' → step g g'
  | step_hardDrop g fuel g' : hardDrop fuel g = Returns g' → step g g'
  | step_autoDrop g g' : autoDrop g = Some g' → step g g'
  | step_togglePause g : step g (togglePause g).

(** Between two handler calls the environment can become anything: the
    leaderboard entry is shared with other pages, the quota and the clock
    are not the engine's. A handler that raises at a game over leaves the
    fields as the same call leaves them when [isHighScore] declines, so
    that the states left behind by an exception are states of a session
    too. *)
Inductive reachable : TetrisGame → Prop :=
  | reachable_new r e : reachable (newGame r e)
  | reachable_step g g' : reachable g → step g g' → reachable g'
  | reachable_env g e : reachable g → reachable (set_env e g).

(** *** Vocabulary of the properties *)

(** The grid has [ROWS] rows of [COLS] cells. *)
Definition dims (b : Board) : Prop :=
  length b = Z.to_nat ROWS ∧ Forall (λ r, length r = Z.to_nat COLS) b.

(** A cell is empty or holds the colour of a piece type. *)
Definition cell_ok (c : Cell) : Prop :=
  c = null ∨ ∃ t, c = str (color (TETROMINOES t)).

Definition wellFormed (b : Board) : Prop :=
  dims b ∧ Forall (Forall cell_ok) b.

(** [board[row][col]], when both indices are inside the grid. *)
Definition cellAt (b : Board) (row col : Z) : option Cell :=
  index b row ≫= λ r, index r col.

(** Entry [(row, col)] of a shape matrix is a filled cell. *)
Definition filled (shape : Shape) (row col : nat) : Prop :=
  ∃ cells v, shape !! row = Some cells ∧ cells !! col = Some v ∧ v ≠ 0.

(** What a placement of [shape] at [(x, y)] has to satisfy: every filled
    cell inside the columns, above the floor and, from row 0 down, on an
    empty board cell. *)
Definition fits (b : Board) (x y : Z) (shape : Shape) : Prop :=
  ∀ row col : nat, filled shape row col →
    0 ≤ x + Z.of_nat col < COLS ∧ y + Z.of_nat row < ROWS ∧
    (0 ≤ y + Z.of_nat row →
     cellAt b (y + Z.of_nat row) (x + Z.of_nat col) = Some null).

(** The same for one entry [v] of the matrix, at integer indices. *)
Definition cellFits (b : Board) (x y row col v : Z) : Prop :=
  v ≠ 0 →
  0 ≤ x + col < COLS ∧ y + row < ROWS ∧
  (0 ≤ y + row → cellAt b (y + row) (x + col) = Some null).

(** Line clearing as the specification words it: the full rows go, as many
    empty rows come in at the top, the other rows keep their order. *)
Definition clearFullLinesSpec (b : Board) : Board :=
  let kept := filter (λ r, rowFull r = false) b in
  replicate (length b - length kept) (replicate (Z.to_nat COLS) null) ++ kept.

(** The active piece [p] moved down by [d] rows, and the game holding it. *)
Definition shifted (p : ActivePiece) (d : Z) : ActivePiece :=
  {| type := type p; x := x p; y := y p + d; rotation := rotation p |}.

Definition dropped (g : TetrisGame) (p : ActivePiece) (d : Z) : TetrisGame :=
  set_currentPiece (Some (shifted p d)) g.

(** The piece [p], [d] rows further down, passes the collision test. *)
Definition validAt (g : TetrisGame) (p : ActivePiece) (d : Z) : Prop :=
  isValidPosition (board g) (type p) (x p) (y p + d) (rotation p) = Some true.

(** The candidate of the kick [k = (dx, dy)] towards rotation [target]
    passes the collision test, and the game that commits it. *)
Definition kickValid (g : TetrisGame) (p : ActivePiece) (target : Z)
    (k : Z * Z) : Prop :=
  isValidPosition (board g) (type p) (x p + k.1) (y p - k.2) target = Some true.

Definition kicked (g : TetrisGame) (p : ActivePiece) (target : Z)
    (k : Z * Z) : TetrisGame :=
  set_currentPiece
    (Some {| type := type p; x := x p + k.1; y := y p - k.2;
             rotation := target |}) g.

(** The grid has the dimensions of the board and every cell satisfies [P]. *)
Definition grid (P : Cell → Prop) (b : Board) : Prop :=
  dims b ∧ Forall (Forall P) b.

(** What holds of every state of a session. *)
Record invariant (g : TetrisGame) : Prop := {
  inv_board : wellFormed (board g);
  inv_lines : 0 ≤ lines g ∧ Number.double (lines g);
  inv_level : level g = Number.add (Number.floorDiv10 (lines g)) 1;
  inv_speed : dropInterval g = speedOf (level g);
  inv_rotation : ∀ p, currentPiece g = Some p → 0 ≤ rotation p < 4;
  inv_bag : Bag.nextBag (bag g) ≡ₚ Bag.pieces;
  inv_next : is_Some (nextPiece g)
}.

(** Fuel that lets the loop of [hardDrop] come to its end. *)
Definition dropFuel (g : TetrisGame) : nat :=
  match currentPiece g with
  | Some p => Z.to_nat (ROWS - y p)
  | None => 0
  end.

(** *** Sample states *)

(** No leaderboard entry yet, a storage that can be written, a date. *)
Definition emptyEnv : Storage.Env :=
  {| Storage.entry := Storage.listed Storage.missing; Storage.writable := true;
     Storage.now := "2024-01-01T00:00:00.000Z" |}.

Definition emptyGame : TetrisGame :=
  newGame {| Bag.stream := λ n, n; Bag.cursor := 0 |} emptyEnv.

Definition withPiece (p : ActivePiece) (g : TetrisGame) : TetrisGame :=
  set_currentPiece (Some p) g.

Definition emptyRow : list Cell := replicate 10 null.
Definition markedRow (col : nat) : list Cell :=
  <[col := str "#FFEB3B"]> emptyRow.
Definition wellRow : list Cell := null :: replicate 9 (str "#FFEB3B").

(** Rows 0 to 14 empty, one block in row 15 and one in row 16, rows 17 to
    19 full but for column 0. *)
Definition wellBoard : Board :=
  replicate 15 emptyRow ++ [markedRow 4; markedRow 5] ++ [wellRow; wellRow; wellRow].

(** A vertical I piece standing in the well, on the floor. *)
Definition wellGame : TetrisGame :=
  set_currentPiece (Some {| type := I_; x := -2; y := 16; rotation := 1 |})
    (set_board wellBoard emptyGame).

(** [wellBoard] once the piece is locked: rows 17, 18 and 19 are full. *)
Definition lockedBoard : Board :=
  replicate 15 emptyRow
  ++ [markedRow 4; <[0%nat := str "#00E5FF"]> (markedRow 5)]
  ++ replicate 3 (str "#00E5FF" :: replicate 9 (str "#FFEB3B")).

(** Four full rows at the bottom of an otherwise empty board, at level 3
    with 20 lines cleared so far. *)
Definition tetrisGame : TetrisGame :=
  set_level 3 (speedOf 3)
    (set_lines 20
       (set_board (replicate 16 emptyRow
                   ++ replicate 4 (replicate 10 (str "#FFEB3B")))
          emptyGame)).



(** [n] soft drops in a row. *)
Fixpoint softDrops (n : nat) (g : TetrisGame) : option TetrisGame :=
  match n with
  | O => Some g
  | S n' =>
      match softDrop g with
      | None => None
      | Some g1 => softDrops n' g1
      end
  end.

End Game.

(** ** The ghost piece *)

Module View.
Import Game.

(** The search of [drawGhostPiece] for the row of the ghost:
    [while (this.isValidPosition(type, x, ghostY + 1, rotation)) ghostY++]. *)
Fixpoint ghostLoop (fuel : nat) (b : Board) (type : TetrominoType)
    (x rotation ghostY : Z) : Run Z :=
  match isValidPosition b type x (ghostY + 1) rotation with
  | None => Raises
  | Some false => Returns ghostY
  | Some true =>
      match fuel with
      | O => OutOfFuel
      | S fuel' => ghostLoop fuel' b type x rotation (ghostY + 1)
      end
  end.

(** The row [drawGhostPiece] draws the ghost at; no ghost is drawn without
    an active piece, nor when the piece already rests ([ghostY === y]). *)
Definition ghostY (fuel : nat) (g : TetrisGame) : Run (option Z) :=
  match currentPiece g with
  | None => Returns None
  | Some p =>
      match ghostLoop fuel (board g) (type p) (x p) (rotation p) (y p) with
      | Returns gy => Returns (if decide (gy = y p) then None else Some gy)
      | Raises => Raises
      | OutOfFuel => OutOfFuel
      end
  end.

End View.

(** ** Keyboard and game loop *)

Module Input.
Import Game.

#[global] Instance GameState_eq_dec : EqDecision GameState.
Proof. solve_decision. Defined.

(** [handleKeyDown] for the key [e.key]; [fuel] is for the loop of a hard
    drop. A [movePiece] result is dropped, as the handler drops it. *)
Definition handleKeyDown (fuel : nat) (key : string) (g : TetrisGame) : Run TetrisGame :=
  if decide (state g ≠ playing) then
    if decide (key = "Enter" ∧ (state g = start ∨ state g = gameover))
    then ofOption (startGame g)
    else Returns g
  else if decide (key = "ArrowLeft") then ofOption (snd <$> movePiece (-1) 0 g)
  else if decide (key = "ArrowRight") then ofOption (snd <$> movePiece 1 0 g)
  else if decide (key = "ArrowDown") then ofOption (softDrop g)
  else if decide (key = "ArrowUp") then ofOption (rotatePiece g)
  else if decide (key = " ") then hardDrop fuel g
  else if decide (key = "p" ∨ key = "P" ∨ key = "Escape") then Returns (togglePause g)
  else Returns g.

(** The drop of [gameLoop]; [due] tells whether the drop timer has run
    out ([timestamp - this.lastDrop > this.dropInterval]). *)
Definition gameLoop (due : bool) (g : TetrisGame) : option TetrisGame :=
  if decide (state g ≠ playing) then Some g
  else if due then autoDrop g
  else Some g.

(** What comes in from outside: a key press or an animation frame. (The
    touch handlers return at once unless the state is [playing], like the
    two handlers here; their gesture geometry is not modelled.) *)
Inductive Event := keydown (key : string) | frame (due : bool).

Definition handle (fuel : nat) (ev : Event) (g : TetrisGame) : Run TetrisGame :=
  match ev with
  | keydown key => handleKeyDown fuel key g
  | frame due => ofOption (gameLoop due g)
  end.

(** A run of events, one handler call after the other. *)
Fixpoint handleAll (fuel : nat) (evs : list Event) (g : TetrisGame) : Run TetrisGame :=
  match evs with
  | [] => Returns g
  | ev :: rest =>
      match handle fuel ev g with
      | Returns g1 => handleAll fuel rest g1
      | r => r
      end
  end.

End Input.

(** ** Further vocabulary *)

Module Session.
Import Game.

(** What every kick list has: the unkicked candidate first, at most five
    candidates, none further than two cells away. *)
Definition kicksOk (ks : Kicks) : Prop :=
  head ks = Some (0, 0) ∧ (length ks ≤ 5)%nat ∧
  Forall (λ k, -2 ≤ k.1 ≤ 2 ∧ -2 ≤ k.2 ≤ 2) ks.

(** The active piece, if there is one, passes the collision test where it
    stands. *)
Definition pieceValid (g : TetrisGame) : Prop :=
  ∀ p, currentPiece g = Some p →
    isValidPosition (board g) (type p) (x p) (y p) (rotation p) = Some true.

(** A session is in play: started and not over. *)
Definition inPlay (g : TetrisGame) : Prop :=
  state g = playing ∨ state g = paused.

(** What holds of every state of a session, besides [invariant]. *)
Record sessionOk (g : TetrisGame) : Prop := {
  ok_piece : pieceValid g;
  ok_state : is_Some (currentPiece g) ↔ inPlay g;
  ok_score : 0 ≤ score g ∧ Number.double (score g);
  ok_lines : 0 ≤ lines g
}.

(** The piece a spawn puts on the board. *)
Definition spawned (t : TetrominoType) : ActivePiece :=
  {| type := t; x := 3; y := 0; rotation := 0 |}.

(** Board cell [(r, c)] lies under a filled cell of [shape] placed at
    [(x, y)]. *)
Definition covers (shape : Shape) (x y r c : Z) : Prop :=
  ∃ row col : nat,
    filled shape row col ∧ y + Z.of_nat row = r ∧ x + Z.of_nat col = c.

(** The head queue holds no piece type twice, the lookahead queue holds
    each of the seven once. *)
Definition bagInv (b : Bag.TetrominoBag) : Prop :=
  NoDup (Bag.bag b) ∧ Bag.nextBag b ≡ₚ Bag.pieces.

(** The number of times [t] comes out in a run of draws. *)
Definition drawn (t : TetrominoType) (vs : list (option TetrominoType)) : nat :=
  length (filter (λ v, v = Some t) vs).

(** The number of filled cells of a shape. *)
Definition filledCount (shape : Shape) : nat :=
  length (filter (λ v, v ≠ 0) (concat shape)).

(** The entropy that starts with the raw values [cs]. *)
Definition entropyOf (cs : list nat) : Bag.Rng :=
  {| Bag.stream := λ n, default 0%nat (cs !! n); Bag.cursor := 0%nat |}.

(** *** More sample states *)

(** The sample game started, the same after a hard drop, and the started
    game paused. *)
Definition startedGame : TetrisGame :=
  default emptyGame (startGame emptyGame).

Definition secondGame : TetrisGame :=
  match hardDrop 20 startedGame with
  | Returns g => g
  | _ => startedGame
  end.

Definition pausedGame : TetrisGame := togglePause startedGame.

(** The sample game on a page whose leaderboard entry is a foreign value,
    the JSON text of a number say. *)
Definition foreignEnv : Storage.Env :=
  {| Storage.entry := Storage.foreign; Storage.writable := true;
     Storage.now := "2024-01-01T00:00:00.000Z" |}.

Definition foreignGame : TetrisGame :=
  newGame {| Bag.stream := λ n, n; Bag.cursor := 0 |} foreignEnv.

(** A leaderboard that is full of scores [s]: [isHighScore] declines [s]. *)
Definition fullEnv (s : Z) (e : Storage.Env) : Storage.Env :=
  {| Storage.entry :=
       Storage.listed
         (Storage.stored
            (replicate Storage.MAX_SCORES
               {| Storage.score := s; Storage.level := 1; Storage.lines := 0;
                  Storage.date := Storage.now e |}));
     Storage.writable := Storage.writable e; Storage.now := Storage.now e |}.

Definition rotatedGame : TetrisGame :=
  default startedGame (rotatePiece startedGame).

End Session.

Import Game.

(** * Properties *)

Local Coercion Z.of_nat : nat >-> Z.

(** ** Numbers *)

Section numbers.
Import Number.

Lemma roundEven_cases n d :
  0 < d → roundEven n d = n `div` d ∨ (roundEven n d = n `div` d + 1 ∧ 0 < n `mod` d).
Proof.
  intros Hd. unfold roundEven. pose proof (Z.mod_pos_bound n d Hd).
  repeat case_decide; try destruct (Z.even _); first [by left | right; split; [done|lia]].
Qed.

Lemma roundEven_exact m d : 0 < d → roundEven (m * d) d = m.
Proof.
  intros Hd. unfold roundEven. rewrite Z.div_mul, Z.mod_mul by lia.
  by rewrite decide_True by lia.
Qed.

Lemma roundEven_bounds n d :
  0 < d → n `div` d ≤ roundEven n d ≤ n `div` d + 1.
Proof. intros Hd. destruct (roundEven_cases n d Hd) as [->|[-> _]]; lia. Qed.

(** Rounding to multiples of [d] does not cross a multiple of [d]. *)
Lemma roundEven_ge n d c : 0 < d → c * d ≤ n → c ≤ roundEven n d.
Proof.
  intros Hd Hc. pose proof (roundEven_bounds n d Hd).
  assert (c ≤ n `div` d); [|lia]. apply Z.div_le_lower_bound; lia.
Qed.

Lemma roundEven_le n d c : 0 < d → n ≤ c * d → roundEven n d ≤ c.
Proof.
  intros Hd Hc. destruct (roundEven_cases n d Hd) as [->|[-> Hr]].
  - apply Z.div_le_upper_bound; lia.
  - assert (n `div` d < c); [|lia]. apply Z.div_lt_upper_bound; [done|].
    pose proof (Z.div_mod n d ltac:(lia)).
    destruct (decide (n = c * d)) as [->|]; [|lia].
    rewrite Z.mod_mul in Hr by lia. lia.
Qed.

Lemma nearest_small n : n < 2 ^ 53 → nearest n = n.
Proof.
  intros Hn. unfold nearest. rewrite decide_True; [done|].
  destruct (decide (0 < n)) as [Hpos|]; [|rewrite Z.log2_nonpos by lia; lia].
  assert (Z.log2 n < 53); [|lia]. apply Z.log2_lt_pow2; lia.
Qed.

(** The shape of a rounding above 2^53. *)
Lemma nearest_large n :
  2 ^ 53 ≤ n →
  let e := Z.log2 n - 52 in
  0 < e ∧ nearest n = roundEven n (2 ^ e) * 2 ^ e ∧
  2 ^ Z.log2 n = 2 ^ 52 * 2 ^ e ∧ 2 ^ Z.log2 n ≤ n < 2 * 2 ^ Z.log2 n.
Proof.
  intros Hn e. assert (0 < n) by lia.
  assert (53 ≤ Z.log2 n) by (apply Z.log2_le_pow2; lia).
  pose proof (Z.log2_spec n ltac:(lia)) as Hs.
  rewrite Z.pow_succ_r in Hs by lia.
  split; [unfold e; lia|]. split.
  - unfold nearest. fold e. by rewrite decide_False by (unfold e; lia).
  - split; [|lia]. rewrite <-Z.pow_add_r by (unfold e; lia). f_equal. unfold e. lia.
Qed.

Lemma nearest_bounds n :
  2 ^ 53 ≤ n → 2 ^ Z.log2 n ≤ nearest n ≤ 2 * 2 ^ Z.log2 n.
Proof.
  intros Hn. destruct (nearest_large n Hn) as (He & -> & Hp & Hl).
  set (e := Z.log2 n - 52) in *. assert (0 < 2 ^ e) by (apply Z.pow_pos_nonneg; lia).
  rewrite Hp in *. split.
  - apply Z.mul_le_mono_nonneg_r; [lia|]. apply roundEven_ge; lia.
  - replace (2 * (2 ^ 52 * 2 ^ e)) with ((2 * 2 ^ 52) * 2 ^ e) by lia.
    apply Z.mul_le_mono_nonneg_r; [lia|]. apply roundEven_le; lia.
Qed.

Lemma nearest_nonneg n : 0 ≤ n → 0 ≤ nearest n.
Proof.
  intros Hn. destruct (decide (n < 2 ^ 53)); [by rewrite nearest_small|].
  pose proof (nearest_bounds n ltac:(lia)).
  assert (0 < 2 ^ Z.log2 n) by (apply Z.pow_pos_nonneg; [lia|apply Z.log2_nonneg]). lia.
Qed.

Lemma roundEven_mono a b d : 0 < d → a ≤ b → roundEven a d ≤ roundEven b d.
Proof.
  intros Hd Hab.
  pose proof (Z.div_le_mono a b d Hd Hab) as Hq.
  destruct (decide (a `div` d = b `div` d)) as [Heq|Hne].
  - pose proof (Z.div_mod a d ltac:(lia)). pose proof (Z.div_mod b d ltac:(lia)).
    unfold roundEven. rewrite Heq in *.
    repeat case_decide; try destruct (Z.even _); lia.
  - pose proof (roundEven_bounds a d Hd). pose proof (roundEven_bounds b d Hd). lia.
Qed.

Lemma nearest_idem n : 0 ≤ n → nearest (nearest n) = nearest n.
Proof.
  intros Hn. destruct (decide (n < 2 ^ 53)); [by rewrite !(nearest_small n)|].
  pose proof (nearest_bounds n ltac:(lia)) as Hb.
  destruct (nearest_large n ltac:(lia)) as (He & Hv & Hp & Hl).
  set (e := Z.log2 n - 52) in *. set (m := roundEven n (2 ^ e)) in *.
  assert (0 < 2 ^ e) by (apply Z.pow_pos_nonneg; lia).
  assert (0 < 2 ^ Z.log2 n) by (apply Z.pow_pos_nonneg; [lia|apply Z.log2_nonneg]).
  assert (53 ≤ Z.log2 n) by (apply Z.log2_le_pow2; lia).
  assert (2 ^ 53 ≤ 2 ^ Z.log2 n) by (apply Z.pow_le_mono_r; lia).
  destruct (decide (nearest n < 2 * 2 ^ Z.log2 n)) as [Hlt|Hge].
  - assert (Z.log2 (nearest n) = Z.log2 n) as Hlog.
    { apply Z.log2_unique; [lia|]. rewrite Z.pow_succ_r by lia. lia. }
    destruct (nearest_large (nearest n) ltac:(lia)) as (_ & -> & _).
    rewrite Hlog. fold e. rewrite Hv at 1. by rewrite roundEven_exact.
  - assert (nearest n = 2 ^ (Z.log2 n + 1)) as Hpow.
    { rewrite Z.pow_add_r by lia. lia. }
    assert (Z.log2 (nearest n) = Z.log2 n + 1) as Hlog.
    { rewrite Hpow. apply Z.log2_pow2. lia. }
    destruct (nearest_large (nearest n) ltac:(lia)) as (_ & Hv' & _).
    rewrite Hv', Hlog. rewrite Hpow at 1.
    replace (Z.log2 n + 1) with (52 + (Z.log2 n + 1 - 52)) at 1 by lia.
    rewrite Z.pow_add_r by lia. rewrite roundEven_exact.
    + rewrite <-Z.pow_add_r by lia. rewrite Hpow. f_equal. lia.
    + apply Z.pow_pos_nonneg; lia.
Qed.

Lemma nearest_mono a b : 0 ≤ a → a ≤ b → nearest a ≤ nearest b.
Proof.
  intros Ha Hab. destruct (decide (b < 2 ^ 53)); [rewrite !nearest_small; lia|].
  pose proof (nearest_bounds b ltac:(lia)) as Hbb.
  assert (53 ≤ Z.log2 b) by (apply Z.log2_le_pow2; lia).
  assert (2 ^ 53 ≤ 2 ^ Z.log2 b) by (apply Z.pow_le_mono_r; lia).
  destruct (decide (a < 2 ^ 53)); [rewrite (nearest_small a); lia|].
  pose proof (nearest_bounds a ltac:(lia)) as Hba.
  pose proof (Z.log2_le_mono a b Hab) as Hlog.
  destruct (decide (Z.log2 a = Z.log2 b)) as [Heq|Hne].
  - destruct (nearest_large a ltac:(lia)) as (He & -> & _).
    destruct (nearest_large b ltac:(lia)) as (_ & -> & _).
    rewrite Heq. apply Z.mul_le_mono_nonneg_r.
    + apply Z.pow_nonneg. lia.
    + apply roundEven_mono; [|done]. apply Z.pow_pos_nonneg; lia.
  - assert (2 * 2 ^ Z.log2 a ≤ 2 ^ Z.log2 b); [|lia].
    rewrite <-Z.pow_succ_r by apply Z.log2_nonneg. apply Z.pow_le_mono_r; lia.
Qed.

(** Doubles of either sign. *)

Lemma fl_nonneg z : 0 ≤ z → fl z = nearest z.
Proof.
  intros Hz. unfold fl. rewrite Z.abs_eq by done.
  destruct (decide (z = 0)) as [->|]; [done|]. rewrite Z.sgn_pos by lia. lia.
Qed.

Lemma fl_opp z : fl (- z) = - fl z.
Proof. unfold fl. rewrite Z.sgn_opp, Z.abs_opp. lia. Qed.

Lemma fl_exact z : - 2 ^ 53 ≤ z ≤ 2 ^ 53 → fl z = z.
Proof.
  assert (∀ n, 0 ≤ n ≤ 2 ^ 53 → fl n = n) as Hpos.
  { intros n Hn. rewrite fl_nonneg by lia.
    destruct (decide (n = 2 ^ 53)) as [->|]; [by vm_compute|].
    apply nearest_small. lia. }
  intros Hz. destruct (decide (0 ≤ z)); [apply Hpos; lia|].
  rewrite <-(Z.opp_involutive z) at 1. rewrite fl_opp, Hpos; lia.
Qed.

Lemma fl_mono a b : a ≤ b → fl a ≤ fl b.
Proof.
  intros Hab. destruct (decide (0 ≤ a)).
  - rewrite !fl_nonneg by lia. by apply nearest_mono.
  - destruct (decide (0 ≤ b)).
    + rewrite (fl_nonneg b) by done. pose proof (nearest_nonneg b ltac:(done)).
      pose proof (nearest_nonneg (- a) ltac:(lia)).
      rewrite <-(Z.opp_involutive a), (fl_opp (- a)), fl_nonneg by lia. lia.
    + pose proof (nearest_mono (- b) (- a) ltac:(lia) ltac:(lia)).
      rewrite <-(Z.opp_involutive a), <-(Z.opp_involutive b).
      rewrite (fl_opp (- a)), (fl_opp (- b)), !fl_nonneg by lia. lia.
Qed.

Lemma fl_idem z : fl (fl z) = fl z.
Proof.
  destruct (decide (0 ≤ z)).
  - rewrite (fl_nonneg z) by done. pose proof (nearest_nonneg z ltac:(done)).
    rewrite fl_nonneg by done. by apply nearest_idem.
  - pose proof (nearest_nonneg (- z) ltac:(lia)).
    rewrite <-(Z.opp_involutive z), (fl_opp (- z)), (fl_nonneg (- z)) by lia.
    rewrite fl_opp, fl_nonneg by done. by rewrite nearest_idem by lia.
Qed.

(** A double below (above) a number is below (above) its rounding. *)
Lemma fl_ge c z : double c → c ≤ z → c ≤ fl z.
Proof. intros Hc Hz. rewrite <-Hc. by apply fl_mono. Qed.

Lemma fl_le c z : double c → z ≤ c → fl z ≤ c.
Proof. intros Hc Hz. rewrite <-Hc. by apply fl_mono. Qed.

Lemma double_fl z : double (fl z).
Proof. apply fl_idem. Qed.

Lemma double_small z : - 2 ^ 53 ≤ z ≤ 2 ^ 53 → double z.
Proof. apply fl_exact. Qed.

Example fl_2_53_1 : fl (2 ^ 53 + 1) = 2 ^ 53.
Proof. by vm_compute. Qed.
Example fl_2_53_2 : fl (2 ^ 53 + 2) = 2 ^ 53 + 2.
Proof. by vm_compute. Qed.
Example fl_2_53_3 : fl (2 ^ 53 + 3) = 2 ^ 53 + 4.
Proof. by vm_compute. Qed.
Example fl_neg : fl (- (2 ^ 54 + 2)) = - 2 ^ 54.
Proof. by vm_compute. Qed.

(** The floor of a tenth. *)

Lemma floorDiv10_small a : a < 10 → floorDiv10 a = 0.
Proof.
  intros Ha. unfold floorDiv10. rewrite decide_True; [done|].
  assert (a `div` 10 < 1); [|lia]. apply Z.div_lt_upper_bound; lia.
Qed.

(** The quotient, scaled to 53 bits and rounded, lies in its binade. *)
Lemma floorDiv10_bounds a :
  10 ≤ a →
  let l := Z.log2 (a `div` 10) in
  2 ^ l ≤ floorDiv10 a ≤ 2 * 2 ^ l.
Proof.
  intros Ha l. assert (1 ≤ a `div` 10) as Hq by (apply Z.div_le_lower_bound; lia).
  pose proof (Z.log2_spec (a `div` 10) ltac:(lia)) as Hs. fold l in Hs.
  assert (0 ≤ l) by apply Z.log2_nonneg.
  rewrite Z.pow_succ_r in Hs by done.
  pose proof (Z.div_mod a 10 ltac:(lia)). pose proof (Z.mod_pos_bound a 10 ltac:(lia)).
  assert (0 < 2 ^ l) by (apply Z.pow_pos_nonneg; lia).
  unfold floorDiv10. rewrite decide_False by lia. fold l. cbn zeta.
  case_decide as Hp.
  - assert (0 < 2 ^ (52 - l)) as Hpos by (apply Z.pow_pos_nonneg; lia).
    assert (2 ^ 52 = 2 ^ l * 2 ^ (52 - l)) as H52.
    { rewrite <-Z.pow_add_r by lia. f_equal. lia. }
    split.
    + apply Z.div_le_lower_bound; [done|]. rewrite Z.mul_comm, <-H52.
      apply roundEven_ge; [lia|]. rewrite H52. nia.
    + apply Z.div_le_upper_bound; [done|].
      replace (2 ^ (52 - l) * (2 * 2 ^ l)) with (2 * 2 ^ 52) by (rewrite H52; lia).
      apply roundEven_le; [lia|]. rewrite H52. nia.
  - assert (0 < 2 ^ (- (52 - l))) as Hpos by (apply Z.pow_pos_nonneg; lia).
    assert (2 ^ l = 2 ^ 52 * 2 ^ (- (52 - l))) as Hl.
    { rewrite <-Z.pow_add_r by lia. f_equal. lia. }
    split.
    + rewrite Hl. apply Z.mul_le_mono_nonneg_r; [lia|].
      apply roundEven_ge; [lia|]. nia.
    + replace (2 * 2 ^ l) with ((2 * 2 ^ 52) * 2 ^ (- (52 - l))) by (rewrite Hl; lia).
      apply Z.mul_le_mono_nonneg_r; [lia|]. apply roundEven_le; [lia|]. nia.
Qed.

Lemma floorDiv10_nonneg a : 0 ≤ floorDiv10 a.
Proof.
  destruct (decide (a < 10)); [by rewrite floorDiv10_small|].
  pose proof (floorDiv10_bounds a ltac:(lia)) as Hb. cbn zeta in Hb.
  assert (0 ≤ 2 ^ Z.log2 (a `div` 10)) by (apply Z.pow_nonneg; lia). lia.
Qed.

Lemma floorDiv10_mono a b : a ≤ b → floorDiv10 a ≤ floorDiv10 b.
Proof.
  intros Hab. destruct (decide (a < 10)).
  { rewrite (floorDiv10_small a) by done. apply floorDiv10_nonneg. }
  pose proof (floorDiv10_bounds a ltac:(lia)) as Ha.
  pose proof (floorDiv10_bounds b ltac:(lia)) as Hb. cbn zeta in Ha, Hb.
  assert (1 ≤ a `div` 10) as Hqa by (apply Z.div_le_lower_bound; lia).
  pose proof (Z.div_le_mono a b 10 ltac:(lia) Hab) as Hq.
  pose proof (Z.log2_le_mono _ _ Hq) as Hlog.
  pose proof (Z.log2_nonneg (a `div` 10)).
  destruct (decide (Z.log2 (a `div` 10) = Z.log2 (b `div` 10))) as [Heq|Hne].
  - unfold floorDiv10. cbn zeta.
    rewrite (decide_False (P := a `div` 10 < 1)) by lia.
    rewrite (decide_False (P := b `div` 10 < 1)) by lia. rewrite Heq.
    set (l := Z.log2 (b `div` 10)) in *. case_decide.
    + assert (0 < 2 ^ (52 - l)) by (apply Z.pow_pos_nonneg; lia).
      apply Z.div_le_mono; [done|]. apply roundEven_mono; [lia|]. nia.
    + assert (0 < 2 ^ (- (52 - l))) by (apply Z.pow_pos_nonneg; lia).
      apply Z.mul_le_mono_nonneg_r; [lia|]. apply roundEven_mono; [lia|done].
  - assert (2 * 2 ^ Z.log2 (a `div` 10) ≤ 2 ^ Z.log2 (b `div` 10)); [|lia].
    rewrite <-Z.pow_succ_r by done. apply Z.pow_le_mono_r; lia.
Qed.




Example floorDiv10_rounds_up :
  double (10 * 2 ^ 51 + 8) ∧
  floorDiv10 (10 * 2 ^ 51 + 8) = 2 ^ 51 + 1 ∧ (10 * 2 ^ 51 + 8) `div` 10 = 2 ^ 51.
Proof. by vm_compute. Qed.

End numbers.

(** ** Catalogue *)

Example kickKey_3_0 : kickKey 3 0 = "3>0".
Proof. vm_compute. reflexivity. Qed.

Example getWallKicks_T_0_1 :
  getWallKicks T_ 0 1 = [(0, 0); (-1, 0); (-1, 1); (0, -2); (-1, -2)].
Proof. vm_compute. reflexivity. Qed.

Example getWallKicks_I_3_0 :
  getWallKicks I_ 3 0 = [(0, 0); (1, 0); (-2, 0); (1, -2); (-2, 1)].
Proof. vm_compute. reflexivity. Qed.

Lemma index_Some {A} (l : list A) (i : Z) :
  0 ≤ i < length l → ∃ a, index l i = Some a ∧ l !! Z.to_nat i = Some a.
Proof.
  intros Hi. unfold index. rewrite decide_True by lia.
  destruct (lookup_lt_is_Some_2 l (Z.to_nat i)) as [a Ha]; [lia|]. eauto.
Qed.

(** The table has four shapes for every piece type. *)
Lemma getRotatedShape_table type rotation :
  0 ≤ rotation →
  ∃ shape, getRotatedShape type rotation = Some shape ∧
    shapes (TETROMINOES type) !! Z.to_nat (rotation `mod` 4) = Some shape.
Proof.
  intros Hr. unfold getRotatedShape.
  rewrite Z.rem_mod_nonneg by lia.
  assert (0 ≤ rotation `mod` 4 < 4) as Hm by (apply Z.mod_pos_bound; lia).
  destruct (index_Some (shapes (TETROMINOES type)) (rotation `mod` 4)) as (s & Hs & Hs').
  { by destruct type; simpl; lia. }
  eauto.
Qed.

(** C9, as the code has it, for integer rotations. Every piece type has
    four shapes. For a rotation that is not negative, or that is a
    multiple of 4, [getRotatedShape] returns the shape of the table at
    index [rotation mod 4]; for a negative rotation that is no multiple of
    4 the index [rotation % 4] is negative and the lookup gives
    [undefined]. *)
Theorem getRotatedShape_lookup type rotation :
  length (shapes (TETROMINOES type)) = 4%nat ∧
  (0 ≤ rotation ∨ rotation `mod` 4 = 0 →
     ∃ shape, getRotatedShape type rotation = Some shape ∧
       shapes (TETROMINOES type) !! Z.to_nat (rotation `mod` 4) = Some shape) ∧
  (rotation < 0 → rotation `mod` 4 ≠ 0 → getRotatedShape type rotation = None).
Proof.
  split; [by destruct type|]. split.
  - intros [Hr|Hm]; [by apply getRotatedShape_table|].
    unfold getRotatedShape. rewrite Hm.
    assert (rotation `rem` 4 = 0) as -> by (by apply Z.rem_mod_eq_0).
    destruct (index_Some (shapes (TETROMINOES type)) 0) as (s & Hs & Hs'); [|by eauto].
    by destruct type; simpl; lia.
  - intros Hr Hm. unfold getRotatedShape, index.
    assert (rotation `rem` 4 ≠ 0) as Hn by (by rewrite Z.rem_mod_eq_0).
    pose proof (Z.rem_nonpos rotation 4 ltac:(lia) ltac:(lia)).
    by rewrite decide_False by lia.
Qed.

Lemma getRotatedShape_lookup_witness :
  (∃ shape, getRotatedShape T_ 5 = Some shape ∧
     shapes (TETROMINOES T_) !! Z.to_nat (5 `mod` 4) = Some shape) ∧
  (∃ shape, getRotatedShape T_ (-8) = Some shape ∧
     shapes (TETROMINOES T_) !! Z.to_nat (-8 `mod` 4) = Some shape) ∧
  getRotatedShape T_ (-7) = None.
Proof.
  split; [|split].
  - apply (proj1 (proj2 (getRotatedShape_lookup T_ 5))). left. lia.
  - apply (proj1 (proj2 (getRotatedShape_lookup T_ (-8)))). right. reflexivity.
  - apply (proj2 (proj2 (getRotatedShape_lookup T_ (-7)))); [lia|by vm_compute].
Defined.

(** C9 as the specification words it fails below zero: [-1 % 4] is [-1] in
    JavaScript, and the table has no entry there, so the lookup gives
    [undefined]. *)
Lemma getRotatedShape_negative :
  ¬ ∃ shape, getRotatedShape T_ (-1) = Some shape.
Proof. intros [shape H]. vm_compute in H. discriminate. Qed.

(** ** Collision test *)

Lemma truthy_cell_ok c : cell_ok c → truthy c = false ↔ c = null.
Proof.
  intros [->|[t ->]]; [done|]. split; [|done].
  by destruct t.
Qed.

Lemma wellFormed_cellAt b row col :
  wellFormed b → 0 ≤ row < ROWS → 0 ≤ col < COLS →
  ∃ r c, index b row = Some r ∧ index r col = Some c ∧
         cellAt b row col = Some c ∧ cell_ok c.
Proof.
  intros [[Hlen Hw] Hc] Hrow Hcol.
  destruct (index_Some b row) as (r & Hr & Hr'); [lia|].
  rewrite Forall_lookup in Hw. rewrite Forall_lookup in Hc.
  specialize (Hw _ _ Hr'). specialize (Hc _ _ Hr').
  destruct (index_Some r col) as (c & Hcl & Hcl'); [lia|].
  rewrite Forall_lookup in Hc. specialize (Hc _ _ Hcl').
  exists r, c. unfold cellAt. rewrite Hr. simpl. by rewrite Hcl.
Qed.

Lemma checkCell_spec b x y row col v :
  wellFormed b →
  ∃ r, checkCell b x y row col v = Some r ∧ (r = true ↔ cellFits b x y row col v).
Proof.
  intros Hb. unfold checkCell, cellFits.
  destruct (decide (v = 0)) as [->|Hv]; [by exists true|].
  case_decide as Hout.
  { exists false. split; [done|]. split; [done|]. intros H. specialize (H Hv). lia. }
  case_decide as Hy.
  - destruct (wellFormed_cellAt b (y + row) (x + col) Hb) as (r & c & Hr & Hc & Hat & Hok);
      [lia..|].
    rewrite Hr, Hc. simpl. exists (negb (truthy c)). split; [done|].
    rewrite negb_true_iff, (truthy_cell_ok c Hok), Hat.
    split.
    + intros ->. intros _. repeat split; lia || done.
    + intros H. destruct (H Hv) as (_ & _ & Hn). specialize (Hn ltac:(lia)). congruence.
  - exists true. split; [done|]. split; [|done]. intros _ _. lia.
Qed.

Lemma checkCols_spec b x y row cells :
  wellFormed b → ∀ col,
  ∃ r, checkCols b x y row col cells = Some r ∧
       (r = true ↔ ∀ (i : nat) v, cells !! i = Some v → cellFits b x y row (col + i) v).
Proof.
  intros Hb. induction cells as [|v cells IH]; intros col; simpl.
  { exists true. split; [done|]. split; [|done]. intros _ i v Hi. by rewrite lookup_nil in Hi. }
  destruct (checkCell_spec b x y row col v Hb) as (r & -> & Hr).
  destruct r.
  - destruct (IH (col + 1)) as (r' & -> & Hr'). exists r'. split; [done|].
    rewrite Hr'. split.
    + intros H [|i] w Hi; simpl in Hi.
      * inversion Hi; subst. rewrite Z.add_0_r. by apply Hr.
      * replace (col + S i) with (col + 1 + i) by lia. by apply H.
    + intros H i w Hi. replace (col + 1 + i) with (col + S i) by lia. by apply H.
  - exists false. split; [done|]. split; [done|]. intros H.
    specialize (H 0%nat v eq_refl). rewrite Z.add_0_r in H. by apply Hr in H.
Qed.

Lemma checkRows_spec b x y shape :
  wellFormed b → ∀ row,
  ∃ r, checkRows b x y row shape = Some r ∧
       (r = true ↔ ∀ (i j : nat) cells v, shape !! i = Some cells → cells !! j = Some v →
                     cellFits b x y (row + i) j v).
Proof.
  intros Hb. induction shape as [|cells shape IH]; intros row; simpl.
  { exists true. split; [done|]. split; [|done]. intros _ i j cells v Hi. by destruct i. }
  destruct (checkCols_spec b x y row cells Hb 0) as (r & -> & Hr).
  destruct r.
  - destruct (IH (row + 1)) as (r' & -> & Hr'). exists r'. split; [done|].
    rewrite Hr'. split.
    + intros H [|i] j cs w Hi Hj; simpl in Hi.
      * inversion Hi; subst. rewrite Z.add_0_r. 
        assert (Hall := proj1 Hr eq_refl j w Hj). by rewrite Z.add_0_l in Hall.
      * replace (row + S i) with (row + 1 + i) by lia. by eapply H.
    + intros H i j cs w Hi Hj. replace (row + 1 + i) with (row + S i) by lia. by eapply (H (S i)).
  - exists false. split; [done|]. split; [done|]. intros H.
    assert (false = true); [|done]. apply Hr. intros j w Hj.
    specialize (H 0%nat j cells w eq_refl Hj). by rewrite Z.add_0_r in H.
Qed.

(** The verdict of the collision test, cell by cell. *)
Lemma isValidPosition_fits b type x y rotation :
  wellFormed b → 0 ≤ rotation →
  ∃ shape r,
    getRotatedShape type rotation = Some shape ∧
    isValidPosition b type x y rotation = Some r ∧
    (r = true ↔ fits b x y shape).
Proof.
  intros Hb Hr.
  destruct (getRotatedShape_table type rotation Hr) as (shape & Hs & _).
  destruct (checkRows_spec b x y shape Hb 0) as (r & Hc & Hiff).
  exists shape, r. unfold isValidPosition. rewrite Hs. split; [done|]. split; [done|].
  rewrite Hiff. unfold fits, filled, cellFits. split.
  - intros H row col (cells & v & Hrow & Hcol & Hv).
    specialize (H row col cells v Hrow Hcol Hv). by rewrite Z.add_0_l in H.
  - intros H i j cells v Hi Hj Hv. rewrite Z.add_0_l. apply H. eauto.
Qed.

(** C2: on a well-formed board and for a rotation state, [isValidPosition]
    returns, and it returns [true] exactly when every filled cell
    [(row, col)] of the shape has [x + col] in [[0, COLS)], [y + row] below
    [ROWS] and, when [y + row >= 0], an empty board cell under it; a cell
    with [y + row < 0] is accepted whatever the board holds. *)
Theorem isValidPosition_spec b type x y rotation :
  wellFormed b → 0 ≤ rotation →
  ∃ shape r,
    getRotatedShape type rotation = Some shape ∧
    isValidPosition b type x y rotation = Some r ∧
    (r = true ↔ fits b x y shape).
Proof.
  intros Hb Hr.
  destruct (getRotatedShape_table type rotation Hr) as (shape & Hs & _).
  destruct (checkRows_spec b x y shape Hb 0) as (r & Hc & Hiff).
  exists shape, r. unfold isValidPosition. rewrite Hs. split; [done|]. split; [done|].
  rewrite Hiff. unfold fits, filled, cellFits. split.
  - intros H row col (cells & v & Hrow & Hcol & Hv).
    specialize (H row col cells v Hrow Hcol Hv). by rewrite Z.add_0_l in H.
  - intros H i j cells v Hi Hj Hv. rewrite Z.add_0_l. apply H. eauto.
Qed.

Lemma dims_createEmptyBoard : dims createEmptyBoard.
Proof.
  unfold createEmptyBoard. split; [by rewrite length_replicate|].
  apply Forall_replicate. by rewrite length_replicate.
Qed.

Lemma wellFormed_createEmptyBoard : wellFormed createEmptyBoard.
Proof.
  split; [apply dims_createEmptyBoard|].
  apply Forall_replicate, Forall_replicate. by left.
Qed.

Lemma isValidPosition_spec_witness :
  ∃ shape r,
    getRotatedShape T_ 0 = Some shape ∧
    isValidPosition createEmptyBoard T_ 3 0 0 = Some r ∧
    (r = true ↔ fits createEmptyBoard 3 0 shape).
Proof.
  apply (isValidPosition_spec createEmptyBoard T_ 3 0 0).
  - apply wellFormed_createEmptyBoard.
  - lia.
Defined.

(** ** The bag *)

Section shuffle.
Import Bag.
Local Open Scope nat_scope.
Context {A : Type}.
Implicit Types a : list A.

Lemma swap_Permutation i j a : swap i j a ≡ₚ a.
Proof.
  unfold swap. destruct (a !! j) as [aj|] eqn:Hj; [|done].
  destruct (a !! i) as [ai|] eqn:Hi; [|done].
  by apply Permutation_insert_swap.
Qed.

Lemma shuffleLoop_Permutation i a r : (shuffleLoop i a r).1 ≡ₚ a.
Proof.
  revert a r. induction i as [|i IH]; intros a r; simpl; [done|].
  rewrite IH. apply swap_Permutation.
Qed.

Lemma shuffleArray_Permutation a r : (shuffleArray a r).1 ≡ₚ a.
Proof. apply shuffleLoop_Permutation. Qed.
End shuffle.

Section bag.
Import Bag.
Local Open Scope nat_scope.

Lemma removelast_snoc {A} (l : list A) x : removelast (l ++ [x]) = l.
Proof. rewrite removelast_app by done. simpl. apply app_nil_r. Qed.

Lemma next_nonempty b r :
  bag b ≠ [] →
  next b r = (last (bag b), {| bag := removelast (bag b); nextBag := nextBag b |}, r).
Proof.
  intros Hne. unfold next. rewrite decide_False; [done|].
  by destruct (bag b).
Qed.

Lemma next_empty b r :
  bag b = [] →
  next b r = (last (nextBag b),
              {| bag := removelast (nextBag b);
                 nextBag := (shuffleArray pieces r).1 |},
              (shuffleArray pieces r).2).
Proof.
  intros He. unfold next, fillNextBag. rewrite He. simpl.
  by destruct (shuffleArray pieces r).
Qed.

Lemma draws_queue l nb r :
  draws (length l) {| bag := l; nextBag := nb |} r
  = (Some <$> reverse l, {| bag := []; nextBag := nb |}, r).
Proof.
  induction l as [|x l IH] using rev_ind; [done|].
  rewrite length_app, Nat.add_1_r. cbn [draws].
  rewrite next_nonempty by (simpl; by destruct l).
  simpl. rewrite removelast_snoc, last_snoc, IH.
  by rewrite reverse_snoc.
Qed.

Lemma draws_boundary nb r :
  nb ≠ [] →
  draws (length nb) {| bag := []; nextBag := nb |} r
  = (Some <$> reverse nb,
     {| bag := []; nextBag := (shuffleArray pieces r).1 |},
     (shuffleArray pieces r).2).
Proof.
  intros Hne. destruct nb as [|x l _] using rev_ind; [done|].
  rewrite length_app, Nat.add_1_r. cbn [draws].
  rewrite next_empty by done. simpl.
  rewrite removelast_snoc, last_snoc, draws_queue.
  by rewrite reverse_snoc.
Qed.

Lemma reset_bag b r : bag (reset b r).1 ≡ₚ pieces ∧ nextBag (reset b r).1 ≡ₚ pieces.
Proof.
  unfold reset, fillBag, fillNextBag.
  pose proof (shuffleArray_Permutation pieces r) as H1.
  destruct (shuffleArray pieces r) as [s r1]. 
  pose proof (shuffleArray_Permutation pieces r1) as H2.
  by destruct (shuffleArray pieces r1) as [s2 r2].
Qed.

Lemma reachable_nextBag b : reachable b → nextBag b ≡ₚ pieces.
Proof.
  induction 1 as [r|b r _ IH|b r _ _].
  - apply (reset_bag {| bag := []; nextBag := [] |} r).
  - destruct (decide (bag b = [])) as [He|Hne].
    + rewrite next_empty by done. cbn [nextBag fst snd]. apply shuffleArray_Permutation.
    + by rewrite next_nonempty.
  - apply reset_bag.
Qed.

Lemma next_Some b r :
  nextBag b ≡ₚ pieces →
  is_Some (next b r).1.1 ∧ nextBag (next b r).1.2 ≡ₚ pieces.
Proof.
  intros Hnb. destruct (decide (bag b = [])) as [He|Hne].
  - rewrite next_empty by done. cbn [fst snd nextBag]. split.
    + apply last_is_Some. intros Hn. rewrite Hn in Hnb.
      by apply Permutation_nil_l in Hnb.
    + apply shuffleArray_Permutation.
  - rewrite next_nonempty by done. cbn [fst snd nextBag].
    split; [by apply last_is_Some|done].
Qed.

Lemma reachable_draws n b r : reachable b → reachable (draws n b r).1.2.
Proof.
  revert b r. induction n as [|n IH]; intros b r Hb; [done|].
  cbn [draws]. pose proof (reach_next b r Hb) as Hn.
  destruct (next b r) as [[v b1] r1]. cbn [fst snd] in Hn.
  specialize (IH b1 r1 Hn). by destruct (draws n b1 r1) as [[vs b2] r2].
Qed.

Lemma Permutation_pieces_length l : l ≡ₚ pieces → length l = 7.
Proof. intros H. by rewrite H. Qed.

(** C4: seven consecutive [next()] calls made right after a [reset()], or
    from a reachable bag whose head queue has just run empty, return the
    seven piece types, each once. A [next()] on a non-empty head queue only
    pops it; a [next()] on an empty one promotes the lookahead queue, puts
    a fresh shuffle of the seven types in its place, and pops. *)
Theorem bag_fairness :
  (∀ b r, ∃ l, (draws 7 (reset b r).1 (reset b r).2).1.1 = Some <$> l ∧ l ≡ₚ pieces) ∧
  (∀ b r, reachable b → bag b = [] →
     ∃ l, (draws 7 b r).1.1 = Some <$> l ∧ l ≡ₚ pieces) ∧
  (∀ b r, bag b ≠ [] →
     next b r = (last (bag b),
                 {| bag := removelast (bag b); nextBag := nextBag b |}, r)) ∧
  (∀ b r, bag b = [] →
     ∃ fresh r', shuffleArray pieces r = (fresh, r') ∧ fresh ≡ₚ pieces ∧
       next b r = (last (nextBag b),
                   {| bag := removelast (nextBag b); nextBag := fresh |}, r')).
Proof.
  split; [|split; [|split]].
  - intros b r. destruct (reset_bag b r) as [Hb _].
    destruct (reset b r) as [[l nb] r0]. cbn [fst snd bag nextBag] in *.
    exists (reverse l). rewrite <-(Permutation_pieces_length l Hb), draws_queue.
    split; [done|]. by rewrite reverse_Permutation.
  - intros [l nb] r Hr He. cbn [bag] in He. subst l.
    apply reachable_nextBag in Hr. cbn [nextBag] in Hr.
    exists (reverse nb). rewrite <-(Permutation_pieces_length nb Hr), draws_boundary.
    + split; [done|]. by rewrite reverse_Permutation.
    + intros ->. by apply Permutation_nil_l in Hr.
  - apply next_nonempty.
  - intros b r He. exists (shuffleArray pieces r).1, (shuffleArray pieces r).2.
    split; [by destruct (shuffleArray pieces r)|].
    split; [apply shuffleArray_Permutation|]. by apply next_empty.
Qed.

(** C8: in every bag state, [peek()] returns what a [next()] called in its
    place returns, and leaves both queues (and the entropy) as they were;
    this includes the state whose head queue is empty, where the value is
    read off the lookahead queue. *)
Theorem peek_next b r :
  (peek b r).1.1 = (next b r).1.1 ∧ (peek b r).1.2 = b ∧ (peek b r).2 = r.
Proof.
  unfold peek. destruct (decide (length (bag b) = 0)) as [He|Hne].
  - apply length_zero_iff_nil in He. rewrite next_empty by done. simpl.
    by rewrite last_lookup, Nat.sub_1_r.
  - rewrite next_nonempty by (by destruct (bag b)). simpl.
    by rewrite last_lookup, Nat.sub_1_r.
Qed.

Lemma bag_fairness_witness :
  let r := {| stream := λ n, (n * 7 + 3)%nat; cursor := 0 |} in
  let b := (draws 7 (new r).1 (new r).2).1.2 in
  bag b = [] ∧
  ∃ l, (draws 7 b r).1.1 = Some <$> l ∧ l ≡ₚ pieces.
Proof.
  intros r b. split; [vm_compute; reflexivity|].
  apply (proj1 (proj2 bag_fairness) b r).
  - apply reachable_draws, reach_new.
  - vm_compute. reflexivity.
Defined.

End bag.

(** ** Moving and rotating *)

Lemma isValidPosition_returns b type x y rotation :
  wellFormed b → 0 ≤ rotation →
  ∃ r, isValidPosition b type x y rotation = Some r.
Proof.
  intros Hb Hr.
  destruct (isValidPosition_fits b type x y rotation Hb Hr) as (_ & r & _ & H & _).
  eauto.
Qed.

(** What [movePiece] returns with an active piece. *)
Lemma movePiece_verdict g p dx dy :
  currentPiece g = Some p → wellFormed (board g) → 0 ≤ rotation p →
  ∃ ok g',
    isValidPosition (board g) (type p) (x p + dx) (y p + dy) (rotation p) = Some ok ∧
    movePiece dx dy g = Some (ok, g') ∧
    board g' = board g ∧
    (if ok
     then g' = set_currentPiece
                 (Some {| type := type p; x := x p + dx; y := y p + dy;
                          rotation := rotation p |}) g
     else g' = g).
Proof.
  intros Hp Hb Hr.
  destruct (isValidPosition_returns (board g) (type p) (x p + dx) (y p + dy)
              (rotation p) Hb Hr) as [ok Hok].
  unfold movePiece. rewrite Hp, Hok.
  destruct ok; eexists _, _; (split; [reflexivity|]); by repeat split.
Qed.

(** C7: with an active piece [p] on a well-formed board, [movePiece dx dy]
    returns what the collision test says of the candidate
    [(x + dx, y + dy)]: on [true] the candidate is committed (type and
    rotation kept), on [false] the game is returned as it was. The board is
    the same in both cases. *)
Theorem movePiece_commits_or_keeps g p dx dy :
  currentPiece g = Some p → wellFormed (board g) → 0 ≤ rotation p →
  ∃ ok g',
    isValidPosition (board g) (type p) (x p + dx) (y p + dy) (rotation p) = Some ok ∧
    movePiece dx dy g = Some (ok, g') ∧
    board g' = board g ∧
    (if ok
     then g' = set_currentPiece
                 (Some {| type := type p; x := x p + dx; y := y p + dy;
                          rotation := rotation p |}) g
     else g' = g).
Proof.
  intros Hp Hb Hr.
  destruct (isValidPosition_returns (board g) (type p) (x p + dx) (y p + dy)
              (rotation p) Hb Hr) as [ok Hok].
  unfold movePiece. rewrite Hp, Hok.
  destruct ok; eexists _, _; (split; [reflexivity|]); by repeat split.
Qed.

Lemma board_emptyGame : board emptyGame = createEmptyBoard.
Proof. reflexivity. Qed.

Lemma movePiece_commits_or_keeps_witness :
  let p := {| type := T_; x := 3; y := 0; rotation := 0 |} in
  ∃ ok g',
    isValidPosition (board (withPiece p emptyGame)) T_ (3 + 1) (0 + 0) 0 = Some ok ∧
    movePiece 1 0 (withPiece p emptyGame) = Some (ok, g') ∧
    board g' = board (withPiece p emptyGame) ∧
    (if ok
     then g' = set_currentPiece
                 (Some {| type := T_; x := 3 + 1; y := 0 + 0; rotation := 0 |})
                 (withPiece p emptyGame)
     else g' = withPiece p emptyGame).
Proof.
  intros p.
  apply (movePiece_commits_or_keeps (withPiece p emptyGame) p 1 0).
  - reflexivity.
  - apply wellFormed_createEmptyBoard.
  - simpl. lia.
Defined.

Lemma tryKicks_first_valid g p target kicks :
  wellFormed (board g) → 0 ≤ target →
  (∃ pre k post, kicks = pre ++ k :: post ∧
      Forall (λ k', ¬ kickValid g p target k') pre ∧
      kickValid g p target k ∧ tryKicks g p target kicks = Some (kicked g p target k))
  ∨ (Forall (λ k', ¬ kickValid g p target k') kicks ∧
     tryKicks g p target kicks = Some g).
Proof.
  intros Hb Ht. induction kicks as [|[kx ky] kicks IH]; [by right|].
  cbn [tryKicks].
  destruct (isValidPosition_returns (board g) (type p) (x p + kx) (y p - ky)
              target Hb Ht) as [ok Hok].
  rewrite Hok. destruct ok.
  - left. exists [], (kx, ky), kicks. by repeat split.
  - assert (¬ kickValid g p target (kx, ky)) as Hno.
    { unfold kickValid. cbn [fst snd]. by rewrite Hok. }
    destruct IH as [(pre & k & post & -> & Hpre & Hk & Hres)|[Hall Hres]].
    + left. exists ((kx, ky) :: pre), k, post. by repeat split; [constructor|..].
    + right. by split; [constructor|].
Qed.

(** C3: with an active piece [p] of rotation [r >= 0] on a well-formed
    board, [rotatePiece] aims at [(r + 1) mod 4], takes the kick list of
    [(type, r -> target)] and commits the first offset [(dx, dy)] of the
    list, in list order, whose candidate [(x + dx, y - dy, target)] passes
    the collision test; with no such offset the game is returned as it
    was. *)
Theorem rotatePiece_first_valid_kick g p :
  currentPiece g = Some p → wellFormed (board g) → 0 ≤ rotation p →
  let target := (rotation p + 1) `mod` 4 in
  let kicks := getWallKicks (type p) (rotation p) target in
  (∃ pre k post, kicks = pre ++ k :: post ∧
      Forall (λ k', ¬ kickValid g p target k') pre ∧
      kickValid g p target k ∧
      rotatePiece g = Some (kicked g p target k))
  ∨ (Forall (λ k', ¬ kickValid g p target k') kicks ∧ rotatePiece g = Some g).
Proof.
  intros Hp Hb Hr target kicks.
  assert (0 ≤ target) by (apply Z.mod_pos_bound; lia).
  unfold rotatePiece. rewrite Hp. cbn zeta.
  rewrite Z.rem_mod_nonneg by lia.
  by apply tryKicks_first_valid.
Qed.

Lemma rotatePiece_first_valid_kick_witness :
  let p := {| type := T_; x := 3; y := 0; rotation := 0 |} in
  let g := withPiece p emptyGame in
  let target := (0 + 1) `mod` 4 in
  let kicks := getWallKicks T_ 0 target in
  (∃ pre k post, kicks = pre ++ k :: post ∧
      Forall (λ k', ¬ kickValid g p target k') pre ∧
      kickValid g p target k ∧
      rotatePiece g = Some (kicked g p target k))
  ∨ (Forall (λ k', ¬ kickValid g p target k') kicks ∧ rotatePiece g = Some g).
Proof.
  intros p g.
  apply (rotatePiece_first_valid_kick g p).
  - reflexivity.
  - apply wellFormed_createEmptyBoard.
  - simpl. lia.
Defined.

(** ** Scoring and levels *)

Lemma lineScore_beyond n : n > 4 → lineScore n = 0.
Proof.
  intros Hn. unfold lineScore, SCORE_TABLE. simpl.
  rewrite !lookup_insert_ne by lia. by rewrite lookup_empty.
Qed.

Lemma lineScore_nonneg n : 0 ≤ lineScore n.
Proof.
  unfold lineScore, SCORE_TABLE. simpl.
  destruct (decide (n = 1)) as [->|]; [done|].
  destruct (decide (n = 2)) as [->|]; [done|].
  destruct (decide (n = 3)) as [->|]; [done|].
  destruct (decide (n = 4)) as [->|]; [done|].
  rewrite !lookup_insert_ne by done. by rewrite lookup_empty.
Qed.

Ltac filled_at r c :=
  exists r, c; eexists _, _; split; [reflexivity|]; split; [reflexivity|]; discriminate.
Ltac find_filled :=
  first [ filled_at 0%nat 0%nat | filled_at 0%nat 1%nat | filled_at 0%nat 2%nat
        | filled_at 1%nat 0%nat | filled_at 1%nat 1%nat | filled_at 2%nat 0%nat ].

Lemma shape_has_filled type rotation shape :
  getRotatedShape type rotation = Some shape → ∃ row col, filled shape row col.
Proof.
  unfold getRotatedShape, index. case_decide; [|done].
  generalize (Z.to_nat (rotation `rem` 4)). intros n Hn.
  destruct type; destruct n as [|[|[|[|n]]]]; cbn in Hn;
    try discriminate; injection Hn as <-.
  all: unfold filled.
  all: find_filled.
Qed.

Lemma valid_above_floor b type x y rotation :
  wellFormed b → 0 ≤ rotation →
  isValidPosition b type x y rotation = Some true → y < ROWS.
Proof.
  intros Hb Hr Hv.
  destruct (isValidPosition_fits b type x y rotation Hb Hr) as (shape & r & Hs & Hv' & Hiff).
  rewrite Hv in Hv'. injection Hv' as <-.
  destruct (shape_has_filled _ _ _ Hs) as (row & col & Hf).
  destruct (proj1 Hiff eq_refl row col Hf) as (_ & Hy & _). lia.
Qed.

Lemma set_currentPiece_same g p :
  currentPiece g = Some p → dropped g p 0 = g.
Proof.
  intros Hp. destruct g, p. simpl in Hp. subst.
  unfold dropped, shifted, set_currentPiece. simpl. by rewrite Z.add_0_r.
Qed.

Lemma dropLoop_spec fuel : ∀ g p acc,
  currentPiece g = Some p → wellFormed (board g) → 0 ≤ rotation p →
  (Z.to_nat (ROWS - y p) ≤ fuel)%nat →
  ∃ d, 0 ≤ d ∧ (∀ k, 1 ≤ k ≤ d → validAt g p k) ∧ ¬ validAt g p (d + 1) ∧
       dropLoop fuel g acc = Returns (acc + d, dropped g p d).
Proof.
  induction fuel as [|fuel IH]; intros g p acc Hp Hb Hr Hfuel.
  - destruct (movePiece_verdict g p 0 1 Hp Hb Hr) as (ok & g' & Hok & Hm & _ & Hg').
    rewrite Z.add_0_r in Hok.
    destruct ok.
    + apply valid_above_floor in Hok; [lia|done..].
    + subst g'. exists 0. split; [lia|]. split; [intros; lia|].
      split; [unfold validAt; rewrite Z.add_0_l, Hok; discriminate|].
      cbn [dropLoop]. rewrite Hm, Z.add_0_r. by rewrite set_currentPiece_same.
  - destruct (movePiece_verdict g p 0 1 Hp Hb Hr) as (ok & g' & Hok & Hm & Hbd & Hg').
    rewrite Z.add_0_r in Hok, Hg'.
    destruct ok.
    + pose proof (valid_above_floor _ _ _ _ _ Hb Hr Hok) as Hfl.
      destruct (IH g' (shifted p 1) (acc + 1)) as (d & Hd & Hall & Hstop & Hloop).
      * by subst g'.
      * by rewrite Hbd.
      * done.
      * simpl. lia.
      * exists (d + 1). split; [lia|]. split; [|split].
        -- intros k Hk. unfold validAt in *. destruct (decide (k = 1)) as [->|Hk1]; [done|].
           specialize (Hall (k - 1) ltac:(lia)). rewrite Hbd in Hall. simpl in Hall.
           by replace (y p + 1 + (k - 1)) with (y p + k) in Hall by lia.
        -- unfold validAt in *. rewrite Hbd in Hstop. simpl in Hstop.
           by replace (y p + 1 + (d + 1)) with (y p + (d + 1 + 1)) in Hstop by lia.
        -- cbn [dropLoop]. rewrite Hm, Hloop. f_equal. f_equal; [lia|].
           subst g'. unfold dropped, shifted. simpl. unfold set_currentPiece. simpl.
           do 3 f_equal. lia.
    + subst g'. exists 0. split; [lia|]. split; [intros; lia|].
      split; [unfold validAt; rewrite Z.add_0_l, Hok; discriminate|].
      cbn [dropLoop]. rewrite Hm, Z.add_0_r. by rewrite set_currentPiece_same.
Qed.

Lemma scanFull_returns n b :
  (n ≤ length b)%nat →
  ∃ rows, scanFull n b = Some rows ∧ Forall (λ k, (k < n)%nat) rows ∧
          (length rows ≤ n)%nat.
Proof.
  induction n as [|n IH]; intros Hn; [by exists []|].
  destruct IH as (rest & Hrest & Hlt & Hlen); [lia|].
  destruct (lookup_lt_is_Some_2 b n) as [r Hr]; [lia|].
  cbn [scanFull]. rewrite Hr, Hrest.
  assert (Forall (λ k, (k < S n)%nat) rest) by (eapply Forall_impl; [done|]; simpl; lia).
  destruct (rowFull r); eexists; (split; [reflexivity|]); split; simpl; auto with lia.
Qed.

Lemma linesToClear_returns b :
  dims b →
  ∃ rows, linesToClear b = Some rows ∧
          Forall (λ k, (k < Z.to_nat ROWS)%nat) rows ∧
          (length rows ≤ Z.to_nat ROWS)%nat.
Proof. intros [Hlen _]. apply scanFull_returns. lia. Qed.

Lemma clearLines_effect g rows :
  linesToClear (board g) = Some rows → rows ≠ [] →
  let n := Z.of_nat (length rows) in
  let newLevel := Number.add (Number.floorDiv10 (Number.add (lines g) n)) 1 in
  clearLines g =
    Some {| board := clearRows (board g) rows;
            currentPiece := currentPiece g; bag := bag g;
            nextPiece := nextPiece g;
            score := Number.add (score g) (Number.mul (lineScore n) (level g));
            level := if decide (newLevel > level g) then newLevel else level g;
            lines := Number.add (lines g) n;
            state := state g;
            dropInterval := if decide (newLevel > level g)
                            then speedOf newLevel else dropInterval g;
            rng := rng g; highScore := highScore g; env := env g |}.
Proof.
  intros Hrows Hne n newLevel. unfold clearLines. rewrite Hrows.
  destruct rows as [|k rows]; [done|].
  cbn zeta. cbn [lines level set_board set_lines set_score board score].
  fold n. fold newLevel. by case_decide.
Qed.

Lemma clearLines_nothing g :
  linesToClear (board g) = Some [] → clearLines g = Some g.
Proof. intros H. unfold clearLines. by rewrite H. Qed.

Lemma movePiece_frame dx dy g ok g' :
  movePiece dx dy g = Some (ok, g') →
  board g' = board g ∧ score g' = score g ∧ level g' = level g ∧
  lines g' = lines g ∧ dropInterval g' = dropInterval g.
Proof.
  unfold movePiece. destruct (currentPiece g) as [p|]; [|by intros [= <- <-]].
  destruct (isValidPosition _ _ _ _ _) as [[|]|]; [| |done]; by intros [= <- <-].
Qed.

(** C5, as the code has it: the score table gives 100, 300, 500 and 800
    for 1 to 4 lines and 0 beyond. The score is a double, and what is added
    to it is added in double arithmetic: a [clearLines] that finds [n > 0]
    full rows leaves the double nearest to the score plus (the double
    nearest to) [lineScore n * level]; a [softDrop] whose move succeeds
    leaves the double nearest to the score plus 1, and the score as it was
    otherwise; a [hardDrop] moves the piece down by the [d] rows that are
    free below it and leaves the double nearest to the score plus [d * 2]
    before it locks the piece (given fuel for its loop, which [ROWS - y]
    always is). As long as the new score is no more than [2 ^ 53] these
    are the exact sums: [lineScore n * level], 1 and [d * 2] are added. *)
Theorem scoring :
  (lineScore 1 = 100 ∧ lineScore 2 = 300 ∧ lineScore 3 = 500 ∧ lineScore 4 = 800 ∧
   ∀ n, n > 4 → lineScore n = 0) ∧
  (∀ g rows, linesToClear (board g) = Some rows → rows ≠ [] →
     ∃ g', clearLines g = Some g' ∧
           score g' = Number.fl (score g + Number.fl (lineScore (length rows) * level g)) ∧
           (0 ≤ score g → 0 ≤ level g →
            score g + lineScore (length rows) * level g ≤ 2 ^ 53 →
            score g' = score g + lineScore (length rows) * level g)) ∧
  (∀ g ok g1, movePiece 0 1 g = Some (ok, g1) →
     ∃ g', softDrop g = Some g' ∧
           score g' = (if ok then Number.fl (score g + 1) else score g) ∧
           (0 ≤ score g < 2 ^ 53 → score g' = if ok then score g + 1 else score g)) ∧
  (∀ g p, currentPiece g = Some p → wellFormed (board g) → 0 ≤ rotation p →
     ∃ d, 0 ≤ d ∧ (∀ k, 1 ≤ k ≤ d → validAt g p k) ∧ ¬ validAt g p (d + 1) ∧
       (∀ fuel, (Z.to_nat (ROWS - y p) ≤ fuel)%nat →
          hardDrop fuel g =
            ofOption (lockPiece (set_score (Number.fl (score g + Number.fl (d * 2)))
                                   (dropped g p d)))) ∧
       (0 ≤ score g → score g + d * 2 ≤ 2 ^ 53 →
        Number.fl (score g + Number.fl (d * 2)) = score g + d * 2)).
Proof.
  split; [|split; [|split]].
  - repeat split; try reflexivity. apply lineScore_beyond.
  - intros g rows Hrows Hne. eexists. split; [by apply clearLines_effect|].
    split; [done|]. cbn [score]. intros Hs Hl Hle.
    pose proof (lineScore_nonneg (length rows)) as Hn.
    assert (0 ≤ lineScore (length rows) * level g) by (by apply Z.mul_nonneg_nonneg).
    unfold Number.add, Number.mul.
    rewrite (fl_exact (lineScore (length rows) * level g)) by lia.
    apply fl_exact. lia.
  - intros g ok g1 Hm. unfold softDrop. rewrite Hm.
    apply movePiece_frame in Hm as (_ & Hs & _).
    destruct ok; eexists; (split; [reflexivity|]); simpl; rewrite ?Hs;
      (split; [done|]); [|done].
    intros Hb. unfold Number.add. apply fl_exact. lia.
  - intros g p Hp Hb Hr.
    destruct (dropLoop_spec (Z.to_nat (ROWS - y p)) g p 0 Hp Hb Hr) as (d & Hd & Hall & Hstop & _);
      [lia|].
    exists d. split; [done|]. split; [done|]. split; [done|]. split.
    + intros fuel Hfuel.
      destruct (dropLoop_spec fuel g p 0 Hp Hb Hr Hfuel) as (d' & Hd' & Hall' & Hstop' & Hloop).
      assert (d' = d) as ->.
      { destruct (Z.lt_trichotomy d' d) as [Hlt|[Heq|Hgt]]; [|done|].
        - destruct Hstop'. apply Hall. lia.
        - destruct Hstop. apply Hall'. lia. }
      unfold hardDrop. rewrite Hp, Hloop, Z.add_0_l. done.
    + intros Hs Hle. rewrite (fl_exact (d * 2)) by lia. apply fl_exact. lia.
Qed.

Lemma scoring_witness :
  let p := {| type := T_; x := 3; y := 6; rotation := 0 |} in
  let g := withPiece p emptyGame in
  ∃ d, 0 ≤ d ∧ (∀ k, 1 ≤ k ≤ d → validAt g p k) ∧ ¬ validAt g p (d + 1) ∧
    (∀ fuel, (Z.to_nat (ROWS - y p) ≤ fuel)%nat →
       hardDrop fuel g =
         ofOption (lockPiece (set_score (Number.fl (score g + Number.fl (d * 2)))
                                (dropped g p d)))) ∧
    (0 ≤ score g → score g + d * 2 ≤ 2 ^ 53 →
     Number.fl (score g + Number.fl (d * 2)) = score g + d * 2).
Proof.
  intros p g.
  apply (proj2 (proj2 (proj2 scoring)) g p).
  - reflexivity.
  - apply wellFormed_createEmptyBoard.
  - simpl. lia.
Defined.

(** C5 as the specification words it fails where the score has used up
    the 53 bits of a double: at [2 ^ 53] a soft drop moves the piece and
    leaves the score as it is. *)
Lemma softDrop_adds_nothing :
  let g := set_score (2 ^ 53)
             (withPiece {| type := T_; x := 3; y := 0; rotation := 0 |} emptyGame) in
  ∃ g1 g', movePiece 0 1 g = Some (true, g1) ∧ softDrop g = Some g' ∧
           score g' = score g ∧ score g' ≠ score g + 1.
Proof.
  intros g. eexists _, _. split; [by vm_compute|]. split; [by vm_compute|].
  split; by vm_compute.
Qed.

(** The figures of the specification: four lines at level 3 are worth
    2400, five soft drops 5, a hard drop over twelve rows 24. *)
Example clearLines_tetris_level3 :
  score <$> clearLines tetrisGame = Some (score tetrisGame + 2400).
Proof. by vm_compute. Qed.

Example softDrops_five :
  score <$> softDrops 5 (withPiece {| type := T_; x := 3; y := 0; rotation := 0 |} emptyGame)
  = Some 5.
Proof. by vm_compute. Qed.

Example hardDrop_twelve :
  let g := withPiece {| type := T_; x := 3; y := 6; rotation := 0 |} emptyGame in
  dropLoop 20 g 0 = Returns (12, dropped g {| type := T_; x := 3; y := 6; rotation := 0 |} 12) ∧
  match hardDrop 20 g with
  | Returns g' => score g' = 24
  | _ => False
  end.
Proof. split; by vm_compute. Qed.

(** ** The board keeps its dimensions *)

Section grid.
Variable P : Cell → Prop.

Lemma dims_grid b : dims b ↔ grid (λ _, True) b.
Proof.
  split; [|by intros [? _]]. intros Hd. split; [done|].
  apply Forall_forall. intros r _. by apply Forall_forall.
Qed.

Lemma lockCell_grid color x y row col v b :
  P (str color) → grid P b →
  ∃ b', lockCell color x y row col v b = Some b' ∧ grid P b'.
Proof.
  intros Hc [[Hlen Hw] Hp]. unfold lockCell.
  case_decide; [by eexists|]. case_decide as Hin; [|by eexists].
  destruct (lookup_lt_is_Some_2 b (Z.to_nat (y + row))) as [r Hr]; [lia|].
  rewrite Hr. eexists. split; [done|].
  pose proof (Forall_lookup_1 _ _ _ _ Hw Hr) as Hrl. cbn beta in Hrl.
  pose proof (Forall_lookup_1 _ _ _ _ Hp Hr) as Hrp.
  unfold assign. rewrite decide_True by lia.
  split; [split|].
  - by rewrite length_insert.
  - apply Forall_insert; [done|]. by rewrite length_insert.
  - apply Forall_insert; [done|]. by apply Forall_insert.
Qed.

Lemma lockCols_grid color x y row cells : ∀ col b,
  P (str color) → grid P b →
  ∃ b', lockCols color x y row col cells b = Some b' ∧ grid P b'.
Proof.
  induction cells as [|v cells IH]; intros col b Hc Hb; [by eexists|].
  cbn [lockCols].
  destruct (lockCell_grid color x y row col v b Hc Hb) as (b1 & -> & Hb1).
  by apply IH.
Qed.

Lemma lockRows_grid color x y shape : ∀ row b,
  P (str color) → grid P b →
  ∃ b', lockRows color x y row shape b = Some b' ∧ grid P b'.
Proof.
  induction shape as [|cells shape IH]; intros row b Hc Hb; [by eexists|].
  cbn [lockRows].
  destruct (lockCols_grid color x y row cells 0 b Hc Hb) as (b1 & -> & Hb1).
  by apply IH.
Qed.

Lemma clearRow_grid b row :
  P null → grid P b → (row < length b)%nat → grid P (clearRow b row).
Proof.
  intros Hn [[Hlen Hw] Hp] Hrow. unfold clearRow. split; [split|].
  - cbn [length]. rewrite length_delete by (by apply lookup_lt_is_Some_2). lia.
  - constructor; [by rewrite length_replicate|]. by apply Forall_delete.
  - constructor; [by apply Forall_replicate|]. by apply Forall_delete.
Qed.

Lemma clearRows_grid rows : ∀ b,
  P null → grid P b → Forall (λ k, (k < Z.to_nat ROWS)%nat) rows →
  grid P (clearRows b rows).
Proof.
  induction rows as [|k rows IH]; intros b Hn Hb Hrows; [done|].
  inversion Hrows; subst. cbn [clearRows foldl]. apply IH; [done| |done].
  apply clearRow_grid; [done..|]. destruct Hb as [[-> _] _]. done.
Qed.

Lemma clearLines_grid g :
  P null → grid P (board g) →
  ∃ g', clearLines g = Some g' ∧ grid P (board g').
Proof.
  intros Hn Hb.
  destruct (linesToClear_returns (board g) (proj1 Hb)) as (rows & Hrows & Hlt & _).
  destruct (decide (rows = [])) as [->|Hne].
  - exists g. by split; [apply clearLines_nothing|].
  - eexists. split; [by apply clearLines_effect|]. cbn [board].
    by apply clearRows_grid.
Qed.
End grid.

Lemma isHighScore_returns item sc : is_Some (Storage.isHighScore item sc).
Proof.
  unfold Storage.isHighScore. cbn zeta. case_decide as Hlen; [done|].
  destruct (last (Storage.getHighScores item)) eqn:Hlast; [done|].
  apply last_None in Hlast. rewrite Hlast in Hlen. cbn in Hlen.
  unfold Storage.MAX_SCORES in Hlen. lia.
Qed.

(** A game over that returns has written the state, and the leaderboard
    fields at most. *)
Lemma gameOver_frame g g' :
  gameOver g = Some g' →
  board g' = board g ∧ currentPiece g' = currentPiece g ∧ bag g' = bag g ∧
  nextPiece g' = nextPiece g ∧ score g' = score g ∧ level g' = level g ∧
  lines g' = lines g ∧ dropInterval g' = dropInterval g ∧ rng g' = rng g ∧
  state g' = gameover.
Proof.
  unfold gameOver. cbn zeta.
  destruct (Storage.isHighScoreOf _ _) as [[|]|]; [| |done].
  - destruct (Storage.saveHighScoreOf _ _ _) as [[? ?]|]; [|done]. by intros [= <-].
  - by intros [= <-].
Qed.

Lemma gameOver_returns g :
  Storage.entry (env g) ≠ Storage.foreign → is_Some (gameOver g).
Proof.
  intros He. unfold gameOver. cbn zeta. cbn [env set_state score].
  destruct (Storage.entry (env g)) as [item|]; [|done].
  cbn [Storage.isHighScoreOf Storage.saveHighScoreOf].
  by destruct (isHighScore_returns item (score g)) as [[|] ->].
Qed.

Lemma spawnPiece_effect g g' :
  spawnPiece g = Some g' →
  board g' = board g ∧ score g' = score g ∧ level g' = level g ∧
  lines g' = lines g ∧ dropInterval g' = dropInterval g ∧
  (currentPiece g' = None ∨
   ∃ t, currentPiece g' = Some {| type := t; x := 3; y := 0; rotation := 0 |}).
Proof.
  unfold spawnPiece. destruct (Bag.next (bag g) (rng g)) as [[v b1] r1].
  destruct (nextPiece g) as [t|]; [|done]. cbn [board].
  destruct (isValidPosition _ _ _ _ _) as [[|]|]; [| |done].
  - intros [= <-]. repeat split; try done. right. by exists t.
  - intros (-> & -> & _ & _ & -> & -> & -> & -> & _)%gameOver_frame.
    repeat split; try done. by left.
Qed.

Lemma lockPiece_grid P g g' :
  P null → (∀ t, P (str (color (TETROMINOES t)))) →
  grid P (board g) → lockPiece g = Some g' → grid P (board g').
Proof.
  intros Hn Hc Hb. unfold lockPiece.
  destruct (currentPiece g) as [p|]; [|by intros [= <-]].
  destruct (getRotatedShape _ _) as [shape|]; [|done].
  destruct (lockRows_grid P (color (TETROMINOES (type p))) (x p) (y p) shape 0
              (board g) (Hc _) Hb) as (b1 & -> & Hb1).
  destruct (clearLines_grid P (set_board b1 g) Hn Hb1) as (g1 & -> & Hg1).
  intros Hs. apply spawnPiece_effect in Hs as (-> & _). done.
Qed.

(** ** Invariants of a session *)

Lemma spawnPiece_bag g g' :
  spawnPiece g = Some g' →
  bag g' = (Bag.next (bag g) (rng g)).1.2 ∧
  nextPiece g' = (Bag.next (bag g) (rng g)).1.1.
Proof.
  unfold spawnPiece. destruct (Bag.next (bag g) (rng g)) as [[v b1] r1].
  destruct (nextPiece g) as [t|]; [|done]. cbn [board].
  destruct (isValidPosition _ _ _ _ _) as [[|]|]; [| |done].
  - by intros [= <-].
  - by intros (_ & _ & -> & -> & _)%gameOver_frame.
Qed.

(** A spawn returns unless it ends the game on a foreign entry. *)
Lemma spawnPiece_returns g :
  wellFormed (board g) → is_Some (nextPiece g) →
  Storage.entry (env g) ≠ Storage.foreign → is_Some (spawnPiece g).
Proof.
  intros Hb [t Ht] He. unfold spawnPiece.
  destruct (Bag.next (bag g) (rng g)) as [[v b1] r1]. rewrite Ht. cbn [board].
  destruct (isValidPosition_returns (board g) t ((COLS - 4) `div` 2) 0 0 Hb)
    as [[|] ->]; [lia|done|].
  by apply gameOver_returns.
Qed.

Lemma spawn_on_empty t : isValidPosition createEmptyBoard t 3 0 0 = Some true.
Proof. by destruct t; vm_compute. Qed.

Lemma spawnPiece_empty_returns g :
  board g = createEmptyBoard → is_Some (nextPiece g) → is_Some (spawnPiece g).
Proof.
  intros Hb [t Ht]. unfold spawnPiece.
  destruct (Bag.next (bag g) (rng g)) as [[v b1] r1]. rewrite Ht. cbn [board].
  change ((COLS - 4) `div` 2) with 3. by rewrite Hb, spawn_on_empty.
Qed.

Lemma movePiece_cases dx dy g ok g' :
  movePiece dx dy g = Some (ok, g') →
  g' = g ∨
  ∃ p, currentPiece g = Some p ∧
       g' = set_currentPiece
              (Some {| type := type p; x := x p + dx; y := y p + dy;
                       rotation := rotation p |}) g.
Proof.
  unfold movePiece. destruct (currentPiece g) as [p|] eqn:Hp; [|intros [= <- <-]; by left].
  destruct (isValidPosition _ _ _ _ _) as [[|]|]; [| |done]; intros [= <- <-];
    [right; by exists p | by left].
Qed.

Lemma invariant_movePiece dx dy g ok g' :
  invariant g → movePiece dx dy g = Some (ok, g') → invariant g'.
Proof.
  intros Hg Hm. apply movePiece_cases in Hm as [->|(p & Hp & ->)]; [done|].
  destruct Hg as [Hb Hln Hl Hs Hr Hn Hv]. split; try done.
  intros q [= <-]. cbn [rotation]. by apply Hr.
Qed.

Lemma movePiece_returns dx dy g :
  invariant g → ∃ ok g', movePiece dx dy g = Some (ok, g').
Proof.
  intros Hg. destruct (currentPiece g) as [p|] eqn:Hp.
  - destruct (movePiece_verdict g p dx dy Hp (inv_board g Hg))
      as (ok & g' & _ & Hm & _); [|by eauto].
    by apply (inv_rotation g Hg).
  - unfold movePiece. rewrite Hp. by eauto.
Qed.

Lemma invariant_set_score s g : invariant g → invariant (set_score s g).
Proof. by intros [? ? ? ? ? ? ?]. Qed.

Lemma invariant_set_state s g : invariant g → invariant (set_state s g).
Proof. by intros [? ? ? ? ? ? ?]. Qed.

Lemma invariant_set_env e g : invariant g → invariant (set_env e g).
Proof. by intros [? ? ? ? ? ? ?]. Qed.

(** The level of a line count, and the drop interval of a level. *)
Lemma levelOf_mono a b :
  a ≤ b → Number.add (Number.floorDiv10 a) 1 ≤ Number.add (Number.floorDiv10 b) 1.
Proof.
  intros Hab. apply fl_mono. pose proof (floorDiv10_mono a b Hab). lia.
Qed.

Lemma levelOf_pos a : 1 ≤ Number.add (Number.floorDiv10 a) 1.
Proof.
  apply fl_ge; [by apply double_small|]. pose proof (floorDiv10_nonneg a). lia.
Qed.


Lemma speedOf_exact level :
  1 ≤ level →
  speedOf level = Z.max MIN_SPEED (BASE_SPEED - (level - 1) * SPEED_DECREASE_PER_LEVEL).
Proof.
  intros Hl. unfold speedOf, Number.sub, Number.mul, MIN_SPEED, BASE_SPEED,
    SPEED_DECREASE_PER_LEVEL.
  destruct (decide (level ≤ 2 ^ 40)) as [Hs|Hb].
  - rewrite (fl_exact (level - 1)) by lia.
    rewrite (fl_exact ((level - 1) * 75)) by lia.
    by rewrite fl_exact by lia.
  - assert (13 ≤ Number.fl (level - 1)) as H13.
    { apply fl_ge; [by apply double_small|lia]. }
    assert (975 ≤ Number.fl (Number.fl (level - 1) * 75)) as H975.
    { apply fl_ge; [by apply double_small|lia]. }
    assert (Number.fl (1000 - Number.fl (Number.fl (level - 1) * 75)) ≤ 25) as H25.
    { apply fl_le; [by apply double_small|lia]. }
    lia.
Qed.

Lemma speedOf_antitone l1 l2 : 1 ≤ l1 → l1 ≤ l2 → speedOf l2 ≤ speedOf l1.
Proof.
  intros H1 H12. rewrite !speedOf_exact by lia.
  unfold MIN_SPEED, BASE_SPEED, SPEED_DECREASE_PER_LEVEL. lia.
Qed.

Lemma add_grows a n : 0 ≤ a → Number.double a → 0 ≤ n →
  (0 ≤ Number.add a n ∧ Number.double (Number.add a n)) ∧ a ≤ Number.add a n.
Proof.
  intros Ha Hd Hn. split; [split|].
  - apply fl_ge; [by apply double_small|lia].
  - apply double_fl.
  - apply fl_ge; [done|lia].
Qed.

Lemma tryKicks_cases g p target kicks g' :
  tryKicks g p target kicks = Some g' →
  g' = g ∨ ∃ x' y', g' = set_currentPiece
                          (Some {| type := type p; x := x'; y := y';
                                   rotation := target |}) g.
Proof.
  induction kicks as [|[kx ky] kicks IH]; cbn [tryKicks]; [intros [= <-]; by left|].
  destruct (isValidPosition _ _ _ _ _) as [[|]|]; [| |done]; [|done].
  intros [= <-]. right. by eexists _, _.
Qed.

Lemma invariant_rotatePiece g g' :
  invariant g → rotatePiece g = Some g' → invariant g'.
Proof.
  intros Hg. unfold rotatePiece. destruct (currentPiece g) as [p|] eqn:Hp; [|by intros [= <-]].
  intros Hk. apply tryKicks_cases in Hk as [->|(x' & y' & ->)]; [done|].
  destruct Hg as [Hb Hln Hl Hs Hr Hn Hv]. split; try done.
  intros q [= <-]. cbn [rotation]. specialize (Hr p Hp).
  rewrite Z.rem_mod_nonneg by lia. apply Z.mod_pos_bound. lia.
Qed.

Lemma rotatePiece_returns g : invariant g → is_Some (rotatePiece g).
Proof.
  intros Hg. destruct (currentPiece g) as [p|] eqn:Hp.
  - unfold rotatePiece. rewrite Hp. cbn zeta.
    destruct (tryKicks_first_valid g p ((rotation p + 1) `rem` 4)
                (getWallKicks (type p) (rotation p) ((rotation p + 1) `rem` 4))
                (inv_board g Hg))
      as [(? & ? & ? & _ & _ & _ & ->)|[_ ->]]; [|done..].
    pose proof (inv_rotation g Hg p Hp). apply Z.rem_nonneg; lia.
  - unfold rotatePiece. by rewrite Hp.
Qed.

Lemma invariant_clearLines g g' :
  invariant g → clearLines g = Some g' →
  wellFormed (board g') ∧ (0 ≤ lines g' ∧ Number.double (lines g')) ∧
  level g' = Number.add (Number.floorDiv10 (lines g')) 1 ∧
  dropInterval g' = speedOf (level g') ∧ currentPiece g' = currentPiece g ∧
  bag g' = bag g ∧ nextPiece g' = nextPiece g ∧ rng g' = rng g ∧
  env g' = env g.
Proof.
  intros [Hb [Hl0 Hld] Hl Hs Hr Hn Hv] Hc.
  destruct (linesToClear_returns (board g) (proj1 Hb)) as (rows & Hrows & Hlt & _).
  destruct (decide (rows = [])) as [->|Hne].
  { rewrite clearLines_nothing in Hc by done. by injection Hc as <-. }
  rewrite (clearLines_effect g rows Hrows Hne) in Hc. injection Hc as <-.
  cbn [board level lines dropInterval currentPiece bag nextPiece rng env].
  split; [apply (clearRows_grid cell_ok); [by left|done..]|].
  set (n := Z.of_nat (length rows)).
  destruct (add_grows (lines g) n Hl0 Hld ltac:(lia)) as [Hnew Hle].
  split; [done|].
  pose proof (levelOf_mono _ _ Hle) as Hmono. rewrite <-Hl in Hmono.
  case_decide; repeat split; try done. lia.
Qed.

Lemma cell_ok_color t : cell_ok (str (color (TETROMINOES t))).
Proof. right. by exists t. Qed.

Lemma invariant_spawnPiece g g' :
  wellFormed (board g) → 0 ≤ lines g ∧ Number.double (lines g) →
  level g = Number.add (Number.floorDiv10 (lines g)) 1 →
  dropInterval g = speedOf (level g) → Bag.nextBag (bag g) ≡ₚ Bag.pieces →
  spawnPiece g = Some g' → invariant g'.
Proof.
  intros Hb Hln Hl Hs Hn Hsp.
  pose proof (spawnPiece_bag g g' Hsp) as [Ebag Enext].
  apply spawnPiece_effect in Hsp as (Eb & _ & El & En & Ed & Hcur).
  destruct (next_Some (bag g) (rng g) Hn) as [Hsome Hperm].
  split.
  - by rewrite Eb.
  - by rewrite En.
  - by rewrite El, En.
  - by rewrite Ed, El.
  - intros q Hq. destruct Hcur as [Hcur|[t Hcur]]; rewrite Hcur in Hq; [done|].
    injection Hq as <-. cbn [rotation]. lia.
  - by rewrite Ebag.
  - by rewrite Enext.
Qed.

Lemma invariant_lockPiece g g' :
  invariant g → lockPiece g = Some g' → invariant g'.
Proof.
  intros Hg. unfold lockPiece.
  destruct (currentPiece g) as [p|] eqn:Hp; [|by intros [= <-]].
  destruct (getRotatedShape _ _) as [shape|]; [|done].
  destruct (lockRows_grid cell_ok (color (TETROMINOES (type p))) (x p) (y p) shape 0
              (board g) (cell_ok_color _) (inv_board g Hg)) as (b1 & -> & Hb1).
  destruct (clearLines (set_board b1 g)) as [g1|] eqn:Hc; [|done].
  apply invariant_clearLines in Hc as (Hb & Hln & Hl & Hs & _ & Ebag & _).
  2:{ destruct Hg as [? ? ? ? ? ? ?]. by split. }
  apply invariant_spawnPiece; try done.
  rewrite Ebag. apply (inv_bag g Hg).
Qed.

(** A lock returns unless it ends the game on a foreign entry. *)
Lemma lockPiece_returns g :
  invariant g → Storage.entry (env g) ≠ Storage.foreign → is_Some (lockPiece g).
Proof.
  intros Hg He. unfold lockPiece.
  destruct (currentPiece g) as [p|] eqn:Hp; [|done].
  destruct (getRotatedShape_table (type p) (rotation p)) as (shape & -> & _).
  { by apply (inv_rotation g Hg). }
  destruct (lockRows_grid cell_ok (color (TETROMINOES (type p))) (x p) (y p) shape 0
              (board g) (cell_ok_color _) (inv_board g Hg)) as (b1 & -> & Hb1).
  destruct (clearLines_grid cell_ok (set_board b1 g)) as (g1 & Hc & Hb2);
    [by left|done|].
  rewrite Hc. apply invariant_clearLines in Hc as (_ & _ & _ & _ & _ & _ & En & _ & Ee).
  2:{ destruct Hg as [? ? ? ? ? ? ?]. by split. }
  apply spawnPiece_returns; [done| |by rewrite Ee]. rewrite En. apply (inv_next g Hg).
Qed.

Lemma invariant_dropLoop fuel : ∀ g acc d g',
  invariant g → dropLoop fuel g acc = Returns (d, g') →
  invariant g' ∧ score g' = score g.
Proof.
  induction fuel as [|fuel IH]; intros g acc d g' Hg; cbn [dropLoop];
    destruct (movePiece 0 1 g) as [[[|] g1]|] eqn:Hm; try done.
  - intros [= <- <-]. apply movePiece_frame in Hm as Hf. split; [|by destruct Hf as (_ & ? & _)].
    by eapply invariant_movePiece.
  - intros Hl. pose proof Hm as Hf. apply movePiece_frame in Hf as (_ & Hsc & _).
    apply IH in Hl as [? ?]; [|by eapply invariant_movePiece]. split; [done|lia].
  - intros [= <- <-]. apply movePiece_frame in Hm as Hf. split; [|by destruct Hf as (_ & ? & _)].
    by eapply invariant_movePiece.
Qed.

Lemma invariant_newGame r e : invariant (newGame r e).
Proof.
  unfold newGame.
  pose proof (reset_bag {| Bag.bag := []; Bag.nextBag := [] |} r) as [_ Hn].
  change (Bag.reset _ r) with (Bag.new r) in Hn.
  destruct (Bag.new r) as [b0 r0]. cbn [fst] in Hn.
  destruct (next_Some b0 r0 Hn) as [Hsome Hperm].
  destruct (Bag.next b0 r0) as [[v b1] r1].
  split; cbn [board lines level dropInterval currentPiece bag nextPiece];
    [apply wellFormed_createEmptyBoard|by split|by vm_compute..|done|done|done].
Qed.

Lemma startGame_cases g :
  ∃ b1 v r1,
    Bag.nextBag b1 ≡ₚ Bag.pieces ∧ is_Some v ∧
    startGame g =
      match spawnPiece
              {| board := createEmptyBoard; currentPiece := None; bag := b1;
                 nextPiece := v; score := 0; level := 1; lines := 0;
                 state := state g; dropInterval := BASE_SPEED; rng := r1;
                 highScore := highScore g; env := env g |} with
      | None => None
      | Some g2 => Some (set_state playing g2)
      end.
Proof.
  unfold startGame.
  pose proof (reset_bag (bag g) (rng g)) as [_ Hn].
  destruct (Bag.reset (bag g) (rng g)) as [b0 r0]. cbn [fst] in Hn.
  destruct (next_Some b0 r0 Hn) as [Hsome Hperm].
  destruct (Bag.next b0 r0) as [[v b1] r1]. by exists b1, v, r1.
Qed.

Lemma invariant_startGame g g' : startGame g = Some g' → invariant g'.
Proof.
  destruct (startGame_cases g) as (b1 & v & r1 & Hn & Hv & ->).
  destruct (spawnPiece _) as [g2|] eqn:Hsp; [|done]. intros [= <-].
  apply invariant_set_state.
  apply invariant_spawnPiece in Hsp; [done|apply wellFormed_createEmptyBoard|..];
    cbn [lines level dropInterval bag]; [by split|by vm_compute|by vm_compute|done].
Qed.

Lemma startGame_returns g : is_Some (startGame g).
Proof.
  destruct (startGame_cases g) as (b1 & v & r1 & Hn & Hv & ->).
  destruct (spawnPiece_empty_returns
              {| board := createEmptyBoard; currentPiece := None; bag := b1;
                 nextPiece := v; score := 0; level := 1; lines := 0;
                 state := state g; dropInterval := BASE_SPEED; rng := r1;
                 highScore := highScore g; env := env g |})
    as [g2 ->]; done.
Qed.

Lemma invariant_step g g' : invariant g → step g g' → invariant g'.
Proof.
  intros Hg Hs. destruct Hs as [g g' H|g dx dy ok g' H|g g' H|g g' H|g fuel g' H|g g' H|g].
  - by eapply invariant_startGame.
  - by eapply invariant_movePiece.
  - by eapply invariant_rotatePiece.
  - unfold softDrop in H. destruct (movePiece 0 1 g) as [[[|] g1]|] eqn:Hm; [| |done];
      injection H as <-; [apply invariant_set_score|]; by eapply invariant_movePiece.
  - unfold hardDrop in H. destruct (currentPiece g); [|by injection H as <-].
    destruct (dropLoop fuel g 0) as [[d g1]| |] eqn:Hl; [|done..].
    apply invariant_dropLoop in Hl as [Hg1 _]; [|done].
    destruct (lockPiece _) as [g2|] eqn:Hk; [|done]. injection H as <-.
    eapply invariant_lockPiece; [|done]. by apply invariant_set_score.
  - unfold autoDrop in H. destruct (movePiece 0 1 g) as [[[|] g1]|] eqn:Hm; [| |done].
    + injection H as <-. by eapply invariant_movePiece.
    + eapply invariant_lockPiece; [|done]. by eapply invariant_movePiece.
  - unfold togglePause. destruct (state g); try done; by apply invariant_set_state.
Qed.

Lemma reachable_invariant g : reachable g → invariant g.
Proof.
  induction 1 as [r e|g g' _ IH Hs|g e _ IH];
    [apply invariant_newGame|by eapply invariant_step|by apply invariant_set_env].
Qed.





Lemma movePiece_env dx dy g ok g' :
  movePiece dx dy g = Some (ok, g') → env g' = env g.
Proof. by intros [->|(p & _ & ->)]%movePiece_cases. Qed.

Lemma dropLoop_env fuel : ∀ g acc d g',
  dropLoop fuel g acc = Returns (d, g') → env g' = env g.
Proof.
  induction fuel as [|fuel IH]; intros g acc d g'; cbn [dropLoop];
    destruct (movePiece 0 1 g) as [[[|] g1]|] eqn:Hm; try done.
  - intros [= <- <-]. by eapply movePiece_env.
  - intros Hl. apply IH in Hl as ->. by eapply movePiece_env.
  - intros [= <- <-]. by eapply movePiece_env.
Qed.

Lemma hardDrop_returns g fuel :
  invariant g → Storage.entry (env g) ≠ Storage.foreign → (dropFuel g ≤ fuel)%nat →
  ∃ g', hardDrop fuel g = Returns g'.
Proof.
  intros Hg He Hfuel. unfold hardDrop, dropFuel in *.
  destruct (currentPiece g) as [p|] eqn:Hp; [|by eauto].
  destruct (dropLoop_spec fuel g p 0 Hp (inv_board g Hg)) as (d & _ & _ & _ & Hl);
    [by apply (inv_rotation g Hg)|done|].
  rewrite Hl. pose proof Hl as Hi. apply invariant_dropLoop in Hi as [Hi _]; [|done].
  apply dropLoop_env in Hl.
  destruct (lockPiece_returns
              (set_score (Number.add (score (dropped g p d)) (Number.mul (0 + d) 2))
                 (dropped g p d))) as [g' ->];
    [by apply invariant_set_score|done|]. by eauto.
Qed.

Lemma autoDrop_returns g :
  invariant g → Storage.entry (env g) ≠ Storage.foreign → is_Some (autoDrop g).
Proof.
  intros Hg He. unfold autoDrop.
  destruct (movePiece_returns 0 1 g Hg) as ([|] & g' & Hm); rewrite Hm; [done|].
  apply lockPiece_returns; [by eapply invariant_movePiece|].
  by rewrite (movePiece_env _ _ _ _ _ Hm).
Qed.


(** C10: the board is created with [ROWS] rows of [COLS] cells; locking a
    shape into a board of these dimensions returns a board of these
    dimensions; clearing a row takes one row out and puts one row of [COLS]
    empty cells on top; [clearLines] and [lockPiece] keep the dimensions;
    and so every board of a session has them. *)
Theorem board_keeps_dimensions :
  dims createEmptyBoard ∧
  (∀ color x y shape b, dims b →
     ∃ b', lockRows color x y 0 shape b = Some b' ∧ dims b') ∧
  (∀ b row, dims b → (row < length b)%nat →
     clearRow b row = replicate (Z.to_nat COLS) null :: delete row b ∧
     dims (clearRow b row)) ∧
  (∀ g, dims (board g) → ∃ g', clearLines g = Some g' ∧ dims (board g')) ∧
  (∀ g g', dims (board g) → lockPiece g = Some g' → dims (board g')) ∧
  (∀ g, reachable g → dims (board g)).
Proof.
  split; [apply dims_createEmptyBoard|].
  split; [|split; [|split; [|split]]].
  - intros color x y shape b Hb. apply dims_grid in Hb.
    destruct (lockRows_grid _ color x y shape 0 b I Hb) as (b' & Hl & Hb').
    exists b'. split; [done|]. by apply dims_grid.
  - intros b row Hb Hrow. split; [done|]. apply dims_grid.
    apply clearRow_grid; [done| |done]. by apply dims_grid.
  - intros g Hb. apply dims_grid in Hb.
    destruct (clearLines_grid _ g I Hb) as (g' & Hc & Hb').
    exists g'. split; [done|]. by apply dims_grid.
  - intros g g' Hb Hl. apply dims_grid. apply dims_grid in Hb.
    by eapply lockPiece_grid.
  - intros g Hg. by destruct (reachable_invariant g Hg) as [[? _] _ _ _ _ _].
Qed.

Lemma board_keeps_dimensions_witness :
  ∃ g', clearLines tetrisGame = Some g' ∧ dims (board g').
Proof.
  apply (proj1 (proj2 (proj2 (proj2 board_keeps_dimensions))) tetrisGame).
  split; [reflexivity|]. vm_compute. repeat constructor.
Defined.

(** ** Line clearing *)

Lemma scanFull_elem n b rows :
  scanFull n b = Some rows →
  ∀ k, k ∈ rows ↔ (k < n)%nat ∧ ∃ r, b !! k = Some r ∧ rowFull r = true.
Proof.
  revert rows. induction n as [|n IH]; intros rows; cbn [scanFull].
  { intros [= <-] k. split; [by intros ?%elem_of_nil|]. intros [? _]. lia. }
  destruct (b !! n) as [r|] eqn:Hr; [|done].
  destruct (scanFull n b) as [rest|]; [|done].
  specialize (IH rest eq_refl). intros [= <-] k.
  destruct (rowFull r) eqn:Hf.
  - rewrite elem_of_cons, IH. split.
    + intros [->|[? ?]]; [|split; [lia|done]]. split; [lia|]. by exists r.
    + intros [Hk Hex]. destruct (decide (k = n)) as [->|]; [by left|].
      right. split; [lia|done].
  - rewrite IH. split.
    + intros [? ?]. split; [lia|done].
    + intros [Hk (r' & Hr' & Hf')]. split; [|by exists r'].
      destruct (decide (k = n)) as [->|]; [|lia]. congruence.
Qed.

Lemma filter_notFull_all (l : list (list Cell)) :
  (∀ i r, l !! i = Some r → rowFull r = false) →
  filter (λ r, rowFull r = false) l = l.
Proof.
  induction l as [|a l IH]; intros H; [done|].
  rewrite filter_cons_True by (by apply (H 0%nat)).
  f_equal. apply IH. intros i r Hi. by apply (H (S i)).
Qed.

Lemma filter_notFull_delete (l : list (list Cell)) : ∀ k,
  (k < length l)%nat →
  (∀ i r, l !! i = Some r → rowFull r = true ↔ i = k) →
  filter (λ r, rowFull r = false) l = delete k l.
Proof.
  induction l as [|a l IH]; intros k Hk H; [simpl in Hk; lia|].
  destruct k as [|k].
  - rewrite filter_cons_False.
    + cbn [delete list_delete]. apply filter_notFull_all. intros i r Hi.
      destruct (rowFull r) eqn:Hf; [|done].
      by apply (H (S i)) in Hf.
    + rewrite (proj2 (H 0%nat a eq_refl)); done.
  - rewrite filter_cons_True.
    + cbn [delete list_delete]. f_equal. apply IH; [simpl in Hk; lia|].
      intros i r Hi. rewrite (H (S i) r Hi). lia.
    + destruct (rowFull a) eqn:Hf; [|done]. by apply (H 0%nat) in Hf.
Qed.

Lemma clearLines_up_to_one_row b rows :
  dims b → linesToClear b = Some rows → (length rows ≤ 1)%nat →
  clearRows b rows = clearFullLinesSpec b.
Proof.
  intros [Hlen Hw] Hrows Hone. unfold linesToClear in Hrows.
  pose proof (scanFull_elem _ _ _ Hrows) as Hel.
  unfold clearFullLinesSpec. destruct rows as [|k [|? ?]]; [| |simpl in Hone; lia].
  - rewrite filter_notFull_all.
    + by rewrite Nat.sub_diag.
    + intros i r Hi. destruct (rowFull r) eqn:Hf; [|done].
      assert (i ∈ @nil nat) as Hin; [|by apply elem_of_nil in Hin].
      apply Hel. split; [apply lookup_lt_Some in Hi; lia|by exists r].
  - destruct (proj1 (Hel k)) as (Hk & rk & Hrk & Hfk); [by left|].
    rewrite (filter_notFull_delete b k).
    + rewrite length_delete by (by apply lookup_lt_is_Some_2; lia).
      replace (length b - (length b - 1))%nat with 1%nat by lia. done.
    + lia.
    + intros i r Hi. split.
      * intros Hf. assert (i ∈ [k]) as Hin; [|by apply list_elem_of_singleton in Hin].
        apply Hel. split; [apply lookup_lt_Some in Hi; lia|by exists r].
      * intros ->. congruence.
Qed.

Lemma scanFull_below n b rows :
  scanFull n b = Some rows → Forall (λ j, (j < n)%nat) rows.
Proof.
  intros Hs. apply Forall_forall. intros k Hk.
  by apply (scanFull_elem n b rows Hs k).
Qed.

Lemma scanFull_tail n b : ∀ k rest,
  scanFull n b = Some (k :: rest) → (k < n)%nat ∧ scanFull k b = Some rest.
Proof.
  induction n as [|n IH]; intros k rest; cbn [scanFull]; [done|].
  destruct (b !! n) as [r|] eqn:Hr; [|done].
  destruct (scanFull n b) as [rows|] eqn:Hs; [|done].
  destruct (rowFull r).
  - intros [= <- <-]. split; [lia|done].
  - intros [= ->]. destruct (IH k rest eq_refl). split; [lia|done].
Qed.

Lemma clearRow_lookup_above (b : Board) k i :
  (k < i)%nat → (i < length b)%nat → clearRow b k !! i = b !! i.
Proof.
  intros Hk Hi. unfold clearRow. destruct i as [|i]; [lia|].
  simpl. by rewrite list_lookup_delete_ge by lia.
Qed.

Lemma clearRow_length (b : Board) k :
  (k < length b)%nat → length (clearRow b k) = length b.
Proof.
  intros Hk. unfold clearRow. cbn [length].
  rewrite length_delete by (by apply lookup_lt_is_Some_2). lia.
Qed.

Lemma clearRows_lookup_above rows : ∀ (b : Board) i,
  Forall (λ k, (k < i)%nat) rows → (i < length b)%nat →
  clearRows b rows !! i = b !! i.
Proof.
  induction rows as [|k rows IH]; intros b i Hrows Hi; [done|].
  inversion Hrows; subst. cbn [clearRows foldl].
  unfold clearRows in IH. rewrite IH by (rewrite ?clearRow_length; done || lia).
  by apply clearRow_lookup_above.
Qed.

Lemma clearRows_keeps_second (b : Board) k0 k1 rest row :
  (k1 < k0)%nat → (k0 < length b)%nat → Forall (λ j, (j < k1)%nat) rest →
  b !! k1 = Some row →
  clearRows b (k0 :: k1 :: rest) !! S k1 = Some row.
Proof.
  intros H10 H0 Hrest Hrow. cbn [clearRows foldl].
  pose proof (clearRows_lookup_above rest (clearRow (clearRow b k0) k1) (S k1)) as Hl.
  unfold clearRows in Hl. rewrite Hl.
  - rewrite clearRow_lookup_above by (rewrite ?clearRow_length; lia).
    unfold clearRow at 1. simpl.
    by rewrite list_lookup_delete_lt by lia.
  - eapply Forall_impl; [done|]. simpl. lia.
  - rewrite !clearRow_length; rewrite ?clearRow_length; lia.
Qed.

Lemma clearFullLinesSpec_no_full b row :
  row ∈ clearFullLinesSpec b → rowFull row = false.
Proof.
  unfold clearFullLinesSpec. rewrite elem_of_app.
  intros [[-> _]%elem_of_replicate|[? _]%list_elem_of_filter]; done.
Qed.

(** X19: the splice/unshift loop of [clearLines] leaves the board with
    exactly the full rows removed and as many empty rows on top when, and
    only when, it finds at most one full row: with two or more, the second
    full row from the bottom is still on the board afterwards. *)
Theorem clearRows_spec_iff b rows :
  dims b → linesToClear b = Some rows →
  clearRows b rows = clearFullLinesSpec b ↔ (length rows ≤ 1)%nat.
Proof.
  intros Hd Hrows. split; [|by apply clearLines_up_to_one_row].
  intros Heq. destruct rows as [|k0 [|k1 rest]]; [simpl; lia..|]. exfalso.
  unfold linesToClear in Hrows.
  destruct (scanFull_tail _ _ _ _ Hrows) as [H0 Htl].
  destruct (scanFull_tail _ _ _ _ Htl) as [H10 Hrest%scanFull_below].
  destruct (proj1 (scanFull_elem _ _ _ Hrows k1)) as (_ & row & Hrow & Hfull);
    [right; by left|].
  destruct Hd as [Hlen _].
  pose proof (clearRows_keeps_second b k0 k1 rest row H10 ltac:(lia) Hrest Hrow) as Hkeep.
  rewrite Heq in Hkeep. apply list_elem_of_lookup_2 in Hkeep.
  apply clearFullLinesSpec_no_full in Hkeep. congruence.
Qed.

(** C1, at the input on which it fails: a vertical I piece locked into the
    well of [wellBoard] fills rows 17, 18 and 19. [clearLines] finds them
    (bottom row first) but takes out rows 19, 17 and 15 as they were,
    because every removal shifts the rows above it down by one before the
    next index is used. A full row is left at the bottom, the row that
    held a block at column 4 is lost, and the board is not the one the
    specification describes. *)
Theorem clearLines_leaves_full_row :
  wellFormed wellBoard ∧
  lockRows "#00E5FF" (-2) 16 0 [[0; 0; 1; 0]; [0; 0; 1; 0]; [0; 0; 1; 0]; [0; 0; 1; 0]]
    wellBoard = Some lockedBoard ∧
  linesToClear lockedBoard = Some [19; 18; 17]%nat ∧
  ∃ g', lockPiece wellGame = Some g' ∧
    board g' =
      replicate 18 emptyRow
      ++ [<[0%nat := str "#00E5FF"]> (markedRow 5);
          str "#00E5FF" :: replicate 9 (str "#FFEB3B")] ∧
    clearFullLinesSpec lockedBoard =
      replicate 18 emptyRow
      ++ [markedRow 4; <[0%nat := str "#00E5FF"]> (markedRow 5)] ∧
    board g' ≠ clearFullLinesSpec lockedBoard.
Proof.
  split.
  { split; [split; [done|]|]; unfold wellBoard; repeat apply Forall_app_2;
      repeat apply Forall_cons_2; try apply Forall_nil_2; try done.
    all: try (apply Forall_replicate; try done).
    all: try (apply Forall_replicate; by left).
    all: unfold markedRow, wellRow, emptyRow; simpl;
      repeat apply Forall_cons_2; try apply Forall_nil_2;
      try (by left); try (right; by exists O_). }
  split; [by vm_compute|]. split; [by vm_compute|].
  eexists. split; [vm_compute; reflexivity|]. cbn [board].
  split; [by vm_compute|]. split; [by vm_compute|].
  vm_compute. discriminate.
Qed.

(** * Further properties *)

Import View Input Session.

Lemma clearRows_spec_iff_witness :
  clearRows lockedBoard [19; 18; 17]%nat = clearFullLinesSpec lockedBoard
  ↔ (length [19; 18; 17]%nat ≤ 1)%nat.
Proof.
  apply (clearRows_spec_iff lockedBoard [19; 18; 17]%nat).
  - split; [reflexivity|]. vm_compute. repeat constructor.
  - by vm_compute.
Defined.

(** ** More on the bag *)

Section bag_more.
Import Bag.
Local Open Scope nat_scope.

Lemma shuffleLoop_entropy {A} i : ∀ (a : list A) r,
  length (shuffleLoop i a r).1 = length a ∧
  cursor (shuffleLoop i a r).2 = cursor r + i ∧
  stream (shuffleLoop i a r).2 = stream r.
Proof.
  induction i as [|i IH]; intros a r; [simpl; auto with lia|].
  cbn [shuffleLoop randomBelow]. destruct (IH (swap (S i) (stream r (cursor r) `mod` (S i + 1)) a)
    {| stream := stream r; cursor := S (cursor r) |}) as (Hl & Hc & Hs).
  rewrite Hl, Hc, Hs. cbn [cursor stream]. repeat split; [|lia].
  unfold swap. repeat case_match; rewrite ?length_insert; done.
Qed.

(** X1: for every array and whatever [Math.random] yields, [shuffleArray]
    returns a permutation of the array, of the same length, and draws one
    random number for each index from the last down to 1. *)
Theorem shuffleArray_permutes {A} (a : list A) r :
  (shuffleArray a r).1 ≡ₚ a ∧
  length (shuffleArray a r).1 = length a ∧
  cursor (shuffleArray a r).2 = cursor r + (length a - 1) ∧
  stream (shuffleArray a r).2 = stream r.
Proof.
  split; [apply shuffleArray_Permutation|]. apply shuffleLoop_entropy.
Qed.

Lemma NoDup_pieces : NoDup pieces.
Proof. apply (bool_decide_unpack _). by vm_compute. Qed.

Lemma elem_of_pieces t : t ∈ pieces.
Proof. apply (bool_decide_unpack _). by destruct t; vm_compute. Qed.

Lemma NoDup_removelast {A} (l : list A) : NoDup l → NoDup (removelast l).
Proof.
  destruct l as [|x l _] using rev_ind; [done|].
  rewrite removelast_snoc. by intros [? _]%NoDup_app.
Qed.

Lemma bagInv_shuffles b r : bagInv (reset b r).1.
Proof.
  destruct (reset_bag b r) as [Hb Hn]. split; [|done].
  rewrite Hb. apply NoDup_pieces.
Qed.

Lemma bagInv_next b r : bagInv b → bagInv (next b r).1.2.
Proof.
  intros [Hd Hn]. destruct (decide (bag b = [])) as [He|Hne].
  - rewrite next_empty by done. cbn [fst snd]. split; cbn [bag nextBag].
    + apply NoDup_removelast. rewrite Hn. apply NoDup_pieces.
    + apply shuffleArray_Permutation.
  - rewrite next_nonempty by done. cbn [fst snd]. split; cbn [bag nextBag]; [|done].
    by apply NoDup_removelast.
Qed.

Lemma reachable_bagInv b : reachable b → bagInv b.
Proof.
  induction 1 as [r|b r _ IH|b r _ _].
  - apply (bagInv_shuffles {| bag := []; nextBag := [] |} r).
  - by apply bagInv_next.
  - apply bagInv_shuffles.
Qed.

(** X3: in every state of a bag the head queue holds at most seven piece
    types and none twice, the lookahead queue holds each of the seven
    once, and [next()] returns a piece type, never [undefined]. *)
Theorem bag_invariant b :
  reachable b →
  NoDup (bag b) ∧ length (bag b) ≤ 7 ∧ nextBag b ≡ₚ pieces ∧
  ∀ r, ∃ t, (next b r).1.1 = Some t.
Proof.
  intros [Hd Hn]%reachable_bagInv. split; [done|]. split; [|split; [done|]].
  - change 7 with (length pieces). apply submseteq_length, NoDup_submseteq; [done|].
    intros t _. apply elem_of_pieces.
  - intros r. by destruct (next_Some b r Hn) as [[t Ht] _]; eauto.
Qed.

Lemma bag_invariant_witness :
  let r := {| stream := λ n, n * 5 + 1; cursor := 0 |} in
  NoDup (bag (new r).1) ∧ length (bag (new r).1) ≤ 7 ∧ nextBag (new r).1 ≡ₚ pieces ∧
  ∀ r', ∃ t, (next (new r).1 r').1.1 = Some t.
Proof. intros r. apply (bag_invariant (new r).1). apply reach_new. Defined.

Lemma draws_add n m b r :
  draws (n + m) b r =
    let '(v1, b1, r1) := draws n b r in
    let '(v2, b2, r2) := draws m b1 r1 in
    (v1 ++ v2, b2, r2).
Proof.
  revert b r. induction n as [|n IH]; intros b r; cbn [draws Nat.add].
  - by destruct (draws m b r) as [[? ?] ?].
  - destruct (next b r) as [[v b1] r1]. rewrite IH.
    destruct (draws n b1 r1) as [[v1 b2] r2].
    by destruct (draws m b2 r2) as [[v2 b3] r3].
Qed.

Lemma count_occ_pieces t : count_occ TetrominoType_eq_dec pieces t = 1.
Proof. by destruct t. Qed.

Lemma drawn_Some t l :
  drawn t (Some <$> l) = count_occ TetrominoType_eq_dec l t.
Proof.
  unfold drawn. induction l as [|a l IH]; [done|]. cbn [fmap list_fmap count_occ].
  destruct (TetrominoType_eq_dec a t) as [->|Hne].
  - rewrite filter_cons_True by done. simpl. by rewrite <-IH.
  - rewrite filter_cons_False by congruence. done.
Qed.

Lemma drawn_app t vs ws : drawn t (vs ++ ws) = drawn t vs + drawn t ws.
Proof. unfold drawn. by rewrite filter_app, length_app. Qed.

(** X4: from a bag whose head queue has just run empty, [k * 7] calls of
    [next()] return every piece type exactly [k] times, none of them
    [undefined], and end at such a boundary again. *)
Theorem draws_whole_bags k : ∀ b r,
  reachable b → bag b = [] →
  let '(vs, b', _) := draws (k * 7) b r in
  (∀ t, drawn t vs = k) ∧ length vs = k * 7 ∧ Forall is_Some vs ∧
  reachable b' ∧ bag b' = [].
Proof.
  induction k as [|k IH]; intros b r Hb He.
  { cbn. repeat split; done. }
  change (S k * 7) with (7 + k * 7). rewrite draws_add.
  pose proof (reachable_draws 7 b r Hb) as Hb1.
  pose proof (reachable_nextBag b Hb) as Hn.
  destruct b as [l nb]. cbn [bag nextBag] in *. subst l.
  assert (nb ≠ []) as Hne by (intros ->; by apply Permutation_nil_l in Hn).
  pose proof (draws_boundary nb r Hne) as Hd.
  rewrite (Permutation_pieces_length nb Hn) in Hd.
  rewrite Hd in Hb1 |- *. cbn [fst snd] in Hb1.
  specialize (IH _ (shuffleArray pieces r).2 Hb1 eq_refl).
  destruct (draws (k * 7) _ _) as [[vs b2] r2].
  destruct IH as (Hcount & Hlen & Hsome & Hb2 & He2).
  split; [|split; [|split; [|done]]].
  - intros t. rewrite drawn_app, Hcount, drawn_Some.
    assert (reverse nb ≡ₚ pieces) as Hp by (by rewrite reverse_Permutation).
    rewrite (proj1 (Permutation_count_occ TetrominoType_eq_dec _ _) Hp t).
    rewrite count_occ_pieces. lia.
  - rewrite length_app, length_fmap, length_reverse, Hlen.
    rewrite (Permutation_pieces_length nb Hn). lia.
  - apply Forall_app. split; [|done]. apply Forall_fmap, Forall_true. by eauto.
Qed.

Lemma draws_whole_bags_witness :
  let r := {| stream := λ n, n * 5 + 1; cursor := 0 |} in
  let b := (draws 7 (new r).1 (new r).2).1.2 in
  bag b = [] ∧
  let '(vs, b', _) := draws (2 * 7) b r in
  (∀ t, drawn t vs = 2) ∧ length vs = 2 * 7 ∧ Forall is_Some vs ∧
  reachable b' ∧ bag b' = [].
Proof.
  intros r b. split; [by vm_compute|].
  apply (draws_whole_bags 2 b r).
  - apply reachable_draws, reach_new.
  - by vm_compute.
Defined.

End bag_more.

(** ** More on rotation *)

Ltac kicks_ok :=
  split; [reflexivity|]; split; [simpl; lia|]; repeat constructor; simpl; lia.

Lemma kicksOk_fallback : kicksOk [(0, 0)].
Proof. kicks_ok. Qed.

Lemma kicksOk_table (table : list (string * Kicks)) key ks :
  Forall (λ e, kicksOk e.2) table →
  (list_to_map table : gmap string Kicks) !! key = Some ks → kicksOk ks.
Proof.
  intros Hall Hl. apply elem_of_list_to_map_2 in Hl.
  rewrite Forall_forall in Hall. apply (Hall (key, ks) Hl).
Qed.

Lemma getWallKicks_ok type fromRotation toRotation :
  kicksOk (getWallKicks type fromRotation toRotation).
Proof.
  unfold getWallKicks. generalize (kickKey fromRotation toRotation). intros key.
  repeat case_decide; try apply kicksOk_fallback.
  - destruct (WALL_KICKS_I !! key) as [ks|] eqn:Hk; [|apply kicksOk_fallback].
    cbn [default]. eapply kicksOk_table; [|exact Hk].
    repeat (constructor; [kicks_ok|]). constructor.
  - destruct (WALL_KICKS_JLSTZ !! key) as [ks|] eqn:Hk; [|apply kicksOk_fallback].
    cbn [default]. eapply kicksOk_table; [|exact Hk].
    repeat (constructor; [kicks_ok|]). constructor.
Qed.

Lemma getWallKicks_head type fromRotation toRotation :
  ∃ rest, getWallKicks type fromRotation toRotation = (0, 0) :: rest.
Proof.
  destruct (getWallKicks_ok type fromRotation toRotation) as (Hh & _).
  destruct (getWallKicks _ _ _) as [|k rest]; [done|].
  injection Hh as ->. by exists rest.
Qed.

(** X6: every kick list starts with the offset [(0, 0)], so a rotation
    that fits where the piece stands is made on the spot, whatever the
    piece type and the rotation. *)
Theorem rotatePiece_in_place g p :
  currentPiece g = Some p →
  isValidPosition (board g) (type p) (x p) (y p) ((rotation p + 1) `rem` 4) = Some true →
  rotatePiece g =
    Some (set_currentPiece
            (Some {| type := type p; x := x p; y := y p;
                     rotation := (rotation p + 1) `rem` 4 |}) g).
Proof.
  intros Hp Hv. unfold rotatePiece. rewrite Hp. cbn zeta.
  destruct (getWallKicks_head (type p) (rotation p) ((rotation p + 1) `rem` 4)) as [rest ->].
  cbn [tryKicks]. rewrite Z.add_0_r, Z.sub_0_r, Hv. done.
Qed.

Lemma tryKicks_displacement g p target kicks g' :
  Forall (λ k, -2 ≤ k.1 ≤ 2 ∧ -2 ≤ k.2 ≤ 2) kicks →
  tryKicks g p target kicks = Some g' →
  g' = g ∨
  ∃ x' y', g' = set_currentPiece
                  (Some {| type := type p; x := x'; y := y'; rotation := target |}) g ∧
           isValidPosition (board g) (type p) x' y' target = Some true ∧
           -2 ≤ x' - x p ≤ 2 ∧ -2 ≤ y' - y p ≤ 2.
Proof.
  induction kicks as [|[kx ky] kicks IH]; intros Hall; cbn [tryKicks];
    [intros [= <-]; by left|].
  inversion Hall as [|? ? [Hx Hy] Hrest]; subst. cbn [fst snd] in *.
  destruct (isValidPosition _ _ _ _ _) as [[|]|] eqn:Hv; [| |done]; [|by apply IH].
  intros [= <-]. right. eexists _, _. split; [done|]. split; [done|]. lia.
Qed.

(** X7: a rotation that returns either leaves the game as it is or turns
    the piece to the next rotation at a place that passes the collision
    test and is at most two columns and two rows away. *)
Theorem rotatePiece_displacement g p g' :
  currentPiece g = Some p → rotatePiece g = Some g' →
  g' = g ∨
  ∃ x' y',
    g' = set_currentPiece
           (Some {| type := type p; x := x'; y := y';
                    rotation := (rotation p + 1) `rem` 4 |}) g ∧
    isValidPosition (board g) (type p) x' y' ((rotation p + 1) `rem` 4) = Some true ∧
    -2 ≤ x' - x p ≤ 2 ∧ -2 ≤ y' - y p ≤ 2.
Proof.
  intros Hp. unfold rotatePiece. rewrite Hp. cbn zeta.
  apply tryKicks_displacement.
  by destruct (getWallKicks_ok (type p) (rotation p) ((rotation p + 1) `rem` 4)) as (_ & _ & ?).
Qed.

Lemma rotatePiece_in_place_witness :
  rotatePiece startedGame =
    Some (set_currentPiece
            (Some {| type := J_; x := 3; y := 0; rotation := (0 + 1) `rem` 4 |})
            startedGame).
Proof.
  apply (rotatePiece_in_place startedGame (spawned J_)); by vm_compute.
Defined.

Lemma rotatePiece_displacement_witness :
  rotatedGame = startedGame ∨
  ∃ x' y',
    rotatedGame = set_currentPiece
           (Some {| type := J_; x := x'; y := y'; rotation := (0 + 1) `rem` 4 |})
           startedGame ∧
    isValidPosition (board startedGame) J_ x' y' ((0 + 1) `rem` 4) = Some true ∧
    -2 ≤ x' - 3 ≤ 2 ∧ -2 ≤ y' - 0 ≤ 2.
Proof.
  apply (rotatePiece_displacement startedGame (spawned J_) rotatedGame); by vm_compute.
Defined.

(** ** More invariants of a session *)

Lemma spawnPiece_cases g g' :
  spawnPiece g = Some g' →
  ∃ t, nextPiece g = Some t ∧
    board g' = board g ∧ score g' = score g ∧ lines g' = lines g ∧
    nextPiece g' = (Bag.next (bag g) (rng g)).1.1 ∧
    ((isValidPosition (board g) t 3 0 0 = Some true ∧
      currentPiece g' = Some (spawned t) ∧ state g' = state g) ∨
     (isValidPosition (board g) t 3 0 0 = Some false ∧
      currentPiece g' = None ∧ state g' = gameover)).
Proof.
  unfold spawnPiece. destruct (Bag.next (bag g) (rng g)) as [[v b1] r1].
  destruct (nextPiece g) as [t|]; [|done]. cbn [board].
  change ((COLS - 4) `div` 2) with 3.
  destruct (isValidPosition _ _ _ _ _) as [[|]|] eqn:Hv; [| |done].
  - intros [= <-]. exists t. repeat split; try done. by left.
  - intros (-> & -> & _ & -> & -> & _ & -> & _ & _ & ->)%gameOver_frame.
    exists t. repeat split; try done. by right.
Qed.

Lemma clearLines_frame g g' :
  clearLines g = Some g' → 0 ≤ level g →
  0 ≤ score g ∧ Number.double (score g) → 0 ≤ lines g ∧ Number.double (lines g) →
  state g' = state g ∧ currentPiece g' = currentPiece g ∧
  nextPiece g' = nextPiece g ∧ bag g' = bag g ∧ rng g' = rng g ∧
  (score g ≤ score g' ∧ Number.double (score g')) ∧ lines g ≤ lines g'.
Proof.
  intros Hc Hl [Hs0 Hsd] [Hl0 Hld].
  destruct (linesToClear (board g)) as [rows|] eqn:Hrows;
    [|by unfold clearLines in Hc; rewrite Hrows in Hc].
  destruct (decide (rows = [])) as [->|Hne].
  { rewrite clearLines_nothing in Hc by done. injection Hc as <-.
    repeat split; (done || lia). }
  rewrite (clearLines_effect g rows Hrows Hne) in Hc. injection Hc as <-.
  cbn [state currentPiece nextPiece bag rng score lines].
  pose proof (lineScore_nonneg (length rows)) as Hs.
  assert (0 ≤ Number.mul (lineScore (length rows)) (level g)) as Hm.
  { apply fl_ge; [by apply double_small|]. by apply Z.mul_nonneg_nonneg. }
  destruct (add_grows (score g) _ Hs0 Hsd Hm) as [[_ Hd'] Hle].
  destruct (add_grows (lines g) (length rows) Hl0 Hld ltac:(lia)) as [_ Hle'].
  repeat split; done.
Qed.

Lemma lockPiece_cases g p g' :
  currentPiece g = Some p → lockPiece g = Some g' →
  ∃ shape b1 g1,
    getRotatedShape (type p) (rotation p) = Some shape ∧
    lockRows (color (TETROMINOES (type p))) (x p) (y p) 0 shape (board g) = Some b1 ∧
    clearLines (set_board b1 g) = Some g1 ∧ spawnPiece g1 = Some g'.
Proof.
  intros Hp. unfold lockPiece. rewrite Hp.
  destruct (getRotatedShape _ _) as [shape|]; [|done]. cbn zeta.
  destruct (lockRows _ _ _ _ _ _) as [b1|] eqn:Hb; [|done].
  destruct (clearLines _) as [g1|] eqn:Hc; [|done].
  intros Hs. by exists shape, b1, g1.
Qed.

Lemma sessionOk_lockPiece g g' :
  invariant g → sessionOk g → lockPiece g = Some g' → sessionOk g'.
Proof.
  intros Hi Hg Hl. destruct (currentPiece g) as [p|] eqn:Hp.
  2:{ unfold lockPiece in Hl. rewrite Hp in Hl. by injection Hl as <-. }
  destruct (lockPiece_cases g p g' Hp Hl) as (shape & b1 & g1 & _ & _ & Hc & Hs).
  apply clearLines_frame in Hc as (Est & Ecur & _ & _ & _ & [Hsc Hsd] & Hln).
  2:{ cbn. rewrite (inv_level g Hi). pose proof (levelOf_pos (lines g)). lia. }
  2:{ apply (ok_score g Hg). }
  2:{ apply (inv_lines g Hi). }
  cbn in Est, Ecur, Hsc, Hln.
  apply spawnPiece_cases in Hs as (t & _ & Eb & Es & El & _ & Hcase).
  pose proof (ok_score g Hg) as [? ?]. pose proof (ok_lines g Hg).
  assert (inPlay g) as Hplay by (apply (ok_state g Hg); by rewrite Hp).
  split; [| |split; [lia|by rewrite Es]|lia].
  - intros q Hq. destruct Hcase as [(Hv & Hcur & _)|(_ & Hcur & _)];
      rewrite Hcur in Hq; [|done]. injection Hq as <-. by rewrite Eb.
  - destruct Hcase as [(_ & Hcur & Hst)|(_ & Hcur & Hst)]; rewrite Hcur.
    + split; [intros _|done]. unfold inPlay. by rewrite Hst, Est.
    + split; [by intros []|]. unfold inPlay. rewrite Hst. by intros [|].
Qed.

Lemma sessionOk_movePiece dx dy g ok g' :
  sessionOk g → movePiece dx dy g = Some (ok, g') → sessionOk g'.
Proof.
  intros Hg. unfold movePiece. destruct (currentPiece g) as [p|] eqn:Hp;
    [|by intros [= <- <-]].
  destruct (isValidPosition _ _ _ _ _) as [[|]|] eqn:Hv; [| |done]; intros [= <- <-];
    [|done].
  destruct Hg as [Hpv Hst Hsc Hln]. split; try done.
  - intros q [= <-]. done.
  - rewrite Hp in Hst. cbn. by rewrite <-Hst.
Qed.

Lemma sessionOk_rotatePiece g g' :
  sessionOk g → rotatePiece g = Some g' → sessionOk g'.
Proof.
  intros Hg Hr. destruct (currentPiece g) as [p|] eqn:Hp.
  2:{ unfold rotatePiece in Hr. rewrite Hp in Hr. by injection Hr as <-. }
  unfold rotatePiece in Hr. rewrite Hp in Hr. cbn zeta in Hr.
  destruct (getWallKicks_ok (type p) (rotation p) ((rotation p + 1) `rem` 4))
    as (_ & _ & Hall).
  destruct (tryKicks_displacement _ _ _ _ _ Hall Hr) as [Heq|(x' & y' & Heq & Hv & _)];
    subst g'; [done|].
  destruct Hg as [Hpv Hst Hsc Hln]. split; try done.
  - intros q [= <-]. done.
  - rewrite Hp in Hst. cbn. by rewrite <-Hst.
Qed.

Lemma sessionOk_set_score s g :
  sessionOk g → 0 ≤ s ∧ Number.double s → sessionOk (set_score s g).
Proof. by intros [? ? ? ?] ?. Qed.

Lemma sessionOk_set_env e g : sessionOk g → sessionOk (set_env e g).
Proof. by intros [? ? ? ?]. Qed.

Lemma dropLoop_frame fuel : ∀ g acc d g',
  sessionOk g → dropLoop fuel g acc = Returns (d, g') →
  sessionOk g' ∧ acc ≤ d ∧ (is_Some (currentPiece g') ↔ is_Some (currentPiece g)).
Proof.
  induction fuel as [|fuel IH]; intros g acc d g' Hg; cbn [dropLoop];
    destruct (movePiece 0 1 g) as [[[|] g1]|] eqn:Hm; try done.
  - intros [= <- <-]. pose proof (sessionOk_movePiece _ _ _ _ _ Hg Hm) as Hg1.
    split; [done|]. split; [lia|]. rewrite (ok_state g1 Hg1), (ok_state g Hg).
    apply movePiece_cases in Hm as [->|(p & _ & ->)]; done.
  - intros Hl. pose proof (sessionOk_movePiece _ _ _ _ _ Hg Hm) as Hg1.
    apply IH in Hl as (? & ? & Hiff); [|done]. split; [done|]. split; [lia|].
    rewrite Hiff, (ok_state g1 Hg1), (ok_state g Hg).
    apply movePiece_cases in Hm as [->|(p & _ & ->)]; done.
  - intros [= <- <-]. pose proof (sessionOk_movePiece _ _ _ _ _ Hg Hm) as Hg1.
    split; [done|]. split; [lia|]. rewrite (ok_state g1 Hg1), (ok_state g Hg).
    apply movePiece_cases in Hm as [->|(p & _ & ->)]; done.
Qed.

Lemma sessionOk_startGame g g' : startGame g = Some g' → sessionOk g'.
Proof.
  destruct (startGame_cases g) as (b1 & v & r1 & Hn & Hv & ->).
  destruct (spawnPiece _) as [g2|] eqn:Hsp; [|done]. intros [= <-].
  apply spawnPiece_cases in Hsp as (t & Ht & Eb & Es & El & _ & Hcase).
  cbn in Ht, Eb, Es, El, Hcase.
  destruct Hcase as [(_ & Hcur & _)|(Hbad & _)];
    [|by rewrite spawn_on_empty in Hbad].
  split; cbn [score lines set_state]; rewrite ?Es, ?El; try done.
  - intros q Hq. cbn in Hq |- *. rewrite Hcur in Hq. injection Hq as <-.
    rewrite Eb. apply spawn_on_empty.
  - cbn. rewrite Hcur. split; [by left|done].
Qed.

Lemma sessionOk_step g g' : invariant g → sessionOk g → step g g' → sessionOk g'.
Proof.
  intros Hi Hg Hs. destruct Hs as [g g' H|g dx dy ok g' H|g g' H|g g' H|g fuel g' H|g g' H|g].
  - by eapply sessionOk_startGame.
  - by eapply sessionOk_movePiece.
  - by eapply sessionOk_rotatePiece.
  - unfold softDrop in H. destruct (movePiece 0 1 g) as [[[|] g1]|] eqn:Hm; [| |done];
      injection H as <-; pose proof (sessionOk_movePiece _ _ _ _ _ Hg Hm) as Hg1; [|done].
    apply sessionOk_set_score; [done|]. destruct (ok_score g1 Hg1) as [? ?].
    by apply add_grows.
  - unfold hardDrop in H. destruct (currentPiece g); [|by injection H as <-].
    destruct (dropLoop fuel g 0) as [[d g1]| |] eqn:Hl; [|done..].
    pose proof Hl as Hl'. apply invariant_dropLoop in Hl' as [Hi1 _]; [|done].
    apply dropLoop_frame in Hl as (Hg1 & Hd & _); [|done].
    destruct (lockPiece _) as [g2|] eqn:Hk; [|done]. injection H as <-.
    destruct (ok_score g1 Hg1) as [? ?].
    eapply sessionOk_lockPiece; [| |done].
    + by apply invariant_set_score.
    + apply sessionOk_set_score; [done|]. apply add_grows; [done..|].
      apply fl_ge; [by apply double_small|lia].
  - unfold autoDrop in H. destruct (movePiece 0 1 g) as [[[|] g1]|] eqn:Hm; [| |done].
    + injection H as <-. by eapply sessionOk_movePiece.
    + eapply sessionOk_lockPiece; [| |done].
      * by eapply invariant_movePiece.
      * by eapply sessionOk_movePiece.
  - destruct Hg as [Hpv Hst Hsc Hln]. unfold togglePause.
    destruct (state g) eqn:Es; try done; split; try done; cbn;
      rewrite Hst; unfold inPlay; rewrite Es; cbn; split; intros [|]; auto; done.
Qed.

Lemma reachable_sessionOk g : reachable g → sessionOk g.
Proof.
  induction 1 as [r e|g g' Hg IH Hs|g e _ IH].
  - unfold newGame. destruct (Bag.new r) as [b0 r0].
    destruct (Bag.next b0 r0) as [[v b1] r1]. split; cbn; try done.
    split; [by intros []|]. by intros [|].
  - eapply sessionOk_step; [|done..]. by apply reachable_invariant.
  - by apply sessionOk_set_env.
Qed.

(** X9: in every state of a session the active piece passes the collision
    test where it stands: its filled cells are inside the columns, above
    the floor, and on empty cells of the board. *)
Theorem active_piece_fits g p :
  reachable g → currentPiece g = Some p →
  ∃ shape, getRotatedShape (type p) (rotation p) = Some shape ∧
           fits (board g) (x p) (y p) shape.
Proof.
  intros Hg Hp.
  pose proof (reachable_invariant g Hg) as Hi.
  pose proof (ok_piece g (reachable_sessionOk g Hg) p Hp) as Hv.
  destruct (isValidPosition_fits (board g) (type p) (x p) (y p) (rotation p))
    as (shape & r & Hs & Hr & Hiff).
  { apply (inv_board g Hi). }
  { by apply (inv_rotation g Hi). }
  exists shape. split; [done|]. apply Hiff. congruence.
Qed.

Lemma reachable_startedGame : reachable startedGame.
Proof.
  apply (reachable_step emptyGame); [apply reachable_new|].
  apply step_startGame. by vm_compute.
Qed.


(** With a foreign leaderboard entry the eleventh hard drop of the sample
    game, which ends the game, raises; with no entry it returns, the game
    is over and its score is the high score. *)
Example hardDrop_raises_on_foreign :
  handleAll 20 (keydown "Enter" :: replicate 11 (keydown " ")) foreignGame = Raises ∧
  ∃ g, handleAll 20 (keydown "Enter" :: replicate 11 (keydown " ")) emptyGame = Returns g ∧
       state g = gameover ∧ score g = 186 ∧ highScore g = 186.
Proof. split; [by vm_compute|]. eexists. split; [by vm_compute|]. by vm_compute. Qed.

(** The fields a [gameOver] that raises leaves behind are those the same
    call leaves when the leaderboard is full of scores that are not
    below the game's. *)
Lemma gameOver_declined g :
  gameOver (set_env (fullEnv (score g) (env g)) g)
  = Some (set_env (fullEnv (score g) (env g)) (set_state gameover g)).
Proof.
  unfold gameOver. cbn. unfold Storage.isHighScore. cbn.
  rewrite bool_decide_false by lia. done.
Qed.

Lemma active_piece_fits_witness :
  ∃ shape, getRotatedShape J_ 0 = Some shape ∧
           fits (board startedGame) 3 0 shape.
Proof.
  apply (active_piece_fits startedGame (spawned J_)).
  - apply reachable_startedGame.
  - by vm_compute.
Defined.

(** X10: in every state of a session there is an active piece exactly when
    the state is [playing] or [paused]; before the first start and after a
    game over there is none. *)
Theorem piece_iff_in_play g :
  reachable g →
  (is_Some (currentPiece g) ↔ state g = playing ∨ state g = paused) ∧
  (state g = start ∨ state g = gameover → currentPiece g = None).
Proof.
  intros Hg. pose proof (ok_state g (reachable_sessionOk g Hg)) as Hst.
  split; [done|]. intros Hs.
  destruct (currentPiece g) eqn:Hc; [|done].
  destruct (proj1 Hst) as [E|E]; [by eauto|..]; destruct Hs; congruence.
Qed.

Lemma piece_iff_in_play_witness :
  (is_Some (currentPiece startedGame) ↔
   state startedGame = playing ∨ state startedGame = paused) ∧
  (state startedGame = start ∨ state startedGame = gameover →
   currentPiece startedGame = None).
Proof. apply (piece_iff_in_play startedGame). apply reachable_startedGame. Defined.

(** X11: in every state of a session the score and the line count are not
    negative, the level is at least 1, the drop interval is
    [max 100 (1000 - (level - 1) * 75)] (between 100 and 1000, and 100 from
    level 13 on), the rotation of the active piece is one of 0 to 3, every
    board cell is [null] or the colour of a piece type, and the next piece
    is defined. *)
Theorem session_ranges g :
  reachable g →
  0 ≤ score g ∧ 0 ≤ lines g ∧ 1 ≤ level g ∧
  dropInterval g = Z.max 100 (1000 - (level g - 1) * 75) ∧
  100 ≤ dropInterval g ≤ 1000 ∧
  (13 ≤ level g → dropInterval g = 100) ∧
  (∀ p, currentPiece g = Some p → 0 ≤ rotation p ≤ 3) ∧
  (∀ row cell, row ∈ board g → cell ∈ row →
     cell = null ∨ ∃ t, cell = str (color (TETROMINOES t))) ∧
  is_Some (nextPiece g).
Proof.
  intros Hg. destruct (reachable_invariant g Hg) as [[_ Hcells] _ Hl Hs Hr _ Hn].
  destruct (reachable_sessionOk g Hg) as [_ _ [Hsc _] Hln].
  pose proof (levelOf_pos (lines g)) as Hpos. rewrite <-Hl in Hpos.
  rewrite speedOf_exact in Hs by done.
  unfold MIN_SPEED, BASE_SPEED, SPEED_DECREASE_PER_LEVEL in Hs.
  repeat split; try done; try lia.
  all: try (specialize (Hr _ ltac:(eassumption)); lia).
  intros row cell Hrow Hcell. rewrite Forall_forall in Hcells.
    specialize (Hcells row Hrow). rewrite Forall_forall in Hcells. by apply Hcells.
Qed.

Lemma session_ranges_witness :
  0 ≤ score startedGame ∧ 0 ≤ lines startedGame ∧ 1 ≤ level startedGame ∧
  dropInterval startedGame = Z.max 100 (1000 - (level startedGame - 1) * 75) ∧
  100 ≤ dropInterval startedGame ≤ 1000 ∧
  (13 ≤ level startedGame → dropInterval startedGame = 100) ∧
  (∀ p, currentPiece startedGame = Some p → 0 ≤ rotation p ≤ 3) ∧
  (∀ row cell, row ∈ board startedGame → cell ∈ row →
     cell = null ∨ ∃ t, cell = str (color (TETROMINOES t))) ∧
  is_Some (nextPiece startedGame).
Proof. apply (session_ranges startedGame). apply reachable_startedGame. Defined.

Lemma getRotatedShape_O rotation :
  0 ≤ rotation → getRotatedShape O_ rotation = Some [[1; 1]; [1; 1]].
Proof.
  intros Hr. destruct (getRotatedShape_table O_ rotation Hr) as (shape & -> & Hs).
  assert (0 ≤ rotation `mod` 4 < 4) as Hm by (apply Z.mod_pos_bound; lia).
  revert Hs. generalize (Z.to_nat (rotation `mod` 4)). intros n Hn.
  destruct n as [|[|[|[|n]]]]; cbn in Hn; try congruence. by destruct n.
Qed.

(** X8: in a session the O piece always rotates, and on the spot: only its
    rotation state changes. *)
Theorem rotatePiece_O g p :
  reachable g → currentPiece g = Some p → type p = O_ →
  rotatePiece g =
    Some (set_currentPiece
            (Some {| type := O_; x := x p; y := y p;
                     rotation := (rotation p + 1) `rem` 4 |}) g).
Proof.
  intros Hg Hp Ht.
  pose proof (inv_rotation g (reachable_invariant g Hg) p Hp) as Hr.
  pose proof (ok_piece g (reachable_sessionOk g Hg) p Hp) as Hv.
  unfold rotatePiece. rewrite Hp. cbn zeta. rewrite Ht in *.
  unfold getWallKicks. rewrite decide_False by done. rewrite decide_True by done.
  cbn [tryKicks]. rewrite Z.add_0_r, Z.sub_0_r, Ht.
  assert (isValidPosition (board g) O_ (x p) (y p) ((rotation p + 1) `rem` 4) = Some true)
    as ->; [|done].
  unfold isValidPosition in Hv |- *.
  rewrite getRotatedShape_O in Hv by lia.
  rewrite getRotatedShape_O; [done|].
  rewrite Z.rem_mod_nonneg by lia. apply Z.mod_pos_bound. lia.
Qed.

(** X15: [startGame] returns from every game, with an empty board, the
    counters reset, the state [playing], and the first piece drawn after
    the bag's reset standing at column 3, row 0: a spawn on the empty board
    never fails. *)
Theorem startGame_fresh g :
  ∃ t g',
    startGame g = Some g' ∧
    (Bag.next (Bag.reset (bag g) (rng g)).1 (Bag.reset (bag g) (rng g)).2).1.1 = Some t ∧
    board g' = createEmptyBoard ∧
    currentPiece g' = Some {| type := t; x := 3; y := 0; rotation := 0 |} ∧
    state g' = playing ∧
    score g' = 0 ∧ level g' = 1 ∧ lines g' = 0 ∧ dropInterval g' = 1000 ∧
    is_Some (nextPiece g').
Proof.
  unfold startGame.
  pose proof (reset_bag (bag g) (rng g)) as [_ Hn].
  destruct (Bag.reset (bag g) (rng g)) as [b0 r0]. cbn [fst snd] in *.
  destruct (next_Some b0 r0 Hn) as [[t Ht] Hperm].
  destruct (Bag.next b0 r0) as [[v b1] r1]. cbn [fst snd] in *. subst v.
  exists t.
  unfold spawnPiece. cbn [bag rng nextPiece board].
  destruct (next_Some b1 r1 Hperm) as [Hv2 _].
  destruct (Bag.next b1 r1) as [[v2 b2] r2]. cbn [fst snd] in *.
  change ((COLS - 4) `div` 2) with 3. rewrite spawn_on_empty.
  eexists. split; [reflexivity|]. by repeat split.
Qed.

(** ** What a lock writes *)

Lemma cellAt_nonneg (b : Board) r c :
  0 ≤ r → 0 ≤ c →
  cellAt b r c = b !! Z.to_nat r ≫= λ row, row !! Z.to_nat c.
Proof.
  intros Hr Hc. unfold cellAt, index. rewrite decide_True by done.
  destruct (b !! Z.to_nat r) as [row|]; [|done]. cbn. by rewrite decide_True.
Qed.

Lemma cellAt_insert b (i j : nat) row v r c :
  b !! i = Some row → (j < length row)%nat → 0 ≤ r → 0 ≤ c →
  cellAt (<[i := <[j := v]> row]> b) r c =
    if bool_decide (Z.of_nat i = r ∧ Z.of_nat j = c) then Some v else cellAt b r c.
Proof.
  intros Hi Hj Hr Hc. rewrite !cellAt_nonneg by done.
  destruct (decide (i = Z.to_nat r)) as [Eq|Ne].
  - rewrite <-Eq. rewrite list_lookup_insert_eq by (by eapply lookup_lt_Some).
    rewrite Hi. cbn.
    destruct (decide (j = Z.to_nat c)) as [Eq'|Ne'].
    + rewrite <-Eq', list_lookup_insert_eq by done.
      case_bool_decide; (done || lia).
    + rewrite list_lookup_insert_ne by done.
      case_bool_decide; (done || lia).
  - rewrite list_lookup_insert_ne by done.
    case_bool_decide; (done || lia).
Qed.

Lemma lockCell_cellAt color x y row col v b b' r c :
  dims b → lockCell color x y row col v b = Some b' →
  0 ≤ r < ROWS → 0 ≤ c < COLS →
  cellAt b' r c =
    if bool_decide (v ≠ 0 ∧ y + row = r ∧ x + col = c)
    then Some (str color) else cellAt b r c.
Proof.
  intros [Hlen Hw] Hl Hr Hc. unfold lockCell in Hl.
  destruct (decide (v = 0)) as [->|Hv].
  { injection Hl as <-. case_bool_decide as Hd; [by destruct Hd|done]. }
  case_decide as Hin.
  - destruct (b !! Z.to_nat (y + row)) as [rw|] eqn:Hrw; [|done]. injection Hl as <-.
    pose proof (Forall_lookup_1 _ _ _ _ Hw Hrw) as Hrl. cbn beta in Hrl.
    unfold assign. rewrite decide_True by lia.
    rewrite cellAt_insert by (done || lia).
    repeat case_bool_decide; try done; lia.
  - injection Hl as <-. case_bool_decide; (done || lia).
Qed.

Lemma lockCell_dims color x y row col v b b' :
  dims b → lockCell color x y row col v b = Some b' → dims b'.
Proof.
  intros Hb Hl. apply dims_grid in Hb.
  destruct (lockCell_grid _ color x y row col v b I Hb) as (b2 & Hl2 & Hb2).
  apply dims_grid. congruence.
Qed.

Lemma lockCols_cellAt color x y row cells : ∀ col b b' r c,
  dims b → lockCols color x y row col cells b = Some b' →
  0 ≤ r < ROWS → 0 ≤ c < COLS →
  dims b' ∧
  ((∃ (i : nat) v, cells !! i = Some v ∧ v ≠ 0 ∧ y + row = r ∧ x + (col + i) = c) →
     cellAt b' r c = Some (str color)) ∧
  (¬ (∃ (i : nat) v, cells !! i = Some v ∧ v ≠ 0 ∧ y + row = r ∧ x + (col + i) = c) →
     cellAt b' r c = cellAt b r c) ∧
  (cellAt b r c = Some (str color) → cellAt b' r c = Some (str color)).
Proof.
  induction cells as [|v cells IH]; intros col b b' r c Hb Hl Hr Hc; cbn [lockCols] in Hl.
  { injection Hl as <-. split; [done|]. split; [|done]. by intros (i & w & Hi & _). }
  destruct (lockCell color x y row col v b) as [b1|] eqn:Hl1; [|done].
  pose proof (lockCell_dims _ _ _ _ _ _ _ _ Hb Hl1) as Hb1.
  pose proof (lockCell_cellAt _ _ _ _ _ _ _ _ r c Hb Hl1 Hr Hc) as H1.
  destruct (IH (col + 1) b1 b' r c Hb1 Hl Hr Hc) as (Hb' & Hyes & Hno & Hkeep).
  split; [done|]. split; [|split].
  - intros ([|i] & w & Hi & Hw & Hy & Hx).
    + injection Hi as ->. apply Hkeep. rewrite H1.
      case_bool_decide as Hd; [done|]. destruct Hd. repeat split; (done || lia).
    + apply Hyes. exists i, w. repeat split; (done || lia).
  - intros Hn. rewrite Hno, H1.
    + case_bool_decide as Hd; [|done]. destruct Hn. exists 0%nat, v.
      destruct Hd as (? & ? & ?). repeat split; (done || lia).
    + intros (i & w & Hi & Hw & Hy & Hx). destruct Hn. exists (S i), w.
      repeat split; (done || lia).
  - intros Hold. apply Hkeep. rewrite H1. by case_bool_decide.
Qed.

Lemma lockRows_cellAt color x y shape : ∀ row b b' r c,
  dims b → lockRows color x y row shape b = Some b' →
  0 ≤ r < ROWS → 0 ≤ c < COLS →
  dims b' ∧
  ((∃ (i j : nat) cells v, shape !! i = Some cells ∧ cells !! j = Some v ∧ v ≠ 0 ∧
       y + (row + i) = r ∧ x + j = c) →
     cellAt b' r c = Some (str color)) ∧
  (¬ (∃ (i j : nat) cells v, shape !! i = Some cells ∧ cells !! j = Some v ∧ v ≠ 0 ∧
       y + (row + i) = r ∧ x + j = c) →
     cellAt b' r c = cellAt b r c) ∧
  (cellAt b r c = Some (str color) → cellAt b' r c = Some (str color)).
Proof.
  induction shape as [|cells shape IH]; intros row b b' r c Hb Hl Hr Hc;
    cbn [lockRows] in Hl.
  { injection Hl as <-. split; [done|]. split; [|done].
    intros (i & j & cs & w & Hi & _). by destruct i. }
  destruct (lockCols color x y row 0 cells b) as [b1|] eqn:Hl1; [|done].
  destruct (lockCols_cellAt _ _ _ _ _ _ _ _ r c Hb Hl1 Hr Hc) as (Hb1 & Hyes1 & Hno1 & Hkeep1).
  destruct (IH (row + 1) b1 b' r c Hb1 Hl Hr Hc) as (Hb' & Hyes & Hno & Hkeep).
  split; [done|]. split; [|split].
  - intros ([|i] & j & cs & w & Hi & Hj & Hw & Hy & Hx).
    + injection Hi as ->. apply Hkeep, Hyes1. exists j, w.
      repeat split; (done || lia).
    + apply Hyes. exists i, j, cs, w. repeat split; (done || lia).
  - intros Hn. rewrite Hno, Hno1; [done| |].
    + intros (j & w & Hj & Hw & Hy & Hx). destruct Hn. exists 0%nat, j, cells, w.
      repeat split; (done || lia).
    + intros (i & j & cs & w & Hi & Hj & Hw & Hy & Hx). destruct Hn.
      exists (S i), j, cs, w. repeat split; (done || lia).
  - intros Hold. by apply Hkeep, Hkeep1.
Qed.

(** X16: locking a shape into a board of the right dimensions returns, and
    in the new board a cell of the grid holds the colour if a filled cell
    of the shape lies on it and is as it was otherwise; filled cells that
    lie outside the grid are dropped. *)
Theorem lockRows_footprint color x y shape b :
  dims b →
  ∃ b', lockRows color x y 0 shape b = Some b' ∧ dims b' ∧
    ∀ r c, 0 ≤ r < ROWS → 0 ≤ c < COLS →
      (covers shape x y r c → cellAt b' r c = Some (str color)) ∧
      (¬ covers shape x y r c → cellAt b' r c = cellAt b r c).
Proof.
  intros Hb. pose proof Hb as Hg. apply dims_grid in Hg.
  destruct (lockRows_grid _ color x y shape 0 b I Hg) as (b' & Hl & _).
  exists b'. split; [done|].
  split; [by destruct (lockRows_cellAt _ _ _ _ _ _ _ 0 0 Hb Hl)|].
  intros r c Hr Hc.
  destruct (lockRows_cellAt _ _ _ _ _ _ _ r c Hb Hl Hr Hc) as (_ & Hyes & Hno & _).
  split.
  - intros (row & col & (cells & v & Hi & Hj & Hv) & Hy & Hx). apply Hyes.
    exists row, col, cells, v. repeat split; (done || lia).
  - intros Hn. apply Hno. intros (i & j & cells & v & Hi & Hj & Hv & Hy & Hx).
    apply Hn. exists i, j. split; [by exists cells, v|]. lia.
Qed.

Lemma lockRows_footprint_witness :
  ∃ b', lockRows "#BA68C8" 3 18 0 [[0; 1; 0]; [1; 1; 1]; [0; 0; 0]] createEmptyBoard = Some b' ∧
    dims b' ∧
    ∀ r c, 0 ≤ r < ROWS → 0 ≤ c < COLS →
      (covers [[0; 1; 0]; [1; 1; 1]; [0; 0; 0]] 3 18 r c →
         cellAt b' r c = Some (str "#BA68C8")) ∧
      (¬ covers [[0; 1; 0]; [1; 1; 1]; [0; 0; 0]] 3 18 r c →
         cellAt b' r c = cellAt createEmptyBoard r c).
Proof.
  apply (lockRows_footprint "#BA68C8" 3 18 [[0; 1; 0]; [1; 1; 1]; [0; 0; 0]] createEmptyBoard).
  apply dims_createEmptyBoard.
Defined.

(** ** The ghost piece and the hand-over after a lock *)

Lemma ghostLoop_dropLoop fuel : ∀ g p acc,
  currentPiece g = Some p →
  match dropLoop fuel g acc with
  | Returns (d, _) =>
      ghostLoop fuel (board g) (type p) (x p) (rotation p) (y p) = Returns (y p + (d - acc))
  | Raises => ghostLoop fuel (board g) (type p) (x p) (rotation p) (y p) = Raises
  | OutOfFuel => ghostLoop fuel (board g) (type p) (x p) (rotation p) (y p) = OutOfFuel
  end.
Proof.
  induction fuel as [|fuel IH]; intros g p acc Hp; cbn [dropLoop ghostLoop];
    unfold movePiece; rewrite Hp; cbn zeta; rewrite Z.add_0_r;
    destruct (isValidPosition _ _ _ _ _) as [[|]|]; try done;
    try (f_equal; lia).
  specialize (IH (set_currentPiece
                    (Some {| type := type p; x := x p; y := y p + 1;
                             rotation := rotation p |}) g)
                 {| type := type p; x := x p; y := y p + 1; rotation := rotation p |}
                 (acc + 1) eq_refl).
  cbn [board set_currentPiece type x y rotation] in IH.
  destruct (dropLoop fuel _ (acc + 1)) as [[d g']| |]; [|done..].
  rewrite IH. f_equal. lia.
Qed.

(** X20: in a session the row the ghost piece is drawn at is the row a hard
    drop moves the piece to: both loops stop after the same [d] rows, at a
    place that passes the collision test and from which the piece cannot
    go one row further down. No ghost is drawn when [d] is 0. *)
Theorem ghost_is_landing g p fuel :
  reachable g → currentPiece g = Some p → (dropFuel g ≤ fuel)%nat →
  ∃ d, 0 ≤ d ∧
    dropLoop fuel g 0 = Returns (d, dropped g p d) ∧
    ghostLoop fuel (board g) (type p) (x p) (rotation p) (y p) = Returns (y p + d) ∧
    ghostY fuel g = Returns (if decide (d = 0) then None else Some (y p + d)) ∧
    validAt g p d ∧ ¬ validAt g p (d + 1).
Proof.
  intros Hg Hp Hfuel. unfold dropFuel in Hfuel. rewrite Hp in Hfuel.
  pose proof (reachable_invariant g Hg) as Hi.
  destruct (dropLoop_spec fuel g p 0 Hp (inv_board g Hi)) as (d & Hd & Hall & Hstop & Hl);
    [by apply (inv_rotation g Hi)|done|].
  rewrite Z.add_0_l in Hl.
  pose proof (ghostLoop_dropLoop fuel g p 0 Hp) as Hgh. rewrite Hl in Hgh.
  rewrite Z.sub_0_r in Hgh.
  exists d. split; [done|]. split; [done|]. split; [done|]. split; [|split; [|done]].
  - unfold ghostY. rewrite Hp, Hgh. f_equal.
    destruct (decide (d = 0)); [by rewrite decide_True by lia|by rewrite decide_False by lia].
  - destruct (decide (d = 0)) as [->|]; [|apply Hall; lia].
    unfold validAt. rewrite Z.add_0_r.
    apply (ok_piece g (reachable_sessionOk g Hg) p Hp).
Qed.

Lemma reachable_secondGame : reachable secondGame.
Proof.
  apply (reachable_step startedGame); [apply reachable_startedGame|].
  apply (step_hardDrop _ 20). by vm_compute.
Qed.

Lemma ghost_is_landing_witness :
  ∃ d, 0 ≤ d ∧
    dropLoop 20 startedGame 0 = Returns (d, dropped startedGame (spawned J_) d) ∧
    ghostLoop 20 (board startedGame) J_ 3 0 0 = Returns (0 + d) ∧
    ghostY 20 startedGame = Returns (if decide (d = 0) then None else Some (0 + d)) ∧
    validAt startedGame (spawned J_) d ∧ ¬ validAt startedGame (spawned J_) (d + 1).
Proof.
  apply (ghost_is_landing startedGame (spawned J_) 20).
  - apply reachable_startedGame.
  - by vm_compute.
  - vm_compute. lia.
Defined.

Lemma rotatePiece_O_witness :
  rotatePiece secondGame =
    Some (set_currentPiece
            (Some {| type := O_; x := 3; y := 0; rotation := (0 + 1) `rem` 4 |})
            secondGame).
Proof.
  apply (rotatePiece_O secondGame (spawned O_)).
  - apply reachable_secondGame.
  - by vm_compute.
  - reflexivity.
Defined.

Lemma clearLines_fields g g' :
  clearLines g = Some g' →
  state g' = state g ∧ currentPiece g' = currentPiece g ∧
  nextPiece g' = nextPiece g ∧ bag g' = bag g ∧ rng g' = rng g ∧ env g' = env g.
Proof.
  unfold clearLines. destruct (linesToClear (board g)) as [[|k rows]|]; [| |done].
  { by intros [= <-]. }
  cbn zeta. by case_decide; intros [= <-].
Qed.





(** ** Keyboard and game loop *)

(** X22: a paused game is left as it is by every run of key presses and
    animation frames: the keyboard handler ignores all keys, the pause keys
    included, unless the state is [playing] (or [Enter] is pressed before a
    start or after a game over), and the game loop does nothing. *)
Theorem paused_ignores_events fuel evs g :
  state g = paused → handleAll fuel evs g = Returns g.
Proof.
  intros Hp. induction evs as [|ev evs IH]; [done|].
  cbn [handleAll]. destruct ev as [key|due]; cbn [handle].
  - unfold handleKeyDown. rewrite decide_True by congruence.
    rewrite decide_False; [done|]. intros [_ [?|?]]; congruence.
  - unfold gameLoop. by rewrite decide_True by congruence.
Qed.

Lemma paused_ignores_events_witness :
  handleAll 20 [keydown "p"; frame true; keydown "Escape"; keydown " "] pausedGame
  = Returns pausedGame.
Proof. apply (paused_ignores_events 20 _ pausedGame). by vm_compute. Defined.

Lemma dropLoop_mono fuel : ∀ fuel' g acc r,
  dropLoop fuel g acc = Returns r → (fuel ≤ fuel')%nat → dropLoop fuel' g acc = Returns r.
Proof.
  induction fuel as [|fuel IH]; intros fuel' g acc r Hrun Hle.
  - destruct fuel'; cbn [dropLoop] in *;
      destruct (movePiece 0 1 g) as [[[|] g1]|]; done.
  - destruct fuel' as [|fuel']; [lia|]. cbn [dropLoop] in *.
    destruct (movePiece 0 1 g) as [[[|] g1]|]; [|done..].
    apply IH; [done|lia].
Qed.

Lemma hardDrop_mono fuel fuel' g g' :
  hardDrop fuel g = Returns g' → (fuel ≤ fuel')%nat → hardDrop fuel' g = Returns g'.
Proof.
  unfold hardDrop. destruct (currentPiece g); [|done].
  destruct (dropLoop fuel g 0) as [[d g1]| |] eqn:Hrun; [|done..].
  intros Hl Hle. by rewrite (dropLoop_mono fuel fuel' g 0 _ Hrun Hle).
Qed.



(** The handlers leave an entry that is not foreign not foreign. *)
Lemma gameOver_entry g g' :
  gameOver g = Some g' → Storage.entry (env g') ≠ Storage.foreign.
Proof.
  unfold gameOver. cbn zeta. cbn [env set_state score level lines].
  destruct (Storage.entry (env g)) as [item|] eqn:He; [|done].
  cbn [Storage.isHighScoreOf Storage.saveHighScoreOf].
  destruct (Storage.isHighScore item (score g)) as [[|]|]; [| |done].
  - by intros [= <-].
  - intros [= <-]. cbn. by rewrite He.
Qed.

Lemma spawnPiece_entry g g' :
  spawnPiece g = Some g' → Storage.entry (env g) ≠ Storage.foreign →
  Storage.entry (env g') ≠ Storage.foreign.
Proof.
  unfold spawnPiece. destruct (Bag.next (bag g) (rng g)) as [[v b1] r1].
  destruct (nextPiece g) as [t|]; [|done]. cbn [board].
  destruct (isValidPosition _ _ _ _ _) as [[|]|]; [| |done].
  - by intros [= <-].
  - intros Hg _. by eapply gameOver_entry.
Qed.

Lemma lockPiece_entry g g' :
  lockPiece g = Some g' → Storage.entry (env g) ≠ Storage.foreign →
  Storage.entry (env g') ≠ Storage.foreign.
Proof.
  intros Hl He. destruct (currentPiece g) as [p|] eqn:Hp.
  2:{ unfold lockPiece in Hl. rewrite Hp in Hl. by injection Hl as <-. }
  destruct (lockPiece_cases g p g' Hp Hl) as (shape & b1 & g1 & _ & _ & Hc & Hs).
  apply clearLines_fields in Hc as (_ & _ & _ & _ & _ & Eenv).
  apply (spawnPiece_entry g1 g' Hs). by rewrite Eenv.
Qed.

Lemma step_entry g g' :
  step g g' → Storage.entry (env g) ≠ Storage.foreign →
  Storage.entry (env g') ≠ Storage.foreign.
Proof.
  intros Hs He. destruct Hs as [g g' H|g dx dy ok g' H|g g' H|g g' H|g fuel g' H|g g' H|g].
  - destruct (startGame_cases g) as (b1 & v & r1 & _ & _ & Hst). rewrite Hst in H.
    destruct (spawnPiece _) as [g2|] eqn:Hsp; [|done]. injection H as <-.
    by apply (spawnPiece_entry _ _ Hsp).
  - by rewrite (movePiece_env _ _ _ _ _ H).
  - unfold rotatePiece in H. destruct (currentPiece g) as [p|]; [|by injection H as <-].
    by apply tryKicks_cases in H as [->|(x' & y' & ->)].
  - unfold softDrop in H. destruct (movePiece 0 1 g) as [[[|] g1]|] eqn:Hm; [| |done];
      injection H as <-; cbn [env set_score]; by rewrite (movePiece_env _ _ _ _ _ Hm).
  - unfold hardDrop in H. destruct (currentPiece g); [|by injection H as <-].
    destruct (dropLoop fuel g 0) as [[d g1]| |] eqn:Hl; [|done..].
    destruct (lockPiece _) as [g2|] eqn:Hk; [|done]. injection H as <-.
    apply (lockPiece_entry _ _ Hk). cbn [env set_score]. by rewrite (dropLoop_env _ _ _ _ _ Hl).
  - unfold autoDrop in H. destruct (movePiece 0 1 g) as [[[|] g1]|] eqn:Hm; [| |done].
    + injection H as <-. by rewrite (movePiece_env _ _ _ _ _ Hm).
    + apply (lockPiece_entry _ _ H). by rewrite (movePiece_env _ _ _ _ _ Hm).
  - unfold togglePause. by destruct (state g).
Qed.

Lemma handle_session ev g :
  reachable g → Storage.entry (env g) ≠ Storage.foreign →
  ∃ fuel0 g', (g' = g ∨ step g g') ∧
    ∀ fuel, (fuel0 ≤ fuel)%nat → handle fuel ev g = Returns g'.
Proof.
  intros Hr He. pose proof (reachable_invariant g Hr) as Hg.
  destruct ev as [key|due]; cbn [handle].
  - unfold handleKeyDown. case_decide as Hplay.
    { case_decide as Hstart.
      - destruct (startGame_returns g) as [g' Hs]. exists 0%nat, g'.
        split; [right; by apply step_startGame|]. intros fuel _. by rewrite Hs.
      - exists 0%nat, g. by split; [left|]. }
    repeat case_decide.
    + destruct (movePiece_returns (-1) 0 g Hg) as (ok & g' & Hm). exists 0%nat, g'.
      split; [right; by eapply step_movePiece|]. intros fuel _. by rewrite Hm.
    + destruct (movePiece_returns 1 0 g Hg) as (ok & g' & Hm). exists 0%nat, g'.
      split; [right; by eapply step_movePiece|]. intros fuel _. by rewrite Hm.
    + assert (is_Some (softDrop g)) as [g' Hs].
      { unfold softDrop. by destruct (movePiece_returns 0 1 g Hg) as ([|] & g' & ->). }
      exists 0%nat, g'. split; [right; by apply step_softDrop|]. intros fuel _. by rewrite Hs.
    + destruct (rotatePiece_returns g Hg) as [g' Hs]. exists 0%nat, g'.
      split; [right; by apply step_rotatePiece|]. intros fuel _. by rewrite Hs.
    + destruct (hardDrop_returns g (dropFuel g) Hg He) as [g' Hh]; [done|].
      exists (dropFuel g), g'. split; [right; by eapply step_hardDrop|].
      intros fuel Hfuel. by apply (hardDrop_mono (dropFuel g)).
    + exists 0%nat, (togglePause g). split; [right; apply step_togglePause|done].
    + exists 0%nat, g. by split; [left|].
  - unfold gameLoop. case_decide; [exists 0%nat, g; by split; [left|]|].
    destruct due; [|exists 0%nat, g; by split; [left|]].
    destruct (autoDrop_returns g Hg He) as [g' Ha]. exists 0%nat, g'.
    split; [right; by apply step_autoDrop|]. intros fuel _. by rewrite Ha.
Qed.

(** X26: from every state of a session whose leaderboard entry is none of
    the foreign ones, every run of key presses and animation frames is
    handled to the end: no handler raises, the loop of a hard drop comes
    to its end, and the state afterwards is a state of the session again,
    its entry still not foreign, so that the invariants above hold after
    every event. *)
Theorem events_stay_in_session evs : ∀ g,
  reachable g → Storage.entry (env g) ≠ Storage.foreign →
  ∃ fuel0 g', reachable g' ∧ Storage.entry (env g') ≠ Storage.foreign ∧
    ∀ fuel, (fuel0 ≤ fuel)%nat → handleAll fuel evs g = Returns g'.
Proof.
  induction evs as [|ev evs IH]; intros g Hr He.
  - exists 0%nat, g. by split.
  - destruct (handle_session ev g Hr He) as (f1 & g1 & Hstep & Hrun).
    assert (reachable g1 ∧ Storage.entry (env g1) ≠ Storage.foreign) as [Hr1 He1].
    { destruct Hstep as [->|Hstep]; [done|].
      split; [by eapply reachable_step|by eapply step_entry]. }
    destruct (IH g1 Hr1 He1) as (f2 & g2 & Hr2 & He2 & Hrest).
    exists (f1 `max` f2)%nat, g2. split; [done|]. split; [done|].
    intros fuel Hfuel. cbn [handleAll]. rewrite Hrun by lia. apply Hrest. lia.
Qed.

Lemma events_stay_in_session_witness :
  ∃ fuel0 g', reachable g' ∧ Storage.entry (env g') ≠ Storage.foreign ∧
    ∀ fuel, (fuel0 ≤ fuel)%nat →
      handleAll fuel [keydown "Enter"; keydown "ArrowLeft"; keydown "ArrowUp";
                      frame true; keydown " "; keydown "p"] emptyGame = Returns g'.
Proof. apply (events_stay_in_session _ emptyGame); [apply reachable_new|done]. Defined.

(** ** High scores *)

Section storage.
Import Storage.

Lemma insertScore_Permutation s l : insertScore s l ≡ₚ s :: l.
Proof.
  induction l as [|h t IH]; [done|]. cbn [insertScore]. case_decide; [done|].
  by rewrite IH, Permutation_swap.
Qed.

Lemma sortScores_Permutation l : sortScores l ≡ₚ l.
Proof.
  induction l as [|a l IH]; [done|]. cbn [sortScores foldr].
  rewrite insertScore_Permutation. by f_equiv.
Qed.

Lemma descending_cons a l :
  descending (a :: l) ↔ descending l ∧ Forall (λ b, score b ≤ score a) l.
Proof.
  unfold descending. split.
  - intros H. apply Sorted_StronglySorted in H.
    + apply StronglySorted_inv in H as [H1 H2]. split; [|done].
      by apply StronglySorted_Sorted.
    + intros x y z ? ?. lia.
  - intros [H1 H2]. constructor; [done|]. destruct H2; by constructor.
Qed.

Lemma insertScore_descending s l : descending l → descending (insertScore s l).
Proof.
  induction l as [|h t IH]; intros Hl; cbn [insertScore].
  { by repeat constructor. }
  case_decide as Hd.
  - constructor; [done|]. by constructor.
  - apply descending_cons in Hl as [Ht Hall]. apply descending_cons.
    split; [by apply IH|]. rewrite insertScore_Permutation.
    constructor; [lia|done].
Qed.

Lemma sortScores_descending l : descending (sortScores l).
Proof.
  induction l as [|a l IH]; [constructor|]. by apply insertScore_descending.
Qed.

Lemma descending_take n l : descending l → descending (take n l).
Proof.
  revert n. induction l as [|a l IH]; intros [|n] Hl; cbn; try constructor.
  - apply IH. by apply descending_cons in Hl as [? _].
  - apply descending_cons in Hl as [_ Hall]. destruct l; destruct n; cbn; constructor.
    by inversion Hall.
Qed.

(** X23: a save that can write leaves, whatever was stored before, a
    leaderboard in descending order of score with the old entries and the
    new one up to ten of them, and every entry left out scores no more
    than any entry kept. A save that cannot write returns [false] and
    leaves the entry as it was. *)
Theorem saveHighScore_leaderboard item s :
  let board := getHighScores (saveHighScore true item s).2 in
  descending board ∧
  length board = ((length (getHighScores item) + 1) `min` MAX_SCORES)%nat ∧
  board ⊆+ s :: getHighScores item ∧
  (∀ e, e ∈ s :: getHighScores item → e ∉ board →
        ∀ k, k ∈ board → score e ≤ score k) ∧
  saveHighScore false item s = (false, item).
Proof.
  cbn zeta. unfold saveHighScore. cbn [snd getHighScores].
  set (old := getHighScores item).
  assert (sortScores (old ++ [s]) ≡ₚ s :: old) as Hperm.
  { by rewrite sortScores_Permutation, Permutation_app_comm. }
  pose proof (sortScores_descending (old ++ [s])) as Hsorted.
  split; [by apply descending_take|]. split; [|split; [|split; [|done]]].
  - rewrite length_take, Hperm. cbn [length]. lia.
  - rewrite <-Hperm. apply sublist_submseteq, sublist_take.
  - intros e He Hout k Hk.
    rewrite <-Hperm in He.
    rewrite <-(take_drop MAX_SCORES (sortScores (old ++ [s]))) in He, Hsorted.
    apply elem_of_app in He as [He|He]; [done|].
    revert Hsorted Hk He. generalize (take MAX_SCORES (sortScores (old ++ [s]))).
    generalize (drop MAX_SCORES (sortScores (old ++ [s]))). intros dr tk.
    induction tk as [|a tk IH]; intros Hs Hk He; [by apply elem_of_nil in Hk|].
    cbn in Hs. apply descending_cons in Hs as [Hs Hall].
    apply elem_of_cons in Hk as [->|Hk]; [|by apply IH].
    rewrite Forall_forall in Hall. apply Hall. apply elem_of_app. by right.
Qed.

Lemma written_leaderboard item :
  written item →
  descending (getHighScores item) ∧ (length (getHighScores item) ≤ MAX_SCORES)%nat.
Proof.
  intros [|it s].
  - split; [constructor|cbn; lia].
  - unfold saveHighScore. cbn [snd getHighScores].
    split; [apply descending_take, sortScores_descending|].
    rewrite length_take. lia.
Qed.

Lemma insertScore_top a l :
  Forall (λ b, score b ≤ score a) l → insertScore a l = a :: l.
Proof.
  intros Hall. destruct l as [|h t]; [done|]. cbn [insertScore].
  inversion Hall; subst. by rewrite decide_True.
Qed.

(** Where a new score goes in a leaderboard in order: behind the scores
    that are not smaller, in front of the smaller ones. *)
Lemma sortScores_snoc old s :
  descending old →
  ∃ pre post, old = pre ++ post ∧ sortScores (old ++ [s]) = pre ++ s :: post ∧
              Forall (λ e, score s ≤ score e) pre ∧
              Forall (λ e, score e < score s) post.
Proof.
  unfold sortScores. rewrite foldr_app. cbn [foldr insertScore].
  induction old as [|a rest IH]; intros Hd.
  { exists [], []. by repeat split. }
  apply descending_cons in Hd as [Hrest Hall].
  destruct (IH Hrest) as (pre & post & -> & Hs & Hpre & Hpost).
  cbn [foldr]. rewrite Hs.
  destruct (decide (score s ≤ score a)) as [Hle|Hgt].
  - exists (a :: pre), post. split; [done|]. split; [|split; [by constructor|done]].
    apply insertScore_top. apply Forall_app in Hall as [Hall1 Hall2].
    apply Forall_app. split; [done|]. by constructor.
  - assert (pre = []) as ->.
    { destruct pre as [|h pre]; [done|]. inversion Hpre; subst. inversion Hall; subst. lia. }
    exists [], (a :: post). cbn. split; [done|]. rewrite decide_False by lia.
    split; [|split; [done|constructor; [lia|done]]].
    by rewrite insertScore_top.
Qed.

(** What [isHighScore] says of a save that can write. *)
Lemma isHighScore_written item s :
  written item →
  ∃ b, isHighScore item (score s) = Some b ∧
    (b = true →
       s ∈ getHighScores (saveHighScore true item s).2 ∧
       (saveHighScore true item s).1 = true) ∧
    (b = false →
       (saveHighScore true item s).2 = stored (getHighScores item)).
Proof.
  intros [Hd Hlen]%written_leaderboard.
  destruct (sortScores_snoc _ s Hd) as (pre & post & Hold & Hs & Hpre & Hpost).
  unfold isHighScore, saveHighScore. cbn [fst snd getHighScores]. cbn zeta.
  set (old := getHighScores item) in *. rewrite Hs.
  assert (∀ l : list GameScore, s ∈ l →
            existsb (λ e, bool_decide (score e = score s ∧ date e = date s)) l = true)
    as Hex.
  { intros l Hin. apply existsb_exists. exists s.
    split; [by apply list_elem_of_In|]. by apply bool_decide_eq_true_2. }
  case_decide as Hfew.
  - exists true. split; [done|]. split; [|done]. intros _.
    rewrite take_ge.
    2:{ rewrite length_app. cbn [length]. rewrite Hold, length_app in Hfew. lia. }
    assert (s ∈ pre ++ s :: post) by (apply elem_of_app; right; by left).
    split; [done|by apply Hex].
  - destruct (last old) as [l|] eqn:Hlast.
    2:{ apply last_None in Hlast. rewrite Hlast in Hfew. cbn in Hfew. unfold MAX_SCORES in *. lia. }
    cbn [fmap option_fmap option_map]. eexists. split; [reflexivity|].
    assert (length pre + length post = MAX_SCORES)%nat as Hten.
    { rewrite Hold, length_app in Hlen, Hfew. lia. }
    split.
    + intros Hb. apply bool_decide_eq_true_1 in Hb.
      assert (post ≠ []) as Hne.
      { intros ->. rewrite app_nil_r in Hold. rewrite Hold, last_lookup in Hlast.
        apply list_elem_of_lookup_2 in Hlast. rewrite Forall_forall in Hpre.
        specialize (Hpre l Hlast). lia. }
      assert (length pre < MAX_SCORES)%nat by (destruct post; [done|cbn in Hten; lia]).
      assert (s ∈ take MAX_SCORES (pre ++ s :: post)) as Hin.
      { rewrite take_app_ge by lia.
        apply elem_of_app. right. destruct (MAX_SCORES - length pre)%nat eqn:E; [lia|].
        cbn. by left. }
      split; [done|by apply Hex].
    + intros Hb. apply bool_decide_eq_false_1 in Hb.
      assert (post = []) as ->.
      { destruct post as [|h post] using rev_ind; [done|]. clear IHpost.
        rewrite Hold, app_assoc, last_snoc in Hlast. injection Hlast as ->.
        apply Forall_app in Hpost as [_ Hh]. inversion Hh; subst. lia. }
      rewrite app_nil_r in Hold. rewrite Nat.add_0_r in Hten.
      rewrite take_app_length' by done. by rewrite Hold.
Qed.

(** X24: on an entry that [saveHighScore] has written (or none),
    [isHighScore] returns, and tells what a save that can write does with
    the score: on [true] the saved record is on the leaderboard afterwards
    and the save returns [true]; on [false] the leaderboard is as it was.
    A save that cannot write returns [false] and leaves the entry as it
    was, whatever [isHighScore] has said. *)
Theorem isHighScore_agrees writable item s :
  written item →
  ∃ b, isHighScore item (score s) = Some b ∧
    (b = true → writable = true →
       s ∈ getHighScores (saveHighScore writable item s).2 ∧
       (saveHighScore writable item s).1 = true) ∧
    (b = false →
       getHighScores (saveHighScore writable item s).2 = getHighScores item) ∧
    (writable = false → saveHighScore writable item s = (false, item)).
Proof.
  intros Hw. destruct (isHighScore_written item s Hw) as (b & Hb & Htrue & Hfalse).
  exists b. split; [done|]. split; [|split].
  - intros -> ->. by apply Htrue.
  - intros ->. destruct writable; [|done]. by rewrite Hfalse.
  - by intros ->.
Qed.

Lemma isHighScore_agrees_witness :
  let s := {| score := 1200; level := 2; lines := 11; date := "2024-01-01T00:00:00.000Z" |} in
  isHighScore missing (score s) = Some true ∧
  s ∈ getHighScores (saveHighScore true missing s).2 ∧
  (saveHighScore true missing s).1 = true ∧
  saveHighScore false missing s = (false, missing).
Proof.
  intros s.
  destruct (isHighScore_agrees true missing s written_missing) as (b & Hb & Ht & _ & _).
  destruct (isHighScore_agrees false missing s written_missing) as (_ & _ & _ & _ & Hf).
  assert (b = true) as -> by (vm_compute in Hb; congruence).
  destruct (Ht eq_refl eq_refl) as [Hin Hret].
  split; [done|]. split; [done|]. split; [done|]. by apply Hf.
Defined.

Lemma getTopScore_descending l e :
  descending l → e ∈ l → score e ≤ getTopScore (stored l).
Proof.
  intros Hd He. destruct l as [|h t]; [by apply elem_of_nil in He|].
  cbn. apply elem_of_cons in He as [->|He]; [lia|].
  apply descending_cons in Hd as [_ Hall]. rewrite Forall_forall in Hall. by apply Hall.
Qed.

(** The top of the leaderboard after a save that can write, and what a
    score that [isHighScore] declines is at most. *)
Lemma saveHighScore_top item final :
  written item → 0 ≤ score final →
  getTopScore (saveHighScore true item final).2
  = Z.max (getTopScore item) (score final).
Proof.
  intros [Hd Hlen]%written_leaderboard Hpos.
  destruct (sortScores_snoc _ final Hd) as (pre & post & Hold & Hs & Hpre & Hpost).
  unfold getTopScore, saveHighScore. cbn [snd getHighScores]. rewrite Hs, Hold.
  destruct pre as [|h pre]; cbn.
  - destruct post as [|k post]; [lia|]. inversion Hpost; subst. lia.
  - inversion Hpre; subst. lia.
Qed.

Lemma isHighScore_declines item sc :
  written item → isHighScore item sc = Some false → sc ≤ getTopScore item.
Proof.
  intros [Hd Hlen]%written_leaderboard. unfold isHighScore. cbn zeta.
  case_decide as Hfew; [done|].
  destruct (last (getHighScores item)) as [l|] eqn:Hlast; [|done].
  cbn [fmap option_fmap option_map]. intros [= Hgt]. apply bool_decide_eq_false_1 in Hgt.
  assert (l ∈ getHighScores item) as Hin.
  { rewrite last_lookup in Hlast. by apply list_elem_of_lookup_2 in Hlast. }
  pose proof (getTopScore_descending _ l Hd Hin) as Hle.
  destruct item; cbn in *; by (lia || apply elem_of_nil in Hin).
Qed.

Lemma saveHighScore_leaderboard_witness :
  let s := {| score := 1200; level := 2; lines := 11; date := "2024-01-01T00:00:00.000Z" |} in
  let board := getHighScores (saveHighScore true unreadable s).2 in
  descending board ∧
  length board = ((length (getHighScores unreadable) + 1) `min` MAX_SCORES)%nat ∧
  board ⊆+ s :: getHighScores unreadable ∧
  (∀ e, e ∈ s :: getHighScores unreadable → e ∉ board →
        ∀ k, k ∈ board → score e ≤ score k) ∧
  saveHighScore false unreadable s = (false, unreadable).
Proof. intros s. apply (saveHighScore_leaderboard unreadable s). Defined.

End storage.

(** X25: at a game over with a score that is not negative, on an entry
    [saveHighScore] has written (or none), [gameOver] returns with the
    state [gameover]. If [isHighScore] accepts the score, the high score on
    display becomes the score; if the save can write, the stored top score
    becomes the larger of the old top score and the score, so that the two
    agree exactly when the score is at least the old top score; if the
    save cannot write, the entry stays as it was. If [isHighScore]
    declines, nothing but the state changes and the score is at most the
    stored top score. *)
Theorem gameOver_highScore g item :
  Storage.entry (env g) = Storage.listed item → Storage.written item → 0 ≤ score g →
  ∃ g' isNew,
    gameOver g = Some g' ∧ state g' = gameover ∧
    Storage.isHighScore item (score g) = Some isNew ∧
    (isNew = true →
       highScore g' = score g ∧
       (Storage.writable (env g) = true →
          ∃ item', Storage.entry (env g') = Storage.listed item' ∧
            Storage.getTopScore item' = Z.max (Storage.getTopScore item) (score g) ∧
            (highScore g' = Storage.getTopScore item' ↔
             Storage.getTopScore item ≤ score g)) ∧
       (Storage.writable (env g) = false →
          Storage.entry (env g') = Storage.listed item)) ∧
    (isNew = false →
       g' = set_state gameover g ∧ score g ≤ Storage.getTopScore item).
Proof.
  intros He Hw Hpos. unfold gameOver. cbn zeta. cbn [env set_state score level lines].
  rewrite He. cbn [Storage.isHighScoreOf Storage.saveHighScoreOf].
  destruct (isHighScore_returns item (score g)) as [isNew HisNew]. rewrite HisNew.
  destruct isNew.
  - eexists _, true. split; [done|]. split; [done|]. split; [done|]. split; [|done].
    intros _. split; [done|]. split.
    + intros Hwr. rewrite Hwr. eexists. split; [done|].
      rewrite (saveHighScore_top item) by done. cbn [Storage.score highScore set_highScore].
      split; [done|lia].
    + by intros ->.
  - eexists _, false. split; [done|]. split; [done|]. split; [done|]. split; [done|].
    intros _. split; [done|]. by apply isHighScore_declines.
Qed.

Lemma gameOver_highScore_witness :
  let g := set_score 1200 emptyGame in
  ∃ g' isNew,
    gameOver g = Some g' ∧ state g' = gameover ∧
    Storage.isHighScore Storage.missing (score g) = Some isNew ∧
    (isNew = true →
       highScore g' = score g ∧
       (Storage.writable (env g) = true →
          ∃ item', Storage.entry (env g') = Storage.listed item' ∧
            Storage.getTopScore item' = Z.max (Storage.getTopScore Storage.missing) (score g) ∧
            (highScore g' = Storage.getTopScore item' ↔
             Storage.getTopScore Storage.missing ≤ score g)) ∧
       (Storage.writable (env g) = false →
          Storage.entry (env g') = Storage.listed Storage.missing)) ∧
    (isNew = false →
       g' = set_state gameover g ∧ score g ≤ Storage.getTopScore Storage.missing).
Proof.
  intros g. apply (gameOver_highScore g Storage.missing).
  - reflexivity.
  - apply Storage.written_missing.
  - by vm_compute.
Defined.

(** ** Full rows, shapes, idle states and counters *)

Lemma scanFull_sorted n b : ∀ rows,
  scanFull n b = Some rows → StronglySorted (λ i j, (j < i)%nat) rows.
Proof.
  induction n as [|n IH]; intros rows; cbn [scanFull]; [intros [= <-]; constructor|].
  destruct (b !! n) as [r|] eqn:Hr; [|done].
  destruct (scanFull n b) as [rest|] eqn:Hs; [|done].
  destruct (rowFull r); intros [= <-]; [|by apply IH].
  constructor; [by apply IH|]. by apply scanFull_below in Hs.
Qed.

(** X18: on a board of the right dimensions [linesToClear] returns the
    indices of the rows without a [null] cell, all of them, each once, the
    bottom one first. *)
Theorem linesToClear_detects b :
  dims b →
  ∃ rows, linesToClear b = Some rows ∧
    (∀ k, k ∈ rows ↔ ∃ r, b !! k = Some r ∧ Forall (λ cell, cell ≠ null) r) ∧
    StronglySorted (λ i j, (j < i)%nat) rows ∧ NoDup rows ∧
    (length rows ≤ Z.to_nat ROWS)%nat.
Proof.
  intros Hd. destruct (linesToClear_returns b Hd) as (rows & Hrows & Hlt & Hlen).
  exists rows. split; [done|]. unfold linesToClear in Hrows.
  pose proof (scanFull_sorted _ _ _ Hrows) as Hs.
  split; [|split; [done|split; [|done]]].
  - intros k. rewrite (scanFull_elem _ _ _ Hrows k). destruct Hd as [Hl _]. split.
    + intros (_ & r & Hr & Hf). exists r. split; [done|].
      unfold rowFull in Hf. rewrite forallb_forall in Hf. apply Forall_forall.
      intros c Hc. apply list_elem_of_In in Hc. apply Hf in Hc.
      by apply bool_decide_eq_true_1 in Hc.
    + intros (r & Hr & Hf). split; [apply lookup_lt_Some in Hr; lia|].
      exists r. split; [done|]. unfold rowFull. apply forallb_forall.
      intros c Hc. apply list_elem_of_In in Hc. rewrite Forall_forall in Hf.
      apply bool_decide_eq_true_2. by apply Hf.
  - clear -Hs. induction Hs as [|k rows Hs IH Hall]; constructor; [|done].
    intros Hin. rewrite Forall_forall in Hall. specialize (Hall k Hin). lia.
Qed.

Lemma linesToClear_detects_witness :
  ∃ rows, linesToClear lockedBoard = Some rows ∧
    (∀ k, k ∈ rows ↔ ∃ r, lockedBoard !! k = Some r ∧ Forall (λ cell, cell ≠ null) r) ∧
    StronglySorted (λ i j, (j < i)%nat) rows ∧ NoDup rows ∧
    (length rows ≤ Z.to_nat ROWS)%nat.
Proof.
  apply (linesToClear_detects lockedBoard).
  split; [reflexivity|]. vm_compute. repeat constructor.
Defined.

(** X5: for every piece type and every rotation from zero up,
    [getRotatedShape] returns a square matrix of side 2 to 4 with entries 0
    and 1 and exactly four filled cells, and the same one for the rotation
    plus 4. *)
Theorem shape_table type rotation :
  0 ≤ rotation →
  ∃ shape, getRotatedShape type rotation = Some shape ∧
    filledCount shape = 4%nat ∧
    (2 ≤ length shape ≤ 4)%nat ∧
    Forall (λ cells, length cells = length shape ∧ Forall (λ v, v = 0 ∨ v = 1) cells) shape ∧
    getRotatedShape type (rotation + 4) = Some shape.
Proof.
  intros Hr. destruct (getRotatedShape_table type rotation Hr) as (shape & Hs & Hn).
  exists shape. split; [done|].
  assert (getRotatedShape type (rotation + 4) = Some shape) as Hper.
  { rewrite <-Hs. unfold getRotatedShape. rewrite !Z.rem_mod_nonneg by lia.
    f_equal. replace (rotation + 4) with (rotation + 1 * 4) by lia.
    by rewrite Z.mod_add by lia. }
  assert (0 ≤ rotation `mod` 4 < 4) as Hm by (apply Z.mod_pos_bound; lia).
  revert Hn. generalize (Z.to_nat (rotation `mod` 4)). intros n Hn.
  destruct type; destruct n as [|[|[|[|n]]]]; cbn in Hn; try (by destruct n);
    injection Hn as <-; (split; [reflexivity|]); (split; [cbn; lia|]);
    (split; [|done]);
    repeat first [ apply Forall_nil_2 | apply Forall_cons_2
                 | split; [reflexivity|] | left; reflexivity | right; reflexivity ].
Qed.

Lemma shape_table_witness :
  ∃ shape, getRotatedShape S_ 6 = Some shape ∧
    filledCount shape = 4%nat ∧
    (2 ≤ length shape ≤ 4)%nat ∧
    Forall (λ cells, length cells = length shape ∧ Forall (λ v, v = 0 ∨ v = 1) cells) shape ∧
    getRotatedShape S_ (6 + 4) = Some shape.
Proof. apply (shape_table S_ 6). lia. Defined.

(** X14: before the first start and after a game over every handler but
    [startGame] leaves the game as it is. *)
Theorem idle_until_start g g' :
  reachable g → state g = start ∨ state g = gameover → step g g' →
  g' = g ∨ startGame g = Some g'.
Proof.
  intros Hg Hs Hstep.
  assert (currentPiece g = None) as Hn.
  { pose proof (ok_state g (reachable_sessionOk g Hg)) as Hst.
    destruct (currentPiece g) eqn:Hc; [|done].
    destruct (proj1 Hst) as [E|E]; [by eauto|..]; destruct Hs; congruence. }
  destruct Hstep as [g g' H|g dx dy ok g' H|g g' H|g g' H|g fuel g' H|g g' H|g].
  - by right.
  - left. unfold movePiece in H. rewrite Hn in H. by injection H as _ <-.
  - left. unfold rotatePiece in H. rewrite Hn in H. by injection H as <-.
  - left. unfold softDrop, movePiece in H. rewrite Hn in H. by injection H as <-.
  - left. unfold hardDrop in H. rewrite Hn in H. by injection H as <-.
  - left. unfold autoDrop, movePiece in H. rewrite Hn in H.
    unfold lockPiece in H. rewrite Hn in H. by injection H as <-.
  - left. unfold togglePause. by destruct Hs as [-> | ->].
Qed.

Lemma lockPiece_grows g g' :
  invariant g → sessionOk g → lockPiece g = Some g' →
  score g ≤ score g' ∧ lines g ≤ lines g' ∧ level g ≤ level g' ∧
  dropInterval g' ≤ dropInterval g.
Proof.
  intros Hi Hg Hl. destruct (currentPiece g) as [p|] eqn:Hp.
  2:{ unfold lockPiece in Hl. rewrite Hp in Hl. injection Hl as <-. lia. }
  destruct (lockPiece_cases g p g' Hp Hl) as (shape & b1 & g1 & _ & _ & Hc & Hs).
  pose proof (invariant_lockPiece g g' Hi Hl) as Hi'.
  apply spawnPiece_effect in Hs as (_ & Es & El & En & Ed & _).
  pose proof (levelOf_pos (lines g)) as Hpos. rewrite <-(inv_level g Hi) in Hpos.
  pose proof Hc as Hf.
  apply clearLines_frame in Hf as (_ & _ & _ & _ & _ & [Hsc _] & Hln);
    [|cbn; lia|apply (ok_score g Hg)|apply (inv_lines g Hi)].
  cbn in Hsc, Hln.
  assert (level g ≤ level g') as Hlv.
  { rewrite (inv_level g Hi), (inv_level g' Hi'), En. by apply levelOf_mono. }
  repeat split; try lia.
  rewrite (inv_speed g Hi), (inv_speed g' Hi'). by apply speedOf_antitone.
Qed.

(** X13: in a session every handler but [startGame] leaves the score, the
    line count and the level at least as high as they were and the drop
    interval at most as long. *)
Theorem session_monotone g g' :
  reachable g → step g g' →
  startGame g = Some g' ∨
  (score g ≤ score g' ∧ lines g ≤ lines g' ∧ level g ≤ level g' ∧
   dropInterval g' ≤ dropInterval g).
Proof.
  intros Hg Hstep.
  pose proof (reachable_invariant g Hg) as Hi.
  pose proof (reachable_sessionOk g Hg) as Hok.
  destruct Hstep as [g g' H|g dx dy ok g' H|g g' H|g g' H|g fuel g' H|g g' H|g].
  - by left.
  - right. apply movePiece_frame in H as (_ & -> & -> & -> & ->). lia.
  - right. unfold rotatePiece in H. destruct (currentPiece g) as [p|];
      [|injection H as <-; lia].
    apply tryKicks_cases in H as [->|(? & ? & ->)]; cbn; lia.
  - right. unfold softDrop in H. destruct (movePiece 0 1 g) as [[[|] g1]|] eqn:Hm; [| |done];
      injection H as <-; apply movePiece_frame in Hm as (_ & Es & El & En & Ed); cbn;
      [|lia].
    destruct (ok_score g Hok) as [? ?]. rewrite Es.
    destruct (add_grows (score g) 1) as [_ ?]; [done..|lia|]. lia.
  - right. unfold hardDrop in H. destruct (currentPiece g); [|injection H as <-; lia].
    destruct (dropLoop fuel g 0) as [[d g1]| |] eqn:Hl; [|done..].
    destruct (lockPiece _) as [g2|] eqn:Hk; [|done]. injection H as <-.
    pose proof Hl as Hl'. apply invariant_dropLoop in Hl' as [Hi1 Hsc1]; [|done].
    pose proof Hl as Hl2. apply dropLoop_frame in Hl2 as (Hok1 & Hd & _); [|done].
    destruct (ok_score g1 Hok1) as [? ?].
    assert (0 ≤ Number.mul d 2) as Hmul by (apply fl_ge; [by apply double_small|lia]).
    destruct (add_grows (score g1) (Number.mul d 2)) as [Hnew Hle]; [done..|].
    apply lockPiece_grows in Hk as (Hs & Hn & Hv & Hdi).
    2:{ by apply invariant_set_score. }
    2:{ by apply sessionOk_set_score. }
    cbn in Hs, Hn, Hv, Hdi.
    assert (lines g1 = lines g ∧ level g1 = level g ∧ dropInterval g1 = dropInterval g)
      as (E1 & E2 & E3).
    { clear -Hl. revert g Hl. generalize 0. induction fuel as [|fuel IH]; intros acc g;
        cbn [dropLoop]; destruct (movePiece 0 1 g) as [[[|] g2]|] eqn:Hm; try done.
      - intros [= <- <-]. by apply movePiece_frame in Hm as (_ & _ & ? & ? & ?).
      - intros Hl. apply IH in Hl as (-> & -> & ->).
        by apply movePiece_frame in Hm as (_ & _ & ? & ? & ?).
      - intros [= <- <-]. by apply movePiece_frame in Hm as (_ & _ & ? & ? & ?). }
    lia.
  - right. unfold autoDrop in H. destruct (movePiece 0 1 g) as [[[|] g1]|] eqn:Hm; [| |done].
    + injection H as <-. apply movePiece_frame in Hm as (_ & -> & -> & -> & ->). lia.
    + pose proof (invariant_movePiece _ _ _ _ _ Hi Hm) as Hi1.
      pose proof (sessionOk_movePiece _ _ _ _ _ Hok Hm) as Hok1.
      apply lockPiece_grows in H as (? & ? & ? & ?); [|done..].
      apply movePiece_frame in Hm as (_ & Es & El & En & Ed). lia.
  - right. unfold togglePause. destruct (state g); cbn; lia.
Qed.

Lemma session_monotone_witness :
  startGame startedGame = Some secondGame ∨
  (score startedGame ≤ score secondGame ∧ lines startedGame ≤ lines secondGame ∧
   level startedGame ≤ level secondGame ∧
   dropInterval secondGame ≤ dropInterval startedGame).
Proof.
  apply (session_monotone startedGame secondGame).
  - apply reachable_startedGame.
  - apply (step_hardDrop _ 20). by vm_compute.
Defined.

Lemma idle_until_start_witness :
  togglePause emptyGame = emptyGame ∨ startGame emptyGame = Some (togglePause emptyGame).
Proof.
  apply (idle_until_start emptyGame (togglePause emptyGame)).
  - apply reachable_new.
  - by left.
  - apply step_togglePause.
Defined.

Lemma softDrops_valid k : ∀ g p,
  currentPiece g = Some p → (∀ j, 1 ≤ j ≤ Z.of_nat k → validAt g p j) →
  softDrops k g =
    Some (set_score (Nat.iter k (λ s, Number.fl (s + 1)) (score g))
            (dropped g p (Z.of_nat k))).
Proof.
  induction k as [|k IH]; intros g p Hp Hv.
  { cbn [softDrops Nat.iter]. f_equal. destruct g, p. cbn in Hp. subst.
    unfold set_score, dropped, shifted, set_currentPiece. cbn.
    by rewrite !Z.add_0_r. }
  cbn [softDrops]. unfold softDrop, movePiece. rewrite Hp. cbn zeta.
  pose proof (Hv 1 ltac:(lia)) as H1. unfold validAt in H1.
  rewrite Z.add_0_r, H1.
  rewrite (IH _ {| type := type p; x := x p; y := y p + 1; rotation := rotation p |}).
  - f_equal. rewrite Nat.iter_succ_r.
    unfold set_score, dropped, shifted, set_currentPiece. cbn.
    f_equal. do 2 f_equal. lia.
  - done.
  - intros j Hj. unfold validAt. cbn.
    pose proof (Hv (j + 1) ltac:(lia)) as Hj1. unfold validAt in Hj1.
    by replace (y p + 1 + j) with (y p + (j + 1)) by lia.
Qed.

Lemma iter_add_exact (k : nat) : ∀ s,
  0 ≤ s → s + k ≤ 2 ^ 53 → Nat.iter k (λ s, Number.fl (s + 1)) s = s + k.
Proof.
  induction k as [|k IH]; intros s Hs Hk; [cbn; lia|].
  rewrite Nat.iter_succ_r, fl_exact by lia. rewrite IH by lia. lia.
Qed.

(** X21: in a session, the [d] rows a hard drop moves the piece down are
    what [d] soft drops move it down; one more soft drop changes nothing;
    and the hard drop is the lock of the piece at that place. The soft
    drops add 1 each and the hard drop adds [d * 2], in double arithmetic:
    [d] and [d * 2] exactly as long as the score stays within [2 ^ 53]. *)
Theorem softDrops_reach_landing g p fuel :
  reachable g → currentPiece g = Some p → (dropFuel g ≤ fuel)%nat →
  ∃ d : nat,
    dropLoop fuel g 0 = Returns (Z.of_nat d, dropped g p d) ∧
    softDrops d g =
      Some (set_score (Nat.iter d (λ s, Number.fl (s + 1)) (score g)) (dropped g p d)) ∧
    softDrops (S d) g = softDrops d g ∧
    hardDrop fuel g =
      ofOption (lockPiece (set_score (Number.fl (score g + Number.fl (d * 2)))
                             (dropped g p d))) ∧
    (score g + d * 2 ≤ 2 ^ 53 →
       Nat.iter d (λ s, Number.fl (s + 1)) (score g) = score g + d ∧
       Number.fl (score g + Number.fl (d * 2)) = score g + d * 2).
Proof.
  intros Hg Hp Hfuel. unfold dropFuel in Hfuel. rewrite Hp in Hfuel.
  pose proof (reachable_invariant g Hg) as Hi.
  destruct (ok_score g (reachable_sessionOk g Hg)) as [Hs0 _].
  destruct (dropLoop_spec fuel g p 0 Hp (inv_board g Hi)) as (d & Hd & Hall & Hstop & Hl);
    [by apply (inv_rotation g Hi)|done|].
  rewrite Z.add_0_l in Hl. exists (Z.to_nat d). rewrite Z2Nat.id by done.
  split; [done|].
  assert (softDrops (Z.to_nat d) g
          = Some (set_score (Nat.iter (Z.to_nat d) (λ s, Number.fl (s + 1)) (score g))
                    (dropped g p d))) as Hsoft.
  { rewrite (softDrops_valid _ g p Hp); rewrite Z2Nat.id by done; [done|]. apply Hall. }
  split; [done|]. split; [|split].
  - rewrite Hsoft.
    assert (∀ n h, softDrops (S n) h = softDrops n h ≫= softDrop) as Hsnoc.
    { induction n as [|n IH]; intros h; cbn [softDrops].
      - cbn. by destruct (softDrop h).
      - destruct (softDrop h) as [h1|]; [|done]. by rewrite <-IH. }
    rewrite Hsnoc, Hsoft. cbn. unfold softDrop, movePiece. cbn.
    rewrite Z.add_0_r.
    assert (isValidPosition (board g) (type p) (x p) (y p + d + 1) (rotation p) = Some false)
      as ->; [|done].
    destruct (isValidPosition_returns (board g) (type p) (x p) (y p + d + 1) (rotation p))
      as [[|] Hv]; [apply (inv_board g Hi)|by apply (inv_rotation g Hi)| |done].
    destruct Hstop. unfold validAt. by rewrite Z.add_assoc.
  - unfold hardDrop. rewrite Hp, Hl. done.
  - intros Hsafe. split.
    + rewrite iter_add_exact; rewrite ?Z2Nat.id by done; lia.
    + rewrite (fl_exact (d * 2)) by lia. apply fl_exact. lia.
Qed.

Lemma softDrops_reach_landing_witness :
  ∃ d : nat,
    dropLoop 20 startedGame 0 = Returns (Z.of_nat d, dropped startedGame (spawned J_) d) ∧
    softDrops d startedGame =
      Some (set_score (Nat.iter d (λ s, Number.fl (s + 1)) (score startedGame))
              (dropped startedGame (spawned J_) d)) ∧
    softDrops (S d) startedGame = softDrops d startedGame ∧
    hardDrop 20 startedGame =
      ofOption (lockPiece (set_score (Number.fl (score startedGame + Number.fl (d * 2)))
                             (dropped startedGame (spawned J_) d))) ∧
    (score startedGame + d * 2 ≤ 2 ^ 53 →
       Nat.iter d (λ s, Number.fl (s + 1)) (score startedGame) = score startedGame + d ∧
       Number.fl (score startedGame + Number.fl (d * 2)) = score startedGame + d * 2).
Proof.
  apply (softDrops_reach_landing startedGame (spawned J_) 20).
  - apply reachable_startedGame.
  - by vm_compute.
  - vm_compute. lia.
Defined.

(** ** Every order can come out of the shuffle *)

Section any_order.
Import Bag.
Local Open Scope nat_scope.
Context {A : Type}.
Implicit Types a t : list A.

Lemma swap_prefix i j a :
  j ≤ i → i < length a →
  take (S i) (swap i j a) ≡ₚ take (S i) a ∧
  drop (S i) (swap i j a) = drop (S i) a ∧
  swap i j a !! i = a !! j ∧ length (swap i j a) = length a.
Proof.
  intros Hj Hi. unfold swap.
  destruct (lookup_lt_is_Some_2 a j) as [aj Haj]; [lia|].
  destruct (lookup_lt_is_Some_2 a i) as [ai Hai]; [lia|].
  rewrite Haj, Hai. split; [|split; [|split]].
  - rewrite !take_insert_lt by lia. apply Permutation_insert_swap.
    + by rewrite lookup_take_lt by lia.
    + by rewrite lookup_take_lt by lia.
  - by rewrite !drop_insert_lt by lia.
  - destruct (decide (i = j)) as [->|Hne].
    + rewrite list_lookup_insert_eq by (rewrite length_insert; lia). congruence.
    + rewrite list_lookup_insert_ne by done.
      by rewrite list_lookup_insert_eq by lia.
  - by rewrite !length_insert.
Qed.

Lemma shuffleLoop_any_order i : ∀ a t,
  i < length a → length t = length a →
  take (S i) t ≡ₚ take (S i) a → drop (S i) t = drop (S i) a →
  ∃ cs, length cs = i ∧
    ∀ r, (∀ k, k < i → stream r (cursor r + k) = default 0 (cs !! k)) →
         (shuffleLoop i a r).1 = t.
Proof.
  induction i as [|i IH]; intros a t Hi Hlen Htake Hdrop.
  { exists []. split; [done|]. intros r _. cbn.
    rewrite <-(take_drop 1 a), <-(take_drop 1 t), Hdrop. f_equal.
    destruct a as [|x a]; [cbn in Hi; lia|]. destruct t as [|y t]; [done|].
    cbn in Htake |- *. by apply Permutation_singleton_r in Htake. }
  destruct (lookup_lt_is_Some_2 t (S i)) as [x Hx]; [lia|].
  assert (x ∈ take (S (S i)) a) as Hin.
  { rewrite <-Htake. apply elem_of_take. exists (S i). split; [done|lia]. }
  apply elem_of_take in Hin as (j & Hj & Hlt).
  destruct (swap_prefix (S i) j a) as (Hp & Hd & Hl & Hlen'); [lia..|].
  rewrite Hj in Hl.
  destruct (IH (swap (S i) j a) t) as (cs & Hcs & Hrun).
  - lia.
  - lia.
  - rewrite (take_S_r _ _ _ Hx), (take_S_r _ _ _ Hl) in *.
    rewrite <-Hp in Htake. by apply Permutation_app_inv_r in Htake.
  - rewrite (drop_S _ _ _ Hx), (drop_S _ _ _ Hl). by rewrite Hd, Hdrop.
  - exists (j :: cs). split; [cbn; lia|]. intros r Hr.
    cbn [shuffleLoop randomBelow].
    pose proof (Hr 0 ltac:(lia)) as H0. rewrite Nat.add_0_r in H0. cbn in H0.
    rewrite H0, Nat.mod_small by lia. apply Hrun.
    intros k Hk. cbn [stream cursor]. specialize (Hr (S k) ltac:(lia)).
    replace (S (cursor r) + k) with (cursor r + S k) by lia. exact Hr.
Qed.

(** X2: every order of the array is returned by [shuffleArray] for some
    outcome of [Math.random]: the [length - 1] indices it draws can be
    chosen so that the result is any given permutation. *)
Theorem shuffleArray_any_order a t :
  t ≡ₚ a → ∃ cs, length cs = length a - 1 ∧ (shuffleArray a (entropyOf cs)).1 = t.
Proof.
  intros Hp. pose proof (Permutation_length Hp) as Hlen.
  destruct a as [|x a].
  { apply Permutation_nil_r in Hp as ->. by exists []. }
  unfold shuffleArray.
  destruct (shuffleLoop_any_order (length (x :: a) - 1) (x :: a) t) as (cs & Hcs & Hrun).
  - cbn. lia.
  - done.
  - replace (S (length (x :: a) - 1)) with (length (x :: a)) by (cbn; lia).
    by rewrite <-Hlen at 1; rewrite !firstn_all.
  - replace (S (length (x :: a) - 1)) with (length (x :: a)) by (cbn; lia).
    by rewrite <-Hlen at 1; rewrite !drop_all.
  - exists cs. split; [done|]. apply Hrun. intros k Hk. done.
Qed.

End any_order.

Lemma shuffleArray_any_order_witness :
  ∃ cs, (length cs = length Bag.pieces - 1)%nat ∧
        (Bag.shuffleArray Bag.pieces (entropyOf cs)).1 = [L_; J_; Z_; S_; T_; O_; I_].
Proof.
  apply (shuffleArray_any_order Bag.pieces [L_; J_; Z_; S_; T_; O_; I_]).
  change [L_; J_; Z_; S_; T_; O_; I_] with (reverse Bag.pieces).
  apply reverse_Permutation.
Defined.
